(** * ssb: trust graph builder, history streams and message verification

    A shallow embedding of the parts of the Go sources that the
    specification talks about:

    - [graph.builder]  (contact index, [Build], [Follows], [Hops],
      [DeleteAuthor]),
    - [gossip.FeedManager]  ([nonliveLimit], [liveLimit], [addLiveFeed],
      [CreateStreamHistory]),
    - [legacy.Verify]  (the content-shape checks).

    Go values are modelled as the code has them: [[]byte] and
    [librarian.Addr] as lists of bytes, [int] and [int64] as [Z] with the
    64-bit wrap-around written out, the badger key/value store as a finite
    map that is iterated in ascending key order, errors as values. *)

From Stdlib Require Import ZArith Lia Strings.Byte String.
From stdpp Require Import gmap list sorting pretty.

Local Open Scope Z_scope.

(** ** Bytes *)

Abbreviation bytes := (list byte).

#[global] Instance byte_eq_dec : EqDecision byte := Byte.byte_eq_dec.

#[global] Instance byte_countable : Countable byte :=
  inj_countable Byte.to_N Byte.of_N Byte.of_to_N.

(** [bytes.Compare(a, b) <= 0]: the order badger keeps its keys in. *)
Fixpoint bytes_leb (a b : bytes) : bool :=
  match a, b with
  | [], _ => true
  | _ :: _, [] => false
  | x :: a', y :: b' =>
      if (Byte.to_N x <? Byte.to_N y)%N then true
      else if (Byte.to_N x =? Byte.to_N y)%N then bytes_leb a' b'
      else false
  end.

(** [bytes.HasPrefix(k, p)]. *)
Definition hasPrefix (k p : bytes) : bool := bool_decide (p `prefix_of` k).

(** ** Machine integers *)

Definition MaxInt64 : Z := 2 ^ 63 - 1.
Definition MinInt64 : Z := - 2 ^ 63.

(** Two's complement wrap-around of an [int64] (and of [int] on the 64-bit
    platforms the program is built for). *)
Definition wrap64 (z : Z) : Z := (z + 2 ^ 63) mod 2 ^ 64 - 2 ^ 63.

Definition in_int64 (z : Z) : Prop := MinInt64 <= z <= MaxInt64.

(** ** Errors *)

(** Go [error] values.  [fmt.Errorf("ctx: %w", err)] is [ErrWrap ctx err];
    the formatted operands of a message are left out of [ctx]. *)
Inductive error : Type :=
| ErrMsg (msg : string)
| ErrWrap (ctx : string) (cause : error).

Inductive result (A : Type) : Type :=
| Ok (a : A)
| Fail (e : error).
Arguments Ok {A} a.
Arguments Fail {A} e.

(** A computation that runs on a bound of recursive calls: it returns, or
    the bound was too small for it. *)
Inductive fueled (A : Type) : Type :=
| Returns (a : A)
| OutOfFuel.
Arguments Returns {A} a.
Arguments OutOfFuel {A}.

(** Sequencing of calls that may fail: the first error ends the run. *)
Definition andThen {A B} (m : fueled (result A)) (k : A -> fueled (result B))
  : fueled (result B) :=
  match m with
  | Returns (Ok a) => k a
  | Returns (Fail e) => Returns (Fail e)
  | OutOfFuel => OutOfFuel
  end.

(** [for _, x := range l { ... }] with a body that may return early with
    an error. *)
Fixpoint forEach {A S} (body : A -> S -> fueled (result S)) (l : list A)
    (s : S) : fueled (result S) :=
  match l with
  | [] => Returns (Ok s)
  | x :: rest => andThen (body x s) (forEach body rest)
  end.

(** A loop over the items of an iterator whose body updates [s] in place
    and may return an error, which ends the loop. *)
Fixpoint forItems {S} (body : S -> bytes * bytes -> S * option error)
    (its : list (bytes * bytes)) (s : S) : S * option error :=
  match its with
  | [] => (s, None)
  | it :: rest =>
      match body s it with
      | (s', Some err) => (s', Some err)
      | (s', None) => forItems body rest s'
      end
  end.

(** ** The key/value store *)

(** A badger database: a finite map from keys to values.  A [View] runs
    its body on the store as it is; the errors that remain are the ones the
    body makes.  What an [Update] adds to these is in [Txn] below. *)
Abbreviation store := (gmap bytes bytes).

Definition item_le (x y : bytes * bytes) : Prop := bytes_leb x.1 y.1 = true.

#[global] Instance item_le_dec x y : Decision (item_le x y).
Proof. unfold item_le. apply _. Defined.

(** What an iterator with the default options walks through after
    [Rewind]: every item, in ascending key order. *)
Definition items (kv : store) : list (bytes * bytes) :=
  merge_sort item_le (map_to_list kv).

(** [iter.Seek(prefix)]: skip the items whose key is below [prefix]. *)
Fixpoint iterSeek (prefix : bytes) (its : list (bytes * bytes))
  : list (bytes * bytes) :=
  match its with
  | [] => []
  | it :: rest =>
      if bytes_leb prefix it.1 then its else iterSeek prefix rest
  end.

(** [for ...; iter.ValidForPrefix(prefix); iter.Next()]: the items visited
    until the first key that does not start with [prefix]. *)
Fixpoint iterWhilePrefix (prefix : bytes) (its : list (bytes * bytes))
  : list (bytes * bytes) :=
  match its with
  | [] => []
  | it :: rest =>
      if hasPrefix it.1 prefix then it :: iterWhilePrefix prefix rest else []
  end.

(** The items visited by
    [for iter.Seek(p); iter.ValidForPrefix(p); iter.Next()]. *)
Definition prefixItems (prefix : bytes) (kv : store) : list (bytes * bytes) :=
  iterWhilePrefix prefix (iterSeek prefix (items kv)).

(** Modelled from the spec: the transactions of badger are not in these
    sources.  What the read-write transaction of one [kv.Update] does beyond
    its body: the error [txn.Delete] returns for a key, if any, and the
    error of the commit that ends it.  The transaction is atomic (sections
    3 and 4.4): when the body or the commit returns an error, [Update]
    returns that error and the store stays as it was. *)
Record Txn := mkTxn {
  txnDelete : bytes -> option error;
  txnCommit : option error
}.

(** A transaction in which every deletion and the commit go through. *)
Definition noFault : Txn :=
  {| txnDelete := fun _ => None; txnCommit := None |}.

(** ** External collaborators of the graph builder *)

(** The feed references of [go.mindeco.de/ssb-refs] and their stored form
    ([storedrefs.Feed], [tfk.Feed]) are libraries outside these sources; the
    builder only uses the operations below. *)
Class RefCodec (FeedRef : Type) := {
  (** [storedrefs.Feed(r)]: the stored (type-format-key) form of [r]. *)
  storedFeed : FeedRef -> bytes;
  (** [var sr tfk.Feed; sr.UnmarshalBinary(raw)] followed by [sr.Feed()]. *)
  tfkUnmarshalBinary : bytes -> result FeedRef;
  (** [r.Ref()]: the printed form of [r]. *)
  Ref : FeedRef -> string;
  (** Go ranges over the map behind a feed set in no fixed order:
      [listOrder] rearranges the members into the order a run takes. *)
  listOrder : list FeedRef -> list FeedRef
}.

(** [refs.Contact]: the decoded content of a contact message. *)
Record Contact (FeedRef : Type) := mkContact {
  contact : FeedRef;
  Following : bool;
  Blocking : bool
}.
Arguments mkContact {FeedRef}.
Arguments contact {FeedRef}.
Arguments Following {FeedRef}.
Arguments Blocking {FeedRef}.

(** [refs.Message], as far as the contact index reads it. *)
Record Message (FeedRef : Type) := mkMessage {
  Author : FeedRef;
  ContentBytes : bytes
}.
Arguments mkMessage {FeedRef}.
Arguments Author {FeedRef}.
Arguments ContentBytes {FeedRef}.

(** [c.UnmarshalJSON(content)] of [refs.Contact]. *)
Class ContactCodec (FeedRef : Type) := {
  unmarshalContact : bytes -> result (Contact FeedRef)
}.

(** The [val interface{}] that the main log hands to the index: an error
    (a deletion marker among them), a message, or anything else. *)
Inductive logValue (FeedRef : Type) : Type :=
| ValError (e : error)
| ValMessage (m : Message FeedRef)
| ValOther.
Arguments ValError {FeedRef}.
Arguments ValMessage {FeedRef}.
Arguments ValOther {FeedRef}.

Definition ErrNulled : error := ErrMsg "margaret: Entry Nulled".

(** [margaret.IsErrNulled]: [ErrNulled], possibly wrapped. *)
Fixpoint IsErrNulled (e : error) : bool :=
  match e with
  | ErrMsg m => bool_decide (m = "margaret: Entry Nulled"%string)
  | ErrWrap _ c => IsErrNulled c
  end.

(** [librarian.SetterIndex], as [indexUpdateFunc] uses it. *)
Record SetterIndex := {
  idxSet : bytes -> Z -> store -> result store
}.

(** The text of an integer, as the index encodes the values it is given:
    [0], [1] and [2] become the single bytes ['0'], ['1'] and ['2']. *)
Definition marshalInt (v : Z) : bytes := list_byte_of_string (pretty v).

(** Modelled from the spec: the index of [libbadger.NewIndex(db, 0)] is not
    in these sources.  It writes the encoded value through to the key/value
    store under the given address (section 4.3, steps 5 and 6). *)
Definition badgerIndex : SetterIndex :=
  {| idxSet := fun addr v kv => Ok (<[addr := marshalInt v]> kv) |}.

(** ** The trust graph *)

(** The weights [Build] gives an edge: [math.Inf(-1)] (no edge), [1]
    (follow) and [math.Inf(1)] (block). *)
Inductive weight : Type := NegInf | One | PosInf.

#[global] Instance weight_eq_dec : EqDecision weight.
Proof. solve_decision. Defined.

Section graph.
Context {FeedRef : Type} `{Countable FeedRef}.
Context `{!RefCodec FeedRef} `{!ContactCodec FeedRef}.

(** [contactNode{graph.Node, feed, name}]. *)
Record contactNode := mkNode {
  nodeID : Z;
  feed : FeedRef;
  name : string
}.

(** [contactEdge{simple.WeightedEdge{F, T, W}, isBlock}]. *)
Record contactEdge := mkEdge {
  F : contactNode;
  T : contactNode;
  W : weight;
  isBlock : bool
}.

(** Modelled from the spec: [Graph] and the gonum graph it embeds are not
    in these sources.  A weighted directed graph with nodes keyed by
    their ID, at most one edge per (from, to), and the [lookup] table from
    stored feed references to nodes (section 3, Graph). *)
Record Graph := mkGraph {
  nodes : gmap Z contactNode;
  edges : gmap (Z * Z) contactEdge;
  lookup : gmap bytes contactNode
}.

Definition NewGraph : Graph :=
  {| nodes := ∅; edges := ∅; lookup := ∅ |}.

(** [dg.NewNode()]: an ID no node of the graph has; with no node ever
    removed, the number of nodes. *)
Definition NewNode (dg : Graph) : Z := Z.of_nat (size (nodes dg)).

Definition AddNode (n : contactNode) (dg : Graph) : Graph :=
  {| nodes := <[nodeID n := n]> (nodes dg);
     edges := edges dg;
     lookup := lookup dg |}.

(** [dg.lookup[addr] = n]. *)
Definition setLookup (addr : bytes) (n : contactNode) (dg : Graph) : Graph :=
  {| nodes := nodes dg;
     edges := edges dg;
     lookup := <[addr := n]> (lookup dg) |}.

(** [dg.SetWeightedEdge(e)]: both ends become (or stay) nodes, the edge
    replaces any edge between the same two IDs. *)
Definition SetWeightedEdge (e : contactEdge) (dg : Graph) : Graph :=
  {| nodes := <[nodeID (T e) := T e]> (<[nodeID (F e) := F e]> (nodes dg));
     edges := <[(nodeID (F e), nodeID (T e)) := e]> (edges dg);
     lookup := lookup dg |}.

(** ** Feed sets *)

(** Modelled from the spec: [ssb.StrFeedSet] is not in these sources.  A
    finite set of feed references (the FeedSet of section 4.4); [AddRef]
    and [List] have an error result in their Go signature. *)
Definition NewFeedSet : gset FeedRef := ∅.

Definition AddRef (r : FeedRef) (fs : gset FeedRef) : result (gset FeedRef) :=
  Ok ({[r]} ∪ fs).

Definition Has (fs : gset FeedRef) (r : FeedRef) : bool :=
  bool_decide (r ∈ fs).

Definition Delete (r : FeedRef) (fs : gset FeedRef) : gset FeedRef :=
  fs ∖ {[r]}.

Definition List (fs : gset FeedRef) : result (list FeedRef) :=
  Ok (listOrder (elements fs)).

(** ** The builder *)

Record builder := mkBuilder {
  kv : store;
  cachedGraph : option Graph
}.

Definition NewBuilder (db : store) : builder :=
  {| kv := db; cachedGraph := None |}.

(** [indexUpdateFunc]: the error returned, and the builder afterwards. *)
Definition indexUpdateFunc (b : builder) (val : logValue FeedRef)
    (idx : SetterIndex) : option error * builder :=
  match val with
  | ValError nulled =>
      if IsErrNulled nulled then (None, b) else (Some nulled, b)
  | ValOther => (Some (ErrMsg "graph/idx: invalid msg value"), b)
  | ValMessage abs =>
      match unmarshalContact (ContentBytes abs) with
      | Fail _ => (None, b)
      | Ok c =>
          let addr := storedFeed (Author abs) ++ storedFeed (contact c) in
          let set :=
            if Following c then idxSet idx addr 1
            else if Blocking c then idxSet idx addr 2
            else idxSet idx addr 0 in
          match set (kv b) with
          | Fail err =>
              (Some (ErrWrap "db/idx contacts: failed to update index." err), b)
          | Ok kv' => (None, {| kv := kv'; cachedGraph := None |})
          end
      end
  end.

(** One round of the loop of [DeleteAuthor]: [txn.Delete(k)], whose error
    ends the loop. *)
Definition deleteItem (txn : Txn) (kv : store) (it : bytes * bytes)
    : store * option error :=
  match txnDelete txn it.1 with
  | Some err =>
      (kv, Some (ErrWrap "DeleteAuthor: failed to drop record" err))
  | None => (delete it.1 kv, None)
  end.

(** [DeleteAuthor]: the cache is dropped, and one transaction deletes the
    key of every item the prefix iteration visits.  [b.kv.Update] returns
    the error of the loop or, after the loop, of the commit; the store
    takes the deletions only when there is neither. *)
Definition DeleteAuthor (txn : Txn) (b : builder) (who : FeedRef)
    : option error * builder :=
  let prefix := storedFeed who in
  let '(kv', err) :=
    forItems (deleteItem txn) (prefixItems prefix (kv b)) (kv b) in
  let err :=
    match err with
    | Some err => Some err
    | None => txnCommit txn
    end in
  match err with
  | Some err => (Some err, {| kv := kv b; cachedGraph := None |})
  | None => (None, {| kv := kv'; cachedGraph := None |})
  end.

(** The function passed to [it.Value] in [Build]; [w] starts out as
    [math.Inf(-1)]. *)
Definition valueWeight (v : bytes) : result weight :=
  match v with
  | [] => Ok NegInf
  | c :: _ =>
      if bool_decide (c = "0"%byte) then Ok NegInf
      else if bool_decide (c = "1"%byte) then Ok One
      else if bool_decide (c = "2"%byte) then Ok PosInf
      else Fail (ErrMsg "barbage value in graph strore")
  end.

(** [n, has := dg.lookup[raw]; if !has { n = &contactNode{dg.NewNode(),
    ref.Copy(), ""}; dg.AddNode(n); dg.lookup[raw] = n }]. *)
Definition lookupOrAdd (raw : bytes) (ref : FeedRef) (dg : Graph)
    : Graph * contactNode :=
  match lookup dg !! raw with
  | Some n => (dg, n)
  | None =>
      let n := mkNode (NewNode dg) ref "" in
      (setLookup raw n (AddNode n dg), n)
  end.

(** One round of the loop of [Build]: the graph afterwards, and the error
    the round returns with, if any ([None]: on to the next item). *)
Definition buildItem (dg : Graph) (it : bytes * bytes)
    : Graph * option error :=
  let k := it.1 in
  if negb (length k =? 68)%nat then (dg, None) else
  let rawFrom := take 34 k in
  let rawTo := drop 34 k in
  if bool_decide (rawFrom = rawTo) then (dg, None) else
  match tfkUnmarshalBinary rawFrom with
  | Fail err =>
      (dg, Some (ErrWrap "builder: couldnt idx key value (from)" err))
  | Ok from =>
  match tfkUnmarshalBinary rawTo with
  | Fail err =>
      (dg, Some (ErrWrap "builder: couldnt idx key value (to)" err))
  | Ok to =>
      let '(dg, nFrom) := lookupOrAdd rawFrom from dg in
      let '(dg, nTo) := lookupOrAdd rawTo to dg in
      if nodeID nFrom =? nodeID nTo then (dg, None) else
      match valueWeight it.2 with
      | Fail err =>
          (dg, Some (ErrWrap "failed to get value from item" err))
      | Ok w =>
          if bool_decide (w = NegInf) then (dg, None) else
          (SetWeightedEdge
             {| F := nFrom; T := nTo; W := w;
                isBlock := bool_decide (w = PosInf) |} dg, None)
      end
  end
  end.

(** [Build]: the graph and error returned, and the builder afterwards. *)
Definition Build (b : builder) : (Graph * option error) * builder :=
  let dg := NewGraph in
  match cachedGraph b with
  | Some g => ((g, None), b)
  | None =>
      let '(dg, err) := forItems buildItem (items (kv b)) dg in
      ((dg, err), {| kv := kv b; cachedGraph := Some dg |})
  end.

(** One round of the loop of [Follows]. *)
Definition followsItem (fs : gset FeedRef) (it : bytes * bytes)
    : gset FeedRef * option error :=
  let k := it.1 in
  let '(fs, err) :=
    match it.2 with
    | c :: _ =>
        if bool_decide (c = "1"%byte) then
          match tfkUnmarshalBinary (drop 34 k) with
          | Fail err =>
              (fs, Some (ErrWrap "follows: invalid ref entry in db for feed" err))
          | Ok sr =>
              match AddRef sr fs with
              | Fail err =>
                  (fs, Some (ErrWrap "follows: couldn't add parsed ref feed" err))
              | Ok fs' => (fs', None)
              end
          end
        else (fs, None)
    | [] => (fs, None)
    end in
  match err with
  | Some err => (fs, Some (ErrWrap "failed to get value from iter" err))
  | None => (fs, None)
  end.

(** [Follows]: the feed set is returned next to the error. *)
Definition Follows (b : builder) (forRef : FeedRef)
    : gset FeedRef * option error :=
  let fs := NewFeedSet in
  let prefix := storedFeed forRef in
  forItems followsItem (prefixItems prefix (kv b)) fs.

(** One round of the loop of [recurseHops] over the feeds [from] follows,
    with [recur] for the call of [recurseHops] on a friend at [depth-1]. *)
Definition hopsRound (recur : FeedRef -> gset FeedRef * gset string ->
                              fueled (result (gset FeedRef * gset string)))
    (b : builder) (from followedByFrom : FeedRef)
    (st : gset FeedRef * gset string)
    : fueled (result (gset FeedRef * gset string)) :=
  let '(walked, vis) := st in
  match AddRef followedByFrom walked with
  | Fail err =>
      Returns (Fail (ErrWrap "recurseHops: add list entry failed" err))
  | Ok walked =>
      match Follows b followedByFrom with
      | (_, Some err) =>
          Returns (Fail (ErrWrap "recurseHops: follows from entry failed" err))
      | (dstFollows, None) =>
          if Has dstFollows from then recur followedByFrom (walked, vis)
          else Returns (Ok (walked, vis))
      end
  end.

(** [recurseHops]: [walked] and [vis] are updated in place, so they are
    passed on from call to call; [depth] is an [int].  [fuel] bounds the
    nesting of the recursion. *)
Fixpoint recurseHops (fuel : nat) (b : builder) (from : FeedRef) (depth : Z)
    (st : gset FeedRef * gset string)
    : fueled (result (gset FeedRef * gset string)) :=
  match fuel with
  | O => OutOfFuel
  | S fuel' =>
      let '(walked, vis) := st in
      if depth =? 0 then Returns (Ok (walked, vis)) else
      if bool_decide (Ref from ∈ vis) then Returns (Ok (walked, vis)) else
      match Follows b from with
      | (_, Some err) =>
          Returns (Fail (ErrWrap "recurseHops: from follow listing failed" err))
      | (fromFollows, None) =>
      match List fromFollows with
      | Fail err =>
          Returns (Fail (ErrWrap "recurseHops: invalid entry in feed set" err))
      | Ok followLst =>
          andThen
            (forEach
               (hopsRound
                  (fun friend =>
                     recurseHops fuel' b friend (wrap64 (depth - 1)))
                  b from)
               followLst (walked, vis))
            (fun '(walked, vis) =>
               Returns (Ok (walked, {[Ref from]} ∪ vis)))
      end
      end
  end.

(** [Hops]: [None] is the nil set returned after a failed recursion. *)
Definition Hops (fuel : nat) (b : builder) (from : FeedRef) (max : Z)
    : fueled (option (gset FeedRef)) :=
  let max := wrap64 (max + 1) in
  let walked := NewFeedSet in
  let visited : gset string := ∅ in
  match recurseHops fuel b from max (walked, visited) with
  | OutOfFuel => OutOfFuel
  | Returns (Fail err) => Returns None
  | Returns (Ok (walked, _)) => Returns (Some (Delete from walked))
  end.

(** The follow listings a run of [recurseHops] asks for, on the state
    ([walked], [vis]) it starts with: [b.Follows(from)] in a call that gets
    past its two guards; [b.Follows(followedByFrom)] for an entry the loop
    comes to, the rounds before it having returned without error; and the
    listings that the call on a friend asks for. *)
Inductive asksFollows (b : builder)
  : nat -> FeedRef -> Z -> gset FeedRef * gset string -> FeedRef -> Prop :=
| asks_from fuel from depth walked vis :
    depth <> 0 ->
    Ref from ∉ vis ->
    asksFollows b (S fuel) from depth (walked, vis) from
| asks_entry fuel from depth walked vis fromFollows followLst before g after
    walked' vis' walked'' :
    depth <> 0 ->
    Ref from ∉ vis ->
    Follows b from = (fromFollows, None) ->
    List fromFollows = Ok followLst ->
    followLst = before ++ g :: after ->
    forEach
      (hopsRound (fun friend => recurseHops fuel b friend (wrap64 (depth - 1)))
         b from)
      before (walked, vis) = Returns (Ok (walked', vis')) ->
    AddRef g walked' = Ok walked'' ->
    asksFollows b (S fuel) from depth (walked, vis) g
| asks_friend fuel from depth walked vis fromFollows followLst before g after
    walked' vis' walked'' dstFollows h :
    depth <> 0 ->
    Ref from ∉ vis ->
    Follows b from = (fromFollows, None) ->
    List fromFollows = Ok followLst ->
    followLst = before ++ g :: after ->
    forEach
      (hopsRound (fun friend => recurseHops fuel b friend (wrap64 (depth - 1)))
         b from)
      before (walked, vis) = Returns (Ok (walked', vis')) ->
    AddRef g walked' = Ok walked'' ->
    Follows b g = (dstFollows, None) ->
    Has dstFollows from = true ->
    asksFollows b fuel g (wrap64 (depth - 1)) (walked'', vis') h ->
    asksFollows b (S fuel) from depth (walked, vis) h.

(** The graph a scan of the store builds, whether or not it ends in an
    error. *)
Definition scanGraph (db : store) : Graph :=
  (forItems buildItem (items db) NewGraph).1.

(** The cache of a builder in use: empty, or the graph of a [Build] on
    the store as it is (every write to the store empties the cache). *)
Definition cacheValid (b : builder) : Prop :=
  forall g, cachedGraph b = Some g -> g = scanGraph (kv b).

(** The set the specification gives for [Hops(from, 0)]: the feeds [from]
    follows that follow it back. *)
Definition mutualFollows (b : builder) (from : FeedRef) : gset FeedRef :=
  filter (fun g => from ∈ (Follows b g).1) (Follows b from).1.
(** *** Notions the properties of the builder are stated with *)

(** An edge that an item of the store accounts for: a 68-byte key whose
    two halves differ and decode to the feeds at the ends of the edge. *)
Definition edgeOf (db : store) (e : contactEdge) : Prop :=
  exists k v,
    db !! k = Some v /\ length k = 68%nat /\ take 34 k <> drop 34 k
    /\ tfkUnmarshalBinary (take 34 k) = Ok (feed (F e))
    /\ tfkUnmarshalBinary (drop 34 k) = Ok (feed (T e))
    /\ nodeID (F e) <> nodeID (T e).

(** What holds of the graph all along the scan of [Build]. *)
Definition graphInv (db : store) (dg : Graph) : Prop :=
  (forall raw n,
      lookup dg !! raw = Some n -> tfkUnmarshalBinary raw = Ok (feed n))
  /\ (forall ids e, edges dg !! ids = Some e -> edgeOf db e).

(** The error a scan of the store ends in, if any. *)
Definition scanError (db : store) : option error :=
  (forItems buildItem (items db) NewGraph).2.

(** A store as the contact index leaves it: every key is the stored form
    of an author followed by that of a target, every value one of the
    bytes ['0'], ['1'] and ['2']. *)
Definition indexed (db : store) : Prop :=
  forall k v,
    db !! k = Some v ->
    exists a b : FeedRef,
      k = storedFeed a ++ storedFeed b
      /\ (v = ["0"%byte] \/ v = ["1"%byte] \/ v = ["2"%byte]).

(** The graph has an edge from the feed [a] to the feed [b], of weight [w]
    and block flag [blk]. *)
Definition hasEdge (dg : Graph) (a b : FeedRef) (w : weight) (blk : bool)
  : Prop :=
  exists ids e,
    edges dg !! ids = Some e
    /\ feed (F e) = a /\ feed (T e) = b /\ W e = w /\ isBlock e = blk.

(** [g] is within [d] hops of [from]: [from] follows it, or a friend of
    [from] (they follow each other) has it within [d - 1] hops. *)
Inductive within (b : builder) : nat -> FeedRef -> FeedRef -> Prop :=
| within_follow d from g :
    g ∈ (Follows b from).1 -> within b (S d) from g
| within_friend d from friend g :
    friend ∈ (Follows b from).1 ->
    from ∈ (Follows b friend).1 ->
    within b d friend g ->
    within b (S d) from g.

(** The nodes of the graph take the IDs from 0 on; each stored reference
    that was looked up has its own node, whose feed it decodes to. *)
Definition nodesInv (dg : Graph) : Prop :=
  (forall id, is_Some (nodes dg !! id) <-> 0 <= id < Z.of_nat (size (nodes dg)))
  /\ (forall raw n,
         lookup dg !! raw = Some n ->
         nodes dg !! nodeID n = Some n /\ tfkUnmarshalBinary raw = Ok (feed n))
  /\ (forall r1 r2 n1 n2,
         lookup dg !! r1 = Some n1 -> lookup dg !! r2 = Some n2 ->
         nodeID n1 = nodeID n2 -> r1 = r2).

(** [e] is the edge that [Build] sets for the item [(k, v)]. *)
Definition edgeFor (dg : Graph) (k v : bytes) (e : contactEdge) : Prop :=
  length k = 68%nat /\ take 34 k <> drop 34 k
  /\ lookup dg !! take 34 k = Some (F e)
  /\ lookup dg !! drop 34 k = Some (T e)
  /\ valueWeight v = Ok (W e) /\ W e <> NegInf
  /\ isBlock e = bool_decide (W e = PosInf).

(** Every edge of the graph is the edge of an item of the store. *)
Definition soundInv (db : store) (dg : Graph) : Prop :=
  nodesInv dg
  /\ forall ids e,
      edges dg !! ids = Some e ->
      ids = (nodeID (F e), nodeID (T e))
      /\ exists k v, db !! k = Some v /\ edgeFor dg k v e.

(** Every item gone through that stands for an edge has its edge. *)
Definition completeInv (done : list (bytes * bytes)) (dg : Graph) : Prop :=
  forall k v w,
    (k, v) ∈ done -> length k = 68%nat -> take 34 k <> drop 34 k ->
    valueWeight v = Ok w -> w <> NegInf ->
    exists e,
      edges dg !! (nodeID (F e), nodeID (T e)) = Some e /\ edgeFor dg k v e.
End graph.

(** ** History streams (plugins/gossip/feed_manager.go) *)

(** [arg.ID.Algo], as the switch of [CreateStreamHistory] tells the formats
    apart. *)
Inductive RefAlgo : Type :=
| RefAlgoFeedSSB1
| RefAlgoFeedGabby
| RefAlgoOther (algo : string).

Class FeedFormat (FeedRef : Type) := {
  Algo : FeedRef -> RefAlgo
}.

(** [message.CreateHistArgs]: the history request of section 3. *)
Record CreateHistArgs (FeedRef : Type) := mkArgs {
  ID : option FeedRef;
  Seq : Z;
  Limit : Z;
  Live : bool;
  Keys : bool;
  Reverse : bool;
  AsJSON : bool;
  Gt : Z;
  Lt : Z
}.
Arguments mkArgs {FeedRef}.
Arguments ID {FeedRef}.
Arguments Seq {FeedRef}.
Arguments Limit {FeedRef}.
Arguments Live {FeedRef}.
Arguments Keys {FeedRef}.
Arguments Reverse {FeedRef}.
Arguments AsJSON {FeedRef}.
Arguments Gt {FeedRef}.
Arguments Lt {FeedRef}.

(** [arg.Seq = v] and [arg.Limit = v]: the request is changed in place. *)
Definition setSeq {FeedRef} (v : Z) (arg : CreateHistArgs FeedRef)
  : CreateHistArgs FeedRef :=
  mkArgs (ID arg) v (Limit arg) (Live arg) (Keys arg) (Reverse arg)
         (AsJSON arg) (Gt arg) (Lt arg).

Definition setLimit {FeedRef} (v : Z) (arg : CreateHistArgs FeedRef)
  : CreateHistArgs FeedRef :=
  mkArgs (ID arg) (Seq arg) v (Live arg) (Keys arg) (Reverse arg)
         (AsJSON arg) (Gt arg) (Lt arg).

(** [nonliveLimit]: every operation is an [int64] operation. *)
Definition nonliveLimit {FeedRef} (arg : CreateHistArgs FeedRef) (curSeq : Z)
  : Z :=
  if Limit arg =? -1 then -1 else
  let lastSeq := wrap64 (wrap64 (Seq arg + Limit arg) - 1) in
  let lastSeq := if curSeq <? lastSeq then curSeq else lastSeq in
  wrap64 (wrap64 (lastSeq - Seq arg) + 1).

(** [liveLimit]. *)
Definition liveLimit {FeedRef} (arg : CreateHistArgs FeedRef) (curSeq : Z)
  : Z :=
  if Limit arg =? -1 then -1 else
  let startSeq := wrap64 (curSeq + 1) in
  let lastSeq := wrap64 (wrap64 (Seq arg + Limit arg) - 1) in
  if lastSeq <? curSeq then 0 else
  wrap64 (wrap64 (lastSeq - startSeq) + 1).

(** What [log.Seq().Value()] holds. *)
Inductive seqValue : Type :=
| UnsetValue
| BaseSeq (v : Z)
| OtherValue.

(** [margaret.QuerySpec], the specs [CreateStreamHistory] builds. *)
Inductive QuerySpec : Type :=
| QLimit (n : Z)
| QReverse (rev : bool)
| QGte (s : Z)
| QLt (s : Z)
| QGt (s : Z).

(** [margaret.Log], as the feed manager uses the sub-log of a feed: its
    current sequence, and the messages a query without [Live] yields until
    its end of stream.  [logQuery] stands for the query on
    [mutil.Indirect(m.ReceiveLog, userLog)], which resolves the offsets in
    the sub-log to the messages of the main log. *)
Record Log (Msg : Type) := mkLog {
  logSeq : result seqValue;
  logQuery : list QuerySpec -> result (list Msg)
}.
Arguments mkLog {Msg}.
Arguments logSeq {Msg}.
Arguments logQuery {Msg}.

(** [getLatestSeq]. *)
Definition getLatestSeq {Msg} (log : Log Msg) : result Z :=
  match logSeq log with
  | Fail err => Fail (ErrWrap "failed to observe latest" err)
  | Ok latestSeqValue =>
      match latestSeqValue with
      | UnsetValue => Ok 0
      | BaseSeq v => Ok v
      | OtherValue =>
          Fail (ErrMsg "wrong type in index. expected margaret.BaseSeq")
      end
  end.

(** Modelled from the spec: the logs of [margaret] are not in these sources.
    A log holding [entries] at the offsets [0], [1], ...: its latest
    sequence is the last offset, unset when it is empty, and a query yields
    the entries whose offset meets every bound, in reverse order if asked,
    cut at the limit unless that is negative (section 4.1). *)
Definition specHolds (offset : Z) (spec : QuerySpec) : bool :=
  match spec with
  | QGte s => s <=? offset
  | QLt s => offset <? s
  | QGt s => s <? offset
  | QLimit _ | QReverse _ => true
  end.

Definition queryReverse (specs : list QuerySpec) : bool :=
  existsb (fun spec => match spec with QReverse true => true | _ => false end)
          specs.

Definition queryLimit (specs : list QuerySpec) : Z :=
  foldr (fun spec acc => match spec with QLimit n => n | _ => acc end) (-1)
        specs.

(** The entries with their offsets, counted from [i]. *)
Fixpoint indexFrom {Msg} (i : Z) (entries : list Msg) : list (Z * Msg) :=
  match entries with
  | [] => []
  | m :: rest => (i, m) :: indexFrom (i + 1) rest
  end.

Definition listLogQuery {Msg} (entries : list Msg) (specs : list QuerySpec)
  : list Msg :=
  let indexed := indexFrom 0 entries in
  let matching :=
    filter (fun e => forallb (specHolds e.1) specs = true) indexed in
  let ordered := if queryReverse specs then reverse matching else matching in
  let n := queryLimit specs in
  (if n <? 0 then ordered else take (Z.to_nat n) ordered).*2.

Definition listLog {Msg} (entries : list Msg) : Log Msg :=
  {| logSeq :=
       Ok (match entries with
           | [] => UnsetValue
           | _ => BaseSeq (Z.of_nat (length entries) - 1)
           end);
     logQuery := fun specs => Ok (listLogQuery entries specs) |}.

(** [context.Canceled] and the error of a closed [muxrpc] sink. *)
Definition ErrCanceled : error := ErrMsg "context canceled".
Definition ErrSinkClosed : error := ErrMsg "muxrpc: pour to closed sink".

(** [errors.Is(err, target)] for a [target] that is a plain message. *)
Fixpoint errorsIs (err : error) (msg : string) : bool :=
  match err with
  | ErrMsg m => bool_decide (m = msg)
  | ErrWrap _ cause => errorsIs cause msg
  end.

Definition IsCanceled (err : error) : bool := errorsIs err "context canceled".
Definition IsSinkClosed (err : error) : bool :=
  errorsIs err "muxrpc: pour to closed sink".

(** The frames of section 6: the JSON envelope (with or without keys) and
    the binary stream framing. *)
Inductive frame (Msg : Type) : Type :=
| KeyValueFrame (keys : bool) (m : Msg)
| GabbyFrame (m : Msg).
Arguments KeyValueFrame {Msg}.
Arguments GabbyFrame {Msg}.

(** [transform.NewKeyValueWrapper(sink, keys)] and
    [luigiutils.NewGabbyStreamSink(sink)]: how a message is framed. *)
Inductive sinkWrapper : Type :=
| KeyValueWrapper (keys : bool)
| GabbyStreamSink.

Definition wrapFrame {Msg} (w : sinkWrapper) (m : Msg) : frame Msg :=
  match w with
  | KeyValueWrapper keys => KeyValueFrame keys m
  | GabbyStreamSink => GabbyFrame m
  end.

(** The [*muxrpc.ByteSink] of a request: the frames written to it so far,
    and whether it has been closed. *)
Record ByteSink (Msg : Type) := mkSink {
  frames : list (frame Msg);
  closed : bool
}.
Arguments mkSink {Msg}.
Arguments frames {Msg}.
Arguments closed {Msg}.

(** Modelled from the spec: [luigiutils.MultiSink] is not in these sources.
    It keeps its broadcast sequence and, for each consumer, the sequence up
    to which it is served; a consumer registered with an [until] that is
    not above the broadcast sequence is closed at once (section 4.5). *)
Record MultiSink := mkMultiSink {
  broadcastSeq : Z;
  consumers : list Z
}.

Definition NewMultiSink (seq : Z) : MultiSink :=
  {| broadcastSeq := seq; consumers := [] |}.

Definition Register {Msg} (ms : MultiSink) (sink : ByteSink Msg) (until : Z)
  : MultiSink * ByteSink Msg :=
  if until <=? broadcastSeq ms
  then (ms, {| frames := frames sink; closed := true |})
  else ({| broadcastSeq := broadcastSeq ms;
           consumers := consumers ms ++ [until] |}, sink).

(** The feed manager: the live feeds by [Ref], and the two metrics, each
    absent ([nil]) or holding its value. *)
Record FeedManager := mkFeedManager {
  liveFeeds : gmap string MultiSink;
  sysGauge : option Z;
  sysCtr : option Z
}.

(** What the surroundings of one call do: the sub-log [UserFeeds.Get]
    opens, the error [sink.Close()] returns, and where [luigi.Pump] stops
    early: [(n, err)] makes it fail with [err] in place of writing frame
    number [n] (from 0). *)
Record Env (Msg : Type) := mkEnv {
  userFeedsGet : bytes -> result (Log Msg);
  closeErr : option error;
  pumpFault : option (nat * error)
}.
Arguments mkEnv {Msg}.
Arguments userFeedsGet {Msg}.
Arguments closeErr {Msg}.
Arguments pumpFault {Msg}.

Section gossip.
Context {FeedRef Msg : Type} `{!RefCodec FeedRef} `{!FeedFormat FeedRef}.

(** [sink.Close()]. *)
Definition Close (env : Env Msg) (sink : ByteSink Msg)
    : option error * ByteSink Msg :=
  (closeErr env, {| frames := frames sink; closed := true |}).

(** [luigi.Pump(ctx, luigiutils.NewSinkCounter(&sent, luigiSink), src)]:
    the number of messages sent, the error, and the sink afterwards. *)
Definition Pump (env : Env Msg) (w : sinkWrapper) (src : list Msg)
    (sink : ByteSink Msg) : nat * option error * ByteSink Msg :=
  let pour ms :=
    {| frames := frames sink ++ map (wrapFrame w) ms;
       closed := closed sink |} in
  match pumpFault env with
  | Some (n, err) =>
      if (n <? length src)%nat then (n, Some err, pour (take n src))
      else (length src, None, pour src)
  | None => (length src, None, pour src)
  end.

(** [addLiveFeed]. *)
Definition addLiveFeed (m : FeedManager) (sink : ByteSink Msg)
    (ssbID : string) (seq limit : Z)
    : option error * FeedManager * ByteSink Msg :=
  let '(feeds, liveFeed) :=
    match liveFeeds m !! ssbID with
    | Some liveFeed => (liveFeeds m, liveFeed)
    | None =>
        (<[ssbID := NewMultiSink seq]> (liveFeeds m), NewMultiSink seq)
    end in
  let gauge :=
    match sysGauge m with
    | Some _ => Some (Z.of_nat (size feeds))
    | None => None
    end in
  let until := wrap64 (seq + limit) in
  let until := if limit =? -1 then MaxInt64 else until in
  let '(liveFeed, sink) := Register liveFeed sink until in
  (None,
   {| liveFeeds := <[ssbID := liveFeed]> feeds;
      sysGauge := gauge;
      sysCtr := sysCtr m |},
   sink).

(** [CreateStreamHistory]: the error returned, the feed manager and the
    sink afterwards. *)
Definition CreateStreamHistory (env : Env Msg) (m : FeedManager)
    (sink : ByteSink Msg) (arg : CreateHistArgs FeedRef)
    : option error * FeedManager * ByteSink Msg :=
  match ID arg with
  | None => (Some (ErrMsg "bad request: missing id argument"), m, sink)
  | Some id =>
  match userFeedsGet env (storedFeed id) with
  | Fail err =>
      (Some (ErrWrap "failed to open sublog for user" err), m, sink)
  | Ok userLog =>
  match getLatestSeq userLog with
  | Fail err => (Some (ErrWrap "userLog sequence" err), m, sink)
  | Ok latest =>
      let seqSet := negb (Seq arg =? 0) in
      let arg := if seqSet then setSeq (wrap64 (Seq arg - 1)) arg else arg in
      if seqSet && (latest <? Seq arg) then
        if Live arg then
          addLiveFeed m sink (Ref id) latest (liveLimit arg latest)
        else
          let '(err, sink) := Close env sink in
          (match err with
           | Some err => Some (ErrWrap "pour: failed to close" err)
           | None => None
           end, m, sink)
      else
      let arg :=
        if Live arg && (Limit arg =? 0) then setLimit (-1) arg else arg in
      let limit := nonliveLimit arg latest in
      let qryArgs :=
        [QLimit limit; QReverse (Reverse arg)]
        ++ (if 0 <? Seq arg then [QGte (Seq arg)] else [])
        ++ (if 0 <? Lt arg then [QLt (Lt arg)] else [])
        ++ (if 0 <? Gt arg then [QGt (Gt arg)] else []) in
      match logQuery userLog qryArgs with
      | Fail err => (Some (ErrWrap "invalid user log query" err), m, sink)
      | Ok src =>
      let luigiSink :=
        match Algo id with
        | RefAlgoFeedSSB1 => Ok (KeyValueWrapper (Keys arg))
        | RefAlgoFeedGabby =>
            if AsJSON arg then Ok (KeyValueWrapper (Keys arg))
            else Ok GabbyStreamSink
        | RefAlgoOther _ => Fail (ErrMsg "unsupported feed format")
        end in
      match luigiSink with
      | Fail err => (Some err, m, sink)
      | Ok luigiSink =>
          let '(sent, err, sink) := Pump env luigiSink src sink in
          let m :=
            match sysCtr m with
            | Some n =>
                {| liveFeeds := liveFeeds m;
                   sysGauge := sysGauge m;
                   sysCtr := Some (n + Z.of_nat sent) |}
            | None => m
            end in
          match err with
          | Some err =>
              if IsCanceled err || IsSinkClosed err then
                let '(_, sink) := Close env sink in (None, m, sink)
              else
                (Some (ErrWrap "failed to pump messages to peer" err), m, sink)
          | None =>
              if Live arg then
                addLiveFeed m sink (Ref id) latest (liveLimit arg latest)
              else
                let '(err, sink) := Close env sink in (err, m, sink)
          end
      end
      end
  end
  end
  end.
End gossip.

(** ** Message verification (message/legacy/verify.go) *)

(** [DeserializedMessage], as far as [Verify] reads it.  [Content] is a
    [json.RawMessage]. *)
Record DeserializedMessage (FeedRef : Type) := mkDeserialized {
  MsgAuthor : FeedRef;
  Sequence : Z;
  Hash : string;
  Content : bytes
}.
Arguments mkDeserialized {FeedRef}.
Arguments MsgAuthor {FeedRef}.
Arguments Sequence {FeedRef}.
Arguments Hash {FeedRef}.
Arguments Content {FeedRef}.

(** [refs.MessageRef]. *)
Record MessageRef := mkMessageRef {
  RefHash : bytes;
  RefAlgoName : string
}.

Definition RefAlgoMessageSSB1 : string := "sha256".

(** What [Verify] calls and these sources do not hold: the encoder of the
    package, the JSON decoder at the three types it is used at, the
    signature regular expression, and the cryptography. *)
Class VerifyDeps (FeedRef : Type) := {
  EncodePreserveOrder : bytes -> result bytes;
  unmarshalMessage : bytes -> result (DeserializedMessage FeedRef);
  (** [json.Unmarshal(content, &typedContent)]: the [Type] field. *)
  unmarshalTyped : bytes -> result string;
  (** [json.Unmarshal(content, &justString)]. *)
  unmarshalString : bytes -> result string;
  (** [signatureRegexp.FindSubmatch] and [signatureRegexp.ReplaceAll(b, {})]. *)
  signatureFindSubmatch : bytes -> list bytes;
  signatureStrip : bytes -> bytes;
  (** [auth.Sum(msg, key)]. *)
  authSum : bytes -> bytes -> bytes;
  (** [sig.Verify(msg, author)]. *)
  signatureVerify : bytes -> bytes -> FeedRef -> option error;
  InternalV8Binary : bytes -> result bytes;
  sha256Sum : bytes -> bytes
}.

(** [strings.HasSuffix(s, suffix)]. *)
Definition HasSuffix (s suffix : string) : bool :=
  bool_decide (list_ascii_of_string suffix `suffix_of` list_ascii_of_string s).

Section verify.
Context {FeedRef : Type} `{!VerifyDeps FeedRef}.

(** [ExtractSignature]: the message without the signature, and the
    signature. *)
Definition ExtractSignature (b : bytes) : result (bytes * bytes) :=
  let matches := signatureFindSubmatch b in
  if negb (length matches =? 2)%nat then
    Fail (ErrMsg "message Encode: expected signature in formatted bytes.")
  else
    let sig := default [] (matches !! 1%nat) in
    let out := signatureStrip b in
    Ok (out, sig).

(** The [switch dmsg.Content[0]] of [Verify]: the error it returns with,
    if any.  [content] holds at least one byte. *)
Definition checkContent (content : bytes) : option error :=
  match content with
  | [] => None
  | c :: _ =>
      if bool_decide (c = "{"%byte) then
        match unmarshalTyped content with
        | Fail err => Some err
        | Ok type =>
            let tlen := String.length type in
            if ((tlen <? 3) || (53 <? tlen))%nat then
              Some (ErrMsg "ssb Verify: scuttlebutt v1 requires a type field")
            else None
        end
      else if bool_decide (c = x22) then
        match unmarshalString content with
        | Fail err => Some err
        | Ok justString =>
            if negb (HasSuffix justString ".box")
               && negb (HasSuffix justString ".box2") then
              Some (ErrMsg "ssb Verify: scuttlebutt v1 private messages need to have the right suffix")
            else None
        end
      else Some (ErrMsg "ssb Verify: unexpected content")
  end.

(** [Verify]; [hmacSecret] is [None] for a nil key. *)
Definition Verify (raw : bytes) (hmacSecret : option bytes)
    : result (MessageRef * DeserializedMessage FeedRef) :=
  match EncodePreserveOrder raw with
  | Fail err => Fail (ErrWrap "ssb Verify: could not encode message" err)
  | Ok enc =>
  match unmarshalMessage raw with
  | Fail err =>
      Fail (ErrWrap "ssb Verify: could not json.Unmarshal message" err)
  | Ok dmsg =>
      if negb (bool_decide (Hash dmsg = "sha256"%string)) then
        Fail (ErrMsg "ssb Verify: scuttlebutt happend anyway")
      else if (length (Content dmsg) <? 1)%nat then
        Fail (ErrMsg "ssb Verify: has no content")
      else
      match checkContent (Content dmsg) with
      | Some err => Fail err
      | None =>
      match ExtractSignature enc with
      | Fail err =>
          Fail (ErrWrap "ssb Verify: could not extract signature" err)
      | Ok (woSig, sig) =>
          let woSig :=
            match hmacSecret with
            | Some key => authSum woSig key
            | None => woSig
            end in
          match signatureVerify sig woSig (MsgAuthor dmsg) with
          | Some err =>
              Fail (ErrWrap "ssb Verify: could not verify message" err)
          | None =>
          match InternalV8Binary enc with
          | Fail err =>
              Fail (ErrWrap "ssb Verify: could hash convert message" err)
          | Ok v8warp =>
              let mr := {| RefHash := sha256Sum v8warp;
                           RefAlgoName := RefAlgoMessageSSB1 |} in
              Ok (mr, dmsg)
          end
          end
      end
      end
  end
  end.
End verify.

(** ** A network of three feeds

    A small instance of the collaborators, for running the definitions:
    three feeds with 34-byte stored references, contact messages of four
    bytes, and stand-ins for the JSON decoder and the cryptography. *)
Module Net3.
Inductive peer : Type := Alice | Bob | Carol.

#[global] Instance peer_eq_dec : EqDecision peer.
Proof. solve_decision. Defined.

Definition peerIndex (p : peer) : nat :=
  match p with Alice => 0%nat | Bob => 1%nat | Carol => 2%nat end.

Definition peerAt (n : nat) : peer :=
  match n with O => Alice | S O => Bob | _ => Carol end.

#[global] Instance peer_countable : Countable peer.
Proof.
  refine (inj_countable' peerIndex peerAt _). intros p. by destruct p.
Defined.

Definition peerKey (p : peer) : byte :=
  match p with Alice => "A"%byte | Bob => "B"%byte | Carol => "C"%byte end.

Definition peerStored (p : peer) : bytes :=
  [x00; x00] ++ replicate 32 (peerKey p).

Definition ErrTfk : error := ErrMsg "tfk: unexpected format".

Definition peerUnmarshal (raw : bytes) : result peer :=
  if bool_decide (raw = peerStored Alice) then Ok Alice
  else if bool_decide (raw = peerStored Bob) then Ok Bob
  else if bool_decide (raw = peerStored Carol) then Ok Carol
  else Fail ErrTfk.

Definition peerRef (p : peer) : string :=
  match p with
  | Alice => "@alice.ed25519"
  | Bob => "@bob.ggfeed-v1"
  | Carol => "@carol.unknown"
  end.

#[global] Instance peer_codec : RefCodec peer :=
  {| storedFeed := peerStored;
     tfkUnmarshalBinary := peerUnmarshal;
     Ref := peerRef;
     listOrder := fun l => l |}.

#[global] Instance peer_format : FeedFormat peer :=
  {| Algo := fun p =>
       match p with
       | Alice => RefAlgoFeedSSB1
       | Bob => RefAlgoFeedGabby
       | Carol => RefAlgoOther "unknown"
       end |}.

(** A contact message: ['c'], the key byte of the target, and one byte
    each for [following] and [blocking]. *)
Definition flag (b : byte) : bool := bool_decide (b = "1"%byte).

Definition peerContact (content : bytes) : result (Contact peer) :=
  match content with
  | [c; t; f; b] =>
      if bool_decide (c = "c"%byte) then
        match peerUnmarshal ([x00; x00] ++ replicate 32 t) with
        | Ok target => Ok (mkContact target (flag f) (flag b))
        | Fail err => Fail err
        end
      else Fail (ErrMsg "not a contact")
  | _ => Fail (ErrMsg "not a contact")
  end.

#[global] Instance peer_contacts : ContactCodec peer :=
  {| unmarshalContact := peerContact |}.

(** The item of the store for [a] following ([v = '1']), blocking
    (['2']) or neither (['0']) [b]. *)
Definition relation (a b : peer) (v : byte) : bytes * bytes :=
  (peerStored a ++ peerStored b, [v]).

(** Stand-ins for the decoder and the cryptography of [Verify]: a raw
    message is its content, written by Alice, and every signature
    holds. *)
Definition typeOf (content : bytes) : result string :=
  match content with
  | _ :: rest => Ok (string_of_list_byte rest)
  | [] => Fail (ErrMsg "unexpected end of JSON input")
  end.

#[global] Instance peer_verify : VerifyDeps peer :=
  {| EncodePreserveOrder := fun raw => Ok raw;
     unmarshalMessage := fun raw => Ok (mkDeserialized Alice 1 "sha256" raw);
     unmarshalTyped := typeOf;
     unmarshalString := typeOf;
     signatureFindSubmatch := fun b => [b; []];
     signatureStrip := fun b => b;
     authSum := fun msg key => msg;
     signatureVerify := fun sig msg author => None;
     InternalV8Binary := fun enc => Ok enc;
     sha256Sum := fun b => b |}.
End Net3.

(** ** Stores, requests and messages on the network of three feeds *)

(** The contact message of a feed about [target]. *)
Definition contactMsg (author target : Net3.peer) (following blocking : byte)
  : logValue Net3.peer :=
  ValMessage (mkMessage author ["c"%byte; Net3.peerKey target; following; blocking]).

(** A store whose second item holds a byte that is no relation. *)
Definition garbageStore : store :=
  list_to_map [Net3.relation Net3.Alice Net3.Bob "1";
               Net3.relation Net3.Bob Net3.Carol "x"].

(** A store with a key whose two halves are the same feed. *)
Definition selfStore : store :=
  list_to_map [Net3.relation Net3.Alice Net3.Alice "1";
               Net3.relation Net3.Alice Net3.Bob "1"].

Definition edgeAliceBob : contactEdge :=
  {| F := mkNode 0 Net3.Alice ""; T := mkNode 1 Net3.Bob "";
     W := One; isBlock := false |}.

(** Alice and Bob follow each other, and Bob blocks Carol. *)
Definition mutualStore : store :=
  list_to_map [Net3.relation Net3.Alice Net3.Bob "1";
               Net3.relation Net3.Bob Net3.Alice "1";
               Net3.relation Net3.Bob Net3.Carol "2"].

Definition edgeBobAlice : contactEdge :=
  {| F := mkNode 0 Net3.Bob ""; T := mkNode 1 Net3.Alice "";
     W := One; isBlock := false |}.

(** The builder after Alice's contact messages of scenario 4 of the
    specification: she follows Bob, follows Carol, then unfollows Bob. *)
Definition scenario4 : builder :=
  let b := NewBuilder ∅ in
  let b := (indexUpdateFunc b (contactMsg Net3.Alice Net3.Bob "1" "0")
              badgerIndex).2 in
  let b := (indexUpdateFunc b (contactMsg Net3.Alice Net3.Carol "1" "0")
              badgerIndex).2 in
  (indexUpdateFunc b (contactMsg Net3.Alice Net3.Bob "0" "0") badgerIndex).2.

(** A store in which Alice follows a key that is no stored reference. *)
Definition brokenStore : store :=
  list_to_map [Net3.relation Net3.Bob Net3.Alice "1";
               (Net3.peerStored Net3.Alice ++ replicate 34 "Z"%byte,
                ["1"%byte])].

(** Alice and Bob follow each other, and Bob follows Carol. *)
Definition chainStore : store :=
  list_to_map [Net3.relation Net3.Alice Net3.Bob "1";
               Net3.relation Net3.Bob Net3.Alice "1";
               Net3.relation Net3.Bob Net3.Carol "1"].


Definition aliceUnfollowsBob : Message Net3.peer :=
  mkMessage Net3.Alice ["c"; "B"; "0"; "0"]%byte.

(** Alice and Bob follow each other and Bob follows Carol, who follows a
    key that is no stored reference. *)
Definition deepBrokenStore : store :=
  list_to_map [Net3.relation Net3.Alice Net3.Bob "1";
               Net3.relation Net3.Bob Net3.Alice "1";
               Net3.relation Net3.Bob Net3.Carol "1";
               (Net3.peerStored Net3.Carol ++ replicate 34 "Z"%byte,
                ["1"%byte])].

(** A transaction whose commit fails, and one that cannot delete the key
    of Bob about Carol. *)
Definition commitFails : Txn :=
  {| txnDelete := fun _ => None;
     txnCommit := Some (ErrMsg "Transaction Conflict. Please retry") |}.

Definition deleteFails : Txn :=
  {| txnDelete := fun k =>
       if bool_decide (k = Net3.peerStored Net3.Bob
                           ++ Net3.peerStored Net3.Carol)
       then Some (ErrMsg "Txn is too big to fit into one request")
       else None;
     txnCommit := None |}.

(** The surroundings of a request for a feed that holds [entries]: the
    sink closes without error and the pump runs through. *)
Definition feedEnv (entries : list string) : Env string :=
  {| userFeedsGet := fun _ => Ok (listLog entries);
     closeErr := None;
     pumpFault := None |}.

Definition idleManager : FeedManager :=
  {| liveFeeds := ∅; sysGauge := Some 0; sysCtr := Some 0 |}.

Definition openSink : ByteSink string := {| frames := []; closed := false |}.

(** A request for the feed of [id], and one for the feed of Alice. *)
Definition requestOf (id : Net3.peer) (seq limit : Z) (live : bool)
  : CreateHistArgs Net3.peer :=
  mkArgs (Some id) seq limit live false false false 0 0.

Definition request (seq limit : Z) (live : bool) : CreateHistArgs Net3.peer :=
  mkArgs (Some Net3.Alice) seq limit live false false false 0 0.

(** A raw message whose content is an object with the given type. *)
Definition typedMessage (type : string) : bytes :=
  "{"%byte :: list_byte_of_string type.

Definition type53 : string :=
  "about-fifty-three-bytes-long-type-name-0123456789abcd".

(** * Properties *)

(** ** Machine integers *)

Lemma wrap64_small z : in_int64 z -> wrap64 z = z.
Proof.
  unfold in_int64, MinInt64, MaxInt64, wrap64. intros Hz.
  rewrite Z.mod_small; lia.
Qed.

(** ** The order of the keys *)

Lemma to_N_inj (x y : byte) : Byte.to_N x = Byte.to_N y -> x = y.
Proof.
  intros Hxy. apply (inj Some).
  by rewrite <- (Byte.of_to_N x), <- (Byte.of_to_N y), Hxy.
Qed.

Lemma bytes_leb_refl a : bytes_leb a a = true.
Proof.
  induction a as [|x a IH]; simpl; [done|].
  rewrite N.ltb_irrefl, N.eqb_refl. exact IH.
Qed.

Lemma bytes_leb_total a b : bytes_leb a b = true \/ bytes_leb b a = true.
Proof.
  revert b. induction a as [|x a IH]; intros [|y b]; simpl; auto.
  destruct (N.ltb_spec (Byte.to_N x) (Byte.to_N y)); [auto|].
  destruct (N.ltb_spec (Byte.to_N y) (Byte.to_N x)); [auto|].
  assert (Byte.to_N x = Byte.to_N y) as Heq by lia.
  rewrite Heq, N.eqb_refl. apply IH.
Qed.

Lemma bytes_leb_trans a b c :
  bytes_leb a b = true -> bytes_leb b c = true -> bytes_leb a c = true.
Proof.
  revert b c. induction a as [|x a IH]; intros [|y b] [|z c]; simpl; try done.
  destruct (N.ltb_spec (Byte.to_N x) (Byte.to_N y)),
           (N.ltb_spec (Byte.to_N y) (Byte.to_N z)),
           (N.ltb_spec (Byte.to_N x) (Byte.to_N z));
    try done; try lia;
    destruct (N.eqb_spec (Byte.to_N x) (Byte.to_N y)),
             (N.eqb_spec (Byte.to_N y) (Byte.to_N z)),
             (N.eqb_spec (Byte.to_N x) (Byte.to_N z));
    try done; try lia.
  apply IH.
Qed.

Lemma bytes_leb_antisym a b :
  bytes_leb a b = true -> bytes_leb b a = true -> a = b.
Proof.
  revert b. induction a as [|x a IH]; intros [|y b]; simpl; try done.
  destruct (N.ltb_spec (Byte.to_N x) (Byte.to_N y)),
           (N.ltb_spec (Byte.to_N y) (Byte.to_N x)); try lia;
    destruct (N.eqb_spec (Byte.to_N x) (Byte.to_N y)),
             (N.eqb_spec (Byte.to_N y) (Byte.to_N x)); try done; try lia.
  intros Hab Hba. f_equal; [by apply to_N_inj | by apply IH].
Qed.

Lemma prefix_bytes_leb (p k : bytes) :
  p `prefix_of` k -> bytes_leb p k = true.
Proof.
  intros [q ->]. induction p as [|x p IH]; simpl; [done|].
  by rewrite N.ltb_irrefl, N.eqb_refl.
Qed.

(** Above a key that is past the prefix and does not start with it, no key
    starts with it. *)
Lemma not_prefix_above (p k k' : bytes) :
  bytes_leb p k = true -> ~ p `prefix_of` k -> bytes_leb k k' = true ->
  ~ p `prefix_of` k'.
Proof.
  revert k k'. induction p as [|x p IH]; intros k k' Hpk Hnot Hkk'.
  { destruct Hnot. apply prefix_nil. }
  destruct k as [|y k]; [done|]. destruct k' as [|z k']; [done|].
  simpl in Hpk, Hkk'. intros Hpre.
  pose proof (prefix_cons_inv_1 _ _ _ _ Hpre) as ->.
  apply prefix_cons_inv_2 in Hpre.
  destruct (N.ltb_spec (Byte.to_N z) (Byte.to_N y)) as [Hzy|Hzy].
  - destruct (N.ltb_spec (Byte.to_N y) (Byte.to_N z)); [lia|].
    destruct (N.eqb_spec (Byte.to_N y) (Byte.to_N z)); [lia|done].
  - destruct (N.eqb_spec (Byte.to_N z) (Byte.to_N y)) as [Heq|Hne]; [|done].
    apply to_N_inj in Heq as ->.
    rewrite N.ltb_irrefl, N.eqb_refl in Hkk'.
    apply (IH k k'); [done| |done|done].
    intros Hpk'. apply Hnot. by apply prefix_cons.
Qed.

#[global] Instance item_le_total : Total item_le.
Proof. intros x y. apply bytes_leb_total. Qed.

#[global] Instance item_le_trans : Transitive item_le.
Proof. intros x y z. apply bytes_leb_trans. Qed.

(** ** Iterating the store *)

Lemma items_sorted (kv : store) : StronglySorted item_le (items kv).
Proof. apply StronglySorted_merge_sort; apply _. Qed.

Lemma elem_of_items (kv : store) k v :
  (k, v) ∈ items kv <-> kv !! k = Some v.
Proof.
  unfold items. rewrite merge_sort_Permutation. apply elem_of_map_to_list.
Qed.

Lemma filter_Forall_not {A} (P : A -> Prop) `{forall x, Decision (P x)} l :
  Forall (fun x => ~ P x) l -> filter P l = [].
Proof.
  induction 1 as [|x l Hx _ IH]; [done|].
  rewrite filter_cons. by case_decide.
Qed.

Lemma iterWhilePrefix_filter prefix its :
  StronglySorted item_le its ->
  Forall (fun it => bytes_leb prefix it.1 = true) its ->
  iterWhilePrefix prefix its = filter (fun it => prefix `prefix_of` it.1) its.
Proof.
  induction 1 as [|it its Hsorted IH Hle]; intros Habove; [done|].
  apply Forall_cons in Habove as [Hit Habove].
  simpl. rewrite filter_cons. unfold hasPrefix.
  case_bool_decide as Hpre; case_decide; try done.
  - by rewrite IH.
  - symmetry. apply filter_Forall_not.
    eapply Forall_impl; [exact Hle|]. intros it' Hle'.
    by eapply not_prefix_above.
Qed.

Lemma iterSeek_filter prefix its :
  StronglySorted item_le its ->
  iterWhilePrefix prefix (iterSeek prefix its)
  = filter (fun it => prefix `prefix_of` it.1) its.
Proof.
  induction 1 as [|it its Hsorted IH Hle]; [done|].
  simpl. destruct (bytes_leb prefix it.1) eqn:Hseek.
  - apply iterWhilePrefix_filter; [by constructor|].
    constructor; [done|].
    eapply Forall_impl; [exact Hle|]. intros it' Hle'.
    by eapply bytes_leb_trans.
  - rewrite filter_cons, IH. case_decide as Hpre; [|done].
    apply prefix_bytes_leb in Hpre. congruence.
Qed.

(** The idiom [Seek(p); ValidForPrefix(p); Next()] visits the items whose
    key starts with [p], and no other. *)
Lemma prefixItems_filter (p : bytes) (kv : store) :
  prefixItems p kv = filter (fun it => p `prefix_of` it.1) (items kv).
Proof. apply iterSeek_filter, items_sorted. Qed.

Lemma elem_of_prefixItems (p : bytes) (kv : store) k v :
  (k, v) ∈ prefixItems p kv <-> p `prefix_of` k /\ kv !! k = Some v.
Proof.
  rewrite prefixItems_filter, list_elem_of_filter, elem_of_items. done.
Qed.

(** ** The contact index and the graph builder *)

Lemma forItems_invariant {S} (P : S -> Prop)
    (body : S -> bytes * bytes -> S * option error) its s :
  P s ->
  (forall s it, it ∈ its -> P s -> P (body s it).1) ->
  P (forItems body its s).1.
Proof.
  revert s. induction its as [|it its IH]; intros s Hs Hbody; [done|].
  simpl. specialize (Hbody s it) as Hit.
  destruct (body s it) as [s' [err|]]; simpl in *.
  - apply Hit; [left|done].
  - apply IH; [apply Hit; [left|done]|].
    intros s0 it0 Hin. apply Hbody. by right.
Qed.

Section graph_properties.
Context {FeedRef : Type} `{Countable FeedRef}.
Context `{!RefCodec FeedRef} `{!ContactCodec FeedRef}.

(** The stored form of a feed reference takes 34 bytes. *)
Hypothesis storedFeed_length :
  forall r : FeedRef, length (storedFeed r) = 34%nat.

(** A stored reference of 34 bytes that decodes to [r] is the stored form
    of [r]. *)
Hypothesis tfk_canonical :
  forall raw (r : FeedRef),
    length raw = 34%nat -> tfkUnmarshalBinary raw = Ok r -> storedFeed r = raw.

(** Listing a feed set yields its members, whatever the order. *)
Hypothesis listOrder_perm :
  forall l : list FeedRef, listOrder l ≡ₚ l.

Set Default Proof Using "Type".

(** *** The cache *)

Lemma cacheValid_NewBuilder db : cacheValid (NewBuilder (FeedRef:=FeedRef) db).
Proof. intros g Hg. discriminate. Qed.

Lemma cacheValid_DeleteAuthor (txn : Txn) (b : builder) who :
  cacheValid (DeleteAuthor txn b who).2.
Proof.
  intros g. unfold DeleteAuthor.
  destruct (forItems _ _ _) as [kv' [err|]]; [done|].
  by destruct (txnCommit txn).
Qed.

Lemma cacheValid_indexUpdateFunc (b : builder) val idx :
  cacheValid b -> cacheValid (indexUpdateFunc b val idx).2.
Proof.
  intros Hb. unfold indexUpdateFunc.
  destruct val as [e|abs|]; simpl; [by destruct (IsErrNulled e)| |done].
  destruct (unmarshalContact (ContentBytes abs)) as [c|]; [|done].
  match goal with |- context [?set (kv b)] => destruct (set (kv b)) end;
    [|done].
  intros g Hg. discriminate.
Qed.

Lemma Build_uncached (b : builder) :
  cacheValid b -> (Build b).1.1 = scanGraph (kv b).
Proof.
  intros Hb. unfold Build, scanGraph.
  destruct (cachedGraph b) as [g|] eqn:Hcache; simpl; [by apply Hb|].
  by destruct (forItems buildItem (items (kv b)) NewGraph).
Qed.

Lemma cacheValid_Build (b : builder) : cacheValid b -> cacheValid (Build b).2.
Proof.
  intros Hb. unfold Build.
  destruct (cachedGraph b) as [g|] eqn:Hcache; simpl; [done|].
  destruct (forItems buildItem (items (kv b)) NewGraph) as [dg err] eqn:Hscan.
  intros g [= <-]. unfold scanGraph. simpl. by rewrite Hscan.
Qed.
(** *** The contact index *)


(** *** Build and its cache *)

(** C9.  When the scan inside [Build] ends in an error, the graph built
    so far is returned with the error and is installed as the cache all
    the same: the next [Build] returns that graph and no error. *)
Theorem Build_error_installs_cache (b b' : builder) (dg : Graph) err :
  cachedGraph b = None ->
  Build b = ((dg, Some err), b') ->
  cachedGraph b' = Some dg
  /\ kv b' = kv b
  /\ dg = scanGraph (kv b)
  /\ Build b' = ((dg, None), b').
Proof.
  unfold Build, scanGraph. intros ->.
  destruct (forItems buildItem (items (kv b)) NewGraph) as [dg' err'].
  intros [= -> -> <-]. done.
Qed.

(** *** The edges of a built graph *)

Lemma halves_length (k : bytes) :
  length k = 68%nat ->
  length (take 34 k) = 34%nat /\ length (drop 34 k) = 34%nat.
Proof. intros Hk. rewrite length_take, length_drop, Hk. done. Qed.

Lemma graphInv_NewGraph db : graphInv db NewGraph.
Proof. split; intros ? ?; simpl; by rewrite lookup_empty. Qed.

Lemma lookupOrAdd_inv db raw ref dg :
  tfkUnmarshalBinary raw = Ok ref ->
  graphInv db dg ->
  graphInv db (lookupOrAdd raw ref dg).1
  /\ feed (lookupOrAdd raw ref dg).2 = ref.
Proof.
  intros Hraw [Hlookup Hedges]. unfold lookupOrAdd.
  destruct (lookup dg !! raw) as [n|] eqn:Hn; simpl.
  - split; [by split|].
    apply Hlookup in Hn. congruence.
  - split; [|done]. split; [|done].
    intros raw' n'. simpl. rewrite lookup_insert.
    case_decide as Heq; [|by apply Hlookup].
    intros [= <-]. by subst.
Qed.

Lemma buildItem_inv db dg k v :
  db !! k = Some v -> graphInv db dg -> graphInv db (buildItem dg (k, v)).1.
Proof.
  intros Hkv Hinv. unfold buildItem. simpl.
  destruct (length k =? 68)%nat eqn:Hlen; simpl; [|done].
  apply Nat.eqb_eq in Hlen.
  case_bool_decide as Hself; [done|].
  destruct (tfkUnmarshalBinary (take 34 k)) as [from|] eqn:Hfrom; [|done].
  destruct (tfkUnmarshalBinary (drop 34 k)) as [to|] eqn:Hto; [|done].
  destruct (lookupOrAdd_inv db _ _ dg Hfrom Hinv) as [Hinv1 Hfeed1].
  destruct (lookupOrAdd (take 34 k) from dg) as [dg1 nFrom]; simpl in *.
  destruct (lookupOrAdd_inv db _ _ dg1 Hto Hinv1) as [Hinv2 Hfeed2].
  destruct (lookupOrAdd (drop 34 k) to dg1) as [dg2 nTo]; simpl in *.
  destruct (nodeID nFrom =? nodeID nTo) eqn:Hids; [done|].
  apply Z.eqb_neq in Hids.
  destruct (valueWeight v) as [w|]; [|done].
  case_bool_decide; [done|]. simpl.
  destruct Hinv2 as [Hlookup Hedges]. split; [done|].
  intros ids e. simpl. rewrite lookup_insert.
  case_decide; [|by apply Hedges].
  intros [= <-]. exists k, v. simpl. by subst.
Qed.

Lemma scanGraph_inv db : graphInv db (scanGraph db).
Proof.
  apply (forItems_invariant (graphInv db)); [apply graphInv_NewGraph|].
  intros dg [k v] Hin Hdg. apply buildItem_inv; [|done].
  by apply elem_of_items.
Qed.

(** C7.  The graph [Build] returns has no self-loop: no edge joins a node
    to itself, and no edge has the same feed at both ends, whatever the
    store holds. *)
Theorem Build_no_self_loops (b : builder) ids (e : contactEdge) :
  cacheValid b ->
  edges (Build b).1.1 !! ids = Some e ->
  nodeID (F e) <> nodeID (T e) /\ feed (F e) <> feed (T e).
Proof using tfk_canonical.
  intros Hb. rewrite (Build_uncached b Hb). intros He.
  destruct (scanGraph_inv (kv b)) as [_ Hedges].
  destruct (Hedges ids e He) as (k & v & _ & Hlen & Hne & Hfrom & Hto & Hids).
  split; [done|]. intros Hfeed. apply Hne.
  rewrite <- (tfk_canonical _ _ (proj1 (halves_length k Hlen)) Hfrom).
  rewrite <- (tfk_canonical _ _ (proj2 (halves_length k Hlen)) Hto).
  by rewrite Hfeed.
Qed.

(** *** DeleteAuthor *)

Lemma foldl_delete_lookup (db : store) (its : list (bytes * bytes)) k :
  foldl (fun txn it => delete it.1 txn) db its !! k
  = if decide (k ∈ its.*1) then None else db !! k.
Proof.
  revert db. induction its as [|[k' v'] its IH]; intros db.
  { destruct (decide (k ∈ ([] : list (bytes * bytes)).*1)) as [Hin|]; [|done].
    by apply elem_of_nil in Hin. }
  cbn [foldl]. rewrite IH, fmap_cons. cbn [fst].
  destruct (decide (k ∈ its.*1)) as [Hin|Hin],
           (decide (k ∈ k' :: its.*1)) as [Hin'|Hin']; try done.
  - destruct Hin'. by right.
  - apply elem_of_cons in Hin' as [->|?]; [|done]. apply lookup_delete_eq.
  - apply lookup_delete_ne. intros ->. apply Hin'. by left.
Qed.

(** The loop of [DeleteAuthor] goes through when no deletion fails, and
    has then deleted the key of every item it went over. *)
Lemma forItems_deleteItem (txn : Txn) (its : list (bytes * bytes)) (db : store) :
  ((forItems (deleteItem txn) its db).2 = None
   <-> forall it, it ∈ its -> txnDelete txn it.1 = None)
  /\ ((forItems (deleteItem txn) its db).2 = None ->
      (forItems (deleteItem txn) its db).1
      = foldl (fun kv it => delete it.1 kv) db its).
Proof.
  revert db. induction its as [|it its IH]; intros db; cbn [forItems foldl].
  { split; [|done]. split; [|done]. intros _ it Hin.
    by apply elem_of_nil in Hin. }
  unfold deleteItem at 1 3 5. destruct (txnDelete txn it.1) as [err|] eqn:Hit.
  - split; [|done]. split; [done|]. intros Hall.
    rewrite Hall in Hit by left. done.
  - destruct (IH (delete it.1 db)) as [Hnone Hfold]. split; [|exact Hfold].
    rewrite Hnone. split.
    + intros Hall it' Hin. apply elem_of_cons in Hin as [->|Hin]; [done|].
      by apply Hall.
    + intros Hall it' Hin. apply Hall. by right.
Qed.

(** [DeleteAuthor(who)] returns no error exactly when every deletion and
    the commit go through. *)
Lemma DeleteAuthor_succeeds (txn : Txn) (b : builder) who :
  (DeleteAuthor txn b who).1 = None
  <-> (forall it, it ∈ prefixItems (storedFeed who) (kv b) ->
       txnDelete txn it.1 = None)
      /\ txnCommit txn = None.
Proof.
  unfold DeleteAuthor.
  destruct (forItems_deleteItem txn (prefixItems (storedFeed who) (kv b))
              (kv b)) as [Hnone _].
  destruct (forItems _ _ _) as [kv' [err|]]; simpl in *.
  - split; [done|]. intros [Hall _]. by apply Hnone in Hall.
  - destruct (txnCommit txn); split; try done.
    + by intros [_ ?].
    + intros _. split; [by apply Hnone|done].
Qed.

(** A [DeleteAuthor(who)] that returns an error leaves the store as it
    was. *)
Lemma DeleteAuthor_fails (txn : Txn) (b : builder) who :
  (DeleteAuthor txn b who).1 <> None ->
  kv (DeleteAuthor txn b who).2 = kv b.
Proof.
  unfold DeleteAuthor. destruct (forItems _ _ _) as [kv' [err|]]; [done|].
  by destruct (txnCommit txn).
Qed.

(** After a [DeleteAuthor(who)] that returns no error the store has lost
    the keys that start with the stored form of [who], and no other. *)
Lemma DeleteAuthor_lookup (txn : Txn) (b : builder) who k :
  (DeleteAuthor txn b who).1 = None ->
  kv (DeleteAuthor txn b who).2 !! k
  = if decide (storedFeed who `prefix_of` k) then None else kv b !! k.
Proof.
  unfold DeleteAuthor.
  destruct (forItems_deleteItem txn (prefixItems (storedFeed who) (kv b))
              (kv b)) as [_ Hfold].
  destruct (forItems _ _ _) as [kv' [err|]]; [done|].
  destruct (txnCommit txn); [done|]. intros _. simpl in *.
  rewrite (Hfold eq_refl), foldl_delete_lookup.
  destruct (kv b !! k) as [v|] eqn:Hk.
  - repeat case_decide; try done.
    + rename select (k ∈ _) into Hin.
      apply list_elem_of_fmap in Hin as ([k' v'] & -> & Hin).
      apply elem_of_prefixItems in Hin as [? _]. done.
    + rename select (k ∉ _) into Hnin. destruct Hnin.
      apply list_elem_of_fmap. exists (k, v). split; [done|].
      by apply elem_of_prefixItems.
  - by repeat case_decide.
Qed.

(** After a [DeleteAuthor(who)] that returns no error, the graph [Build]
    returns has no edge out of [who]. *)
Lemma DeleteAuthor_no_out_edges (txn : Txn) (b : builder) who ids
    (e : contactEdge) :
  (DeleteAuthor txn b who).1 = None ->
  edges (Build (DeleteAuthor txn b who).2).1.1 !! ids = Some e ->
  feed (F e) <> who.
Proof using tfk_canonical.
  intros Hok.
  rewrite (Build_uncached _ (cacheValid_DeleteAuthor txn b who)). intros He.
  destruct (scanGraph_inv (kv (DeleteAuthor txn b who).2)) as [_ Hedges].
  destruct (Hedges ids e He) as (k & v & Hk & Hlen & _ & Hfrom & _).
  intros <-. rewrite DeleteAuthor_lookup in Hk by done.
  case_decide as Hpre; [done|]. apply Hpre.
  rewrite (tfk_canonical _ _ (proj1 (halves_length k Hlen)) Hfrom).
  apply prefix_take.
Qed.

(** *** Hops *)

Lemma recurseHops_unfold fuel (b : builder) from depth walked vis :
  recurseHops (S fuel) b from depth (walked, vis)
  = if depth =? 0 then Returns (Ok (walked, vis)) else
    if bool_decide (Ref from ∈ vis) then Returns (Ok (walked, vis)) else
    match Follows b from with
    | (_, Some err) =>
        Returns (Fail (ErrWrap "recurseHops: from follow listing failed" err))
    | (fromFollows, None) =>
        andThen
          (forEach
             (hopsRound
                (fun g => recurseHops fuel b g (wrap64 (depth - 1))) b from)
             (listOrder (elements fromFollows)) (walked, vis))
          (fun '(walked, vis) => Returns (Ok (walked, {[Ref from]} ∪ vis)))
    end.
Proof. reflexivity. Qed.

Lemma forEach_collect
    (body : FeedRef -> gset FeedRef * gset string ->
            fueled (result (gset FeedRef * gset string))) lst walked vis :
  (forall g w, g ∈ lst -> body g (w, vis) = Returns (Ok ({[g]} ∪ w, vis))) ->
  forEach body lst (walked, vis)
  = Returns (Ok (list_to_set lst ∪ walked, vis)).
Proof.
  revert walked. induction lst as [|g lst IH]; intros walked Hbody; simpl.
  { by rewrite (left_id_L ∅ (∪)). }
  rewrite Hbody by left. simpl. rewrite IH.
  - do 3 f_equal.
    by rewrite (assoc_L (∪)), (comm_L (∪) _ {[g]}).
  - intros g' w Hin. apply Hbody. by right.
Qed.

(** A loop that comes to a round that fails does not return normally. *)
Lemma forEach_fails {A S} (body : A -> S -> fueled (result S)) lst x s :
  x ∈ lst ->
  (forall s, exists err, body x s = Returns (Fail err)) ->
  forEach body lst s = OutOfFuel
  \/ exists err, forEach body lst s = Returns (Fail err).
Proof.
  intros Hin Hx. revert s.
  induction lst as [|y lst IH]; intros s; [by apply elem_of_nil in Hin|].
  simpl. apply elem_of_cons in Hin as [<-|Hin].
  - destruct (Hx s) as [err ->]. right. by exists err.
  - destruct (body y s) as [[s'|err]|]; simpl; [by apply IH| |by left].
    right. by exists err.
Qed.

Lemma hopsRound_depth0 fuel (b : builder) from g w vis :
  (Follows b g).2 = None ->
  hopsRound (fun g => recurseHops (S fuel) b g 0) b from g (w, vis)
  = Returns (Ok ({[g]} ∪ w, vis)).
Proof.
  unfold hopsRound, AddRef. destruct (Follows b g) as [dst err]. simpl.
  intros ->. by destruct (Has dst from).
Qed.

Lemma hopsRound_fails recur (b : builder) from g st :
  (Follows b g).2 <> None ->
  exists err, hopsRound recur b from g st = Returns (Fail err).
Proof.
  unfold hopsRound, AddRef. destruct st as [w vis].
  destruct (Follows b g) as [dst [err|]]; simpl; [eauto|done].
Qed.

(** C1, as the code has it.  [Hops(from, 0)] returns, and what it returns
    is the set of the feeds [from] follows, whether or not they follow
    back, without [from] itself; or nil, when listing the follows of
    [from] or of one of the feeds it follows fails. *)
Theorem Hops_zero fuel (b : builder) (from : FeedRef) :
  (2 <= fuel)%nat ->
  Hops fuel b from 0
  = Returns
      match Follows b from with
      | (fromFollows, None) =>
          if decide (set_Forall (fun g => (Follows b g).2 = None) fromFollows)
          then Some (fromFollows ∖ {[from]})
          else None
      | (_, Some _) => None
      end.
Proof using listOrder_perm.
  clear storedFeed_length tfk_canonical.
  intros Hfuel. destruct fuel as [|[|fuel]]; [lia|lia|].
  unfold Hops, NewFeedSet, Delete.
  change (wrap64 (0 + 1)) with 1. rewrite recurseHops_unfold.
  change (1 =? 0) with false. cbv iota.
  rewrite bool_decide_eq_false_2 by set_solver.
  destruct (Follows b from) as [fs [err|]]; [done|].
  change (wrap64 (1 - 1)) with 0.
  case_decide as Hall.
  - rewrite forEach_collect.
    + simpl. rewrite listOrder_perm, list_to_set_elements_L.
      by rewrite (right_id_L ∅ (∪)).
    + intros g w Hin. apply hopsRound_depth0, Hall.
      rewrite listOrder_perm in Hin. by apply elem_of_elements.
  - apply not_set_Forall_Exists in Hall as (g & Hg & Hfail); [|apply _].
    edestruct (forEach_fails
                 (hopsRound (fun g => recurseHops (S fuel) b g 0) b from)
                 (listOrder (elements fs)) g (∅, ∅)) as [Hout|[err ->]];
      [by rewrite listOrder_perm, elem_of_elements
      |intros st; by apply hopsRound_fails
      | |done].
    exfalso. revert Hout. generalize (∅ : gset FeedRef).
    generalize (listOrder (elements fs)). intros lst.
    induction lst as [|g' lst IH]; intros w; simpl; [done|].
    unfold hopsRound at 1, AddRef.
    destruct (Follows b g') as [dst [err|]]; [done|].
    destruct (Has dst from); simpl; apply IH.
Qed.

Lemma forEach_returns {A S} (body : A -> S -> fueled (result S)) lst s :
  (forall x s, x ∈ lst -> body x s <> OutOfFuel) ->
  forEach body lst s <> OutOfFuel.
Proof.
  revert s. induction lst as [|x lst IH]; intros s Hbody; [done|].
  simpl. specialize (Hbody x s) as Hx.
  destruct (body x s) as [[s'|err]|]; simpl; [|done|].
  - apply IH. intros y s0 Hin. apply Hbody. by right.
  - apply Hx. left.
Qed.

(** With a bound that is not negative, the recursion ends: a run on more
    fuel than [depth] returns. *)
Lemma recurseHops_returns fuel (b : builder) from depth st :
  0 <= depth <= MaxInt64 ->
  (Z.to_nat depth < fuel)%nat ->
  recurseHops fuel b from depth st <> OutOfFuel.
Proof.
  revert from depth st.
  induction fuel as [|fuel IH]; intros from depth [walked vis] Hdepth Hfuel;
    [lia|].
  rewrite recurseHops_unfold.
  destruct (Z.eqb_spec depth 0) as [|Hnz]; [done|].
  case_bool_decide; [done|].
  destruct (Follows b from) as [fs [err|]]; [done|].
  match goal with |- andThen ?loop _ <> _ =>
    assert (loop <> OutOfFuel) as Hloop; [|by destruct loop as [[[??]|?]|]]
  end.
  apply forEach_returns. intros g [w v] _. unfold hopsRound, AddRef.
  destruct (Follows b g) as [dst [err|]]; [done|].
  destruct (Has dst from); [|done].
  rewrite wrap64_small by (unfold in_int64, MinInt64, MaxInt64 in *; lia).
  apply IH; lia.
Qed.

Lemma forEach_app {A S} (body : A -> S -> fueled (result S)) l1 l2 s :
  forEach body (l1 ++ l2) s = andThen (forEach body l1 s) (forEach body l2).
Proof.
  revert s. induction l1 as [|x l1 IH]; intros s; simpl; [done|].
  destruct (body x s) as [[s'|err]|]; simpl; [apply IH|done|done].
Qed.

(** A loop that returns an error went through the rounds before the one
    that returned it. *)
Lemma forEach_Fail_inv {A S} (body : A -> S -> fueled (result S)) l s err :
  forEach body l s = Returns (Fail err) ->
  exists before x after s',
    l = before ++ x :: after
    /\ forEach body before s = Returns (Ok s')
    /\ body x s' = Returns (Fail err).
Proof.
  revert s. induction l as [|x l IH]; intros s; simpl; [done|].
  destruct (body x s) as [[s'|err']|] eqn:Hx; simpl; [| |done].
  - intros Hrest. apply IH in Hrest as (before & y & after & s'' & -> & Hb & Hy).
    exists (x :: before), y, after, s''. split; [done|]. simpl.
    by rewrite Hx.
  - intros [= ->]. by exists [], x, l, s.
Qed.

(** [recurseHops] returns an error exactly when one of the follow listings
    it asks for fails: no error of [Follows] is dropped on the way up. *)
Lemma recurseHops_Fail_iff fuel (b : builder) from depth st :
  (exists err, recurseHops fuel b from depth st = Returns (Fail err))
  <-> exists g, asksFollows b fuel from depth st g /\ (Follows b g).2 <> None.
Proof.
  split.
  - revert from depth st.
    induction fuel as [|fuel IH]; intros from depth [walked vis] [err Herr];
      [done|].
    rewrite recurseHops_unfold in Herr.
    destruct (Z.eqb_spec depth 0) as [|Hdepth]; [done|].
    case_bool_decide as Hvis; [done|].
    destruct (Follows b from) as [fs [e|]] eqn:Hfrom.
    { exists from. split; [by apply asks_from|]. by rewrite Hfrom. }
    match type of Herr with andThen ?loop _ = _ =>
      destruct loop as [[[w v]|e]|] eqn:Hloop; [done| |done]
    end.
    apply forEach_Fail_inv in Hloop
      as (before & g & after & [walked' vis'] & Hlst & Hbefore & Hg).
    unfold hopsRound, AddRef in Hg.
    destruct (Follows b g) as [dst [e'|]] eqn:Hdst.
    { exists g. split; [|by rewrite Hdst].
      by eapply (asks_entry b fuel from depth walked vis fs). }
    destruct (Has dst from) eqn:Hback; [|done].
    destruct (IH g (wrap64 (depth - 1)) ({[g]} ∪ walked', vis'))
      as (h & Hasks & Hfail); [by exists e|].
    exists h. split; [|done].
    by eapply (asks_friend b fuel from depth walked vis fs _ before g after
                 walked' vis' _ dst h).
  - intros (h & Hasks & Hfail).
    induction Hasks
      as [fuel from depth walked vis Hdepth Hvis
         |fuel from depth walked vis fs lst before g after walked' vis'
            walked'' Hdepth Hvis Hfrom Hlst -> Hbefore Hadd
         |fuel from depth walked vis fs lst before g after walked' vis'
            walked'' dst h Hdepth Hvis Hfrom Hlst -> Hbefore Hadd Hdst Hback
            Hasks IH];
      rewrite recurseHops_unfold;
      (destruct (Z.eqb_spec depth 0) as [|_]; [done|]);
      rewrite bool_decide_eq_false_2 by done.
    + destruct (Follows b from) as [fs [err|]]; [by eexists|done].
    + rewrite Hfrom. injection Hlst as ->.
      rewrite forEach_app, Hbefore. cbn [andThen forEach].
      unfold hopsRound at 1. rewrite Hadd.
      destruct (Follows b g) as [dst [err|]]; [by eexists|done].
    + rewrite Hfrom. injection Hlst as ->.
      rewrite forEach_app, Hbefore. cbn [andThen forEach].
      unfold hopsRound at 1. rewrite Hadd, Hdst, Hback.
      destruct (IH Hfail) as [err ->]. by eexists.
Qed.

(** C10.  [Hops] returns nil exactly when one of the follow listings its
    recursion asks for fails, whatever the bound and however deep in the
    recursion the listing is asked for.  For a bound from [0] up [Hops]
    returns, and it returns nil in particular when listing the follows of
    [from], or of a feed that [from] follows, fails. *)
Theorem Hops_nil_on_failure fuel (b : builder) (from : FeedRef) max :
  (Hops fuel b from max = Returns None
   <-> exists g,
       asksFollows b fuel from (wrap64 (max + 1)) (NewFeedSet, ∅) g
       /\ (Follows b g).2 <> None)
  /\ (0 <= max < MaxInt64 ->
      (Z.to_nat (max + 1) < fuel)%nat ->
      (exists r, Hops fuel b from max = Returns r)
      /\ ((Follows b from).2 <> None
          \/ (exists g, g ∈ (Follows b from).1 /\ (Follows b g).2 <> None) ->
          Hops fuel b from max = Returns None)).
Proof using listOrder_perm.
  clear storedFeed_length tfk_canonical.
  assert (Hops fuel b from max = Returns None
          <-> exists err,
              recurseHops fuel b from (wrap64 (max + 1)) (NewFeedSet, ∅)
              = Returns (Fail err)) as Hnil.
  { unfold Hops.
    destruct (recurseHops fuel b from (wrap64 (max + 1)) (NewFeedSet, ∅))
      as [[[walked vis]|err]|]; split; try done; try by intros [? ?].
    by exists err. }
  split; [by rewrite Hnil, recurseHops_Fail_iff|].
  intros Hmax Hfuel.
  pose proof (recurseHops_returns fuel b from (max + 1) (NewFeedSet, ∅))
    as Hreturns.
  split.
  { unfold Hops.
    rewrite wrap64_small by (unfold in_int64, MinInt64, MaxInt64 in *; lia).
    destruct (recurseHops fuel b from (max + 1) (NewFeedSet, ∅))
      as [[[walked vis]|err]|]; [by eexists|by eexists|].
    destruct Hreturns; [lia|lia|done]. }
  intros Hfail. apply Hnil.
  rewrite wrap64_small by (unfold in_int64, MinInt64, MaxInt64 in *; lia).
  destruct fuel as [|fuel]; [lia|].
  rewrite recurseHops_unfold in *.
  destruct (Z.eqb_spec (max + 1) 0) as [|_]; [lia|].
  rewrite bool_decide_eq_false_2 in * by set_solver.
  destruct (Follows b from) as [fs [err|]]; simpl in *; [by eexists|].
  destruct Hfail as [|(g & Hin & Hg)]; [done|].
  edestruct (forEach_fails
               (hopsRound
                  (fun g => recurseHops fuel b g (wrap64 (max + 1 - 1)))
                  b from)
               (listOrder (elements fs)) g (NewFeedSet, ∅))
    as [Hout|[err Herr]];
    [by rewrite listOrder_perm, elem_of_elements
    |intros st; by apply hopsRound_fails
    | |].
  - destruct Hreturns; [lia|lia|]. by rewrite Hout.
  - rewrite Herr. by eexists.
Qed.
End graph_properties.

(** ** The graph builder on the network of three feeds *)

Lemma Net3_storedFeed_length (r : Net3.peer) : length (storedFeed r) = 34%nat.
Proof. by destruct r. Qed.

Lemma Net3_tfk_canonical raw (r : Net3.peer) :
  length raw = 34%nat -> tfkUnmarshalBinary raw = Ok r -> storedFeed r = raw.
Proof.
  intros _. simpl. unfold Net3.peerUnmarshal.
  repeat case_bool_decide; intros [= <-]; done.
Qed.

Lemma Net3_listOrder_perm (l : list Net3.peer) : listOrder l ≡ₚ l.
Proof. done. Qed.


Lemma Build_error_installs_cache_witness :
  let b := NewBuilder (FeedRef:=Net3.peer) garbageStore in
  let r := Build b in
  r.1.2 = Some (ErrWrap "failed to get value from item"
                  (ErrMsg "barbage value in graph strore"))
  /\ size (edges r.1.1) = 1%nat
  /\ cachedGraph r.2 = Some r.1.1
  /\ kv r.2 = kv b
  /\ r.1.1 = scanGraph (kv b)
  /\ Build r.2 = ((r.1.1, None), r.2).
Proof.
  intros b r. split; [by vm_compute|]. split; [by vm_compute|].
  apply (Build_error_installs_cache b r.2 r.1.1
           (ErrWrap "failed to get value from item"
              (ErrMsg "barbage value in graph strore"))).
  - reflexivity.
  - vm_compute. reflexivity.
Defined.

Lemma Build_no_self_loops_witness :
  map_to_list (edges (Build (NewBuilder selfStore)).1.1)
  = [((0, 1), edgeAliceBob)]
  /\ nodeID (F edgeAliceBob) <> nodeID (T edgeAliceBob)
  /\ feed (F edgeAliceBob) <> feed (T edgeAliceBob).
Proof.
  split; [by vm_compute|].
  apply (Build_no_self_loops Net3_tfk_canonical (NewBuilder selfStore) (0, 1)).
  - intros g Hg. discriminate Hg.
  - vm_compute. reflexivity.
Defined.

(** Against C1 as stated: in scenario 4 Alice follows Carol, Carol does not
    follow back, and [Hops(Alice, 0)] holds Carol all the same. *)
Lemma Hops_zero_lists_one_way_follows :
  (Follows scenario4 Net3.Alice).1 = {[Net3.Carol]}
  /\ mutualFollows scenario4 Net3.Alice = ∅
  /\ Hops 2 scenario4 Net3.Alice 0 = Returns (Some {[Net3.Carol]})
  /\ Hops 2 scenario4 Net3.Alice 0
     <> Returns (Some (mutualFollows scenario4 Net3.Alice ∖ {[Net3.Alice]})).
Proof.
  assert (mutualFollows scenario4 Net3.Alice = ∅) as Hmutual
    by (vm_compute; reflexivity).
  assert (Hops 2 scenario4 Net3.Alice 0 = Returns (Some {[Net3.Carol]}))
    as Hhops by (vm_compute; reflexivity).
  split; [vm_compute; reflexivity|]. split; [exact Hmutual|].
  split; [exact Hhops|].
  rewrite Hhops, Hmutual. intros Heq.
  assert (Net3.Carol ∈ (∅ ∖ {[Net3.Alice]} : gset Net3.peer)) as Hin.
  { replace (∅ ∖ {[Net3.Alice]} : gset Net3.peer) with ({[Net3.Carol]} : gset Net3.peer)
      by congruence.
    by apply elem_of_singleton. }
  apply elem_of_difference in Hin as [Hin _]. by apply not_elem_of_empty in Hin.
Qed.

Lemma Hops_zero_witness :
  (2 <= 2)%nat
  /\ Hops 2 (NewBuilder mutualStore) Net3.Bob 0
     = Returns (Some {[Net3.Alice]}).
Proof.
  split; [lia|].
  refine (eq_trans
            (Hops_zero Net3_listOrder_perm 2 (NewBuilder mutualStore)
               Net3.Bob _) _).
  - lia.
  - vm_compute. reflexivity.
Defined.

(** Alice and Bob are friends, and Bob follows Carol, whose follows cannot
    be listed: the listing is asked for two calls deep, and [Hops(Alice, 1)]
    is nil.  So is [Hops(Bob, 1)] where the follows of Alice, whom Bob
    follows, cannot be listed. *)
Lemma Hops_nil_on_failure_witness :
  let b := NewBuilder deepBrokenStore in
  (Follows b Net3.Alice).2 = None
  /\ (Follows b Net3.Bob).2 = None
  /\ (Follows b Net3.Carol).2 <> None
  /\ Hops 3 b Net3.Alice 1 = Returns None
  /\ Hops 3 (NewBuilder brokenStore) Net3.Bob 1 = Returns None.
Proof.
  intros b.
  assert ((Follows b Net3.Carol).2 <> None) as Hcarol
    by (vm_compute; discriminate).
  split; [vm_compute; reflexivity|]. split; [vm_compute; reflexivity|].
  split; [exact Hcarol|]. split.
  - apply (proj1 (Hops_nil_on_failure Net3_listOrder_perm 3 b Net3.Alice 1)).
    exists Net3.Carol. split; [|exact Hcarol].
    apply (asks_friend b 2 Net3.Alice (wrap64 (1 + 1)) NewFeedSet ∅
             (Follows b Net3.Alice).1 [Net3.Bob] [] Net3.Bob []
             NewFeedSet ∅ ({[Net3.Bob]} ∪ NewFeedSet)
             (Follows b Net3.Bob).1 Net3.Carol);
      try (vm_compute; reflexivity); try apply not_elem_of_empty;
      [vm_compute; discriminate|].
    apply (asks_entry b 1 Net3.Bob (wrap64 (wrap64 (1 + 1) - 1))
             ({[Net3.Bob]} ∪ NewFeedSet) ∅
             (Follows b Net3.Bob).1 [Net3.Carol; Net3.Alice] []
             Net3.Carol [Net3.Alice] ({[Net3.Bob]} ∪ NewFeedSet) ∅
             ({[Net3.Carol]} ∪ ({[Net3.Bob]} ∪ NewFeedSet)));
      try (vm_compute; reflexivity); try apply not_elem_of_empty.
    vm_compute. discriminate.
  - apply (proj2 (Hops_nil_on_failure Net3_listOrder_perm 3
                    (NewBuilder brokenStore) Net3.Bob 1)).
    + unfold MaxInt64. lia.
    + simpl. lia.
    + right. exists Net3.Alice. split; vm_compute; [reflexivity|discriminate].
Defined.

(** ** History streams *)

Lemma wrap64_add_l a b : wrap64 (wrap64 a + b) = wrap64 (a + b).
Proof.
  unfold wrap64. f_equal.
  replace ((a + 2 ^ 63) mod 2 ^ 64 - 2 ^ 63 + b + 2 ^ 63)
    with ((a + 2 ^ 63) mod 2 ^ 64 + b) by lia.
  rewrite Zplus_mod_idemp_l. f_equal. lia.
Qed.

Lemma wrap64_sub_l a b : wrap64 (wrap64 a - b) = wrap64 (a - b).
Proof.
  replace (wrap64 a - b) with (wrap64 a + - b) by lia.
  by rewrite wrap64_add_l.
Qed.


Section gossip_properties.
Context {FeedRef Msg : Type} `{!RefCodec FeedRef} `{!FeedFormat FeedRef}.


Lemma nonliveLimit_min (arg : CreateHistArgs FeedRef) cur :
  0 <= Limit arg ->
  in_int64 (Limit arg) ->
  in_int64 (Seq arg + Limit arg - 1) ->
  in_int64 (cur - Seq arg + 1) ->
  nonliveLimit arg cur = Z.min (Limit arg) (cur - Seq arg + 1).
Proof.
  intros Hpos Hlimit Hlast Hrest. unfold nonliveLimit.
  destruct (Z.eqb_spec (Limit arg) (-1)) as [|_]; [lia|].
  rewrite wrap64_sub_l, (wrap64_small (Seq arg + Limit arg - 1)) by done.
  destruct (Z.ltb_spec cur (Seq arg + Limit arg - 1));
    rewrite wrap64_add_l, wrap64_small; unfold in_int64 in *; lia.
Qed.


(** C3.  A request without [live] whose start, a sequence counted from 1,
    lies past the latest sequence of the feed once it is brought to the
    offsets of the log ([arg.Seq - 1 > latest]): the sink is closed, no
    frame is written, the feed manager is left as it was, and the error
    returned is the one of closing the sink. *)
Theorem CreateStreamHistory_past_end (env : Env Msg) (m : FeedManager)
    (sink : ByteSink Msg) (arg : CreateHistArgs FeedRef) id userLog latest :
  ID arg = Some id ->
  userFeedsGet env (storedFeed id) = Ok userLog ->
  getLatestSeq userLog = Ok latest ->
  1 <= Seq arg <= MaxInt64 ->
  Live arg = false ->
  latest < Seq arg - 1 ->
  CreateStreamHistory env m sink arg
  = (match closeErr env with
     | Some err => Some (ErrWrap "pour: failed to close" err)
     | None => None
     end, m, {| frames := frames sink; closed := true |}).
Proof.
  intros Hid Hlog Hlatest Hseq Hlive Hpast. unfold CreateStreamHistory.
  rewrite Hid, Hlog, Hlatest.
  destruct (Z.eqb_spec (Seq arg) 0) as [|_]; [lia|]. simpl.
  rewrite wrap64_small by (unfold in_int64, MinInt64, MaxInt64 in *; lia).
  destruct (Z.ltb_spec latest (Seq arg - 1)) as [_|]; [|lia].
  by rewrite Hlive.
Qed.



(** The path after the past-end branch, for a live request with the limit
    [0]: the limit becomes [-1] before the historical phase, and the live
    registration that follows it is unbounded. *)
Lemma CreateStreamHistory_live_limit0 (env : Env Msg) (m : FeedManager)
    (sink : ByteSink Msg) (arg : CreateHistArgs FeedRef) latest :
  Live arg = true -> Limit arg = 0 ->
  let arg' := if Live arg && (Limit arg =? 0) then setLimit (-1) arg else arg in
  nonliveLimit arg' latest = -1
  /\ liveLimit arg' latest = -1
  /\ forall ssbID,
      exists ms,
        liveFeeds (addLiveFeed m sink ssbID latest (liveLimit arg' latest)).1.2
          !! ssbID = Some ms
        /\ (consumers ms = consumers (default (NewMultiSink latest)
                                        (liveFeeds m !! ssbID))
                           ++ [MaxInt64]
            \/ MaxInt64 <= broadcastSeq ms).
Proof.
  intros -> ->. simpl. split; [done|]. split; [done|].
  intros ssbID. unfold addLiveFeed, liveLimit, Register. simpl.
  destruct (liveFeeds m !! ssbID) as [ms|]; simpl.
  - destruct (Z.leb_spec MaxInt64 (broadcastSeq ms)); simpl;
      rewrite lookup_insert_eq; eexists; (split; [done|]); auto.
  - destruct (Z.leb_spec MaxInt64 latest); simpl;
      rewrite lookup_insert_eq; eexists; (split; [done|]); auto.
Qed.

(** C8, where the code departs from it.  A live request with the limit [0]
    whose start lies past the latest sequence returns from the past-end
    branch, before the limit [0] is turned into [-1]: the live registration
    gets the limit [arg.Seq - 2 - latest], which is not negative, in place
    of [-1]. *)
Theorem CreateStreamHistory_live_limit0_past_end (env : Env Msg)
    (m : FeedManager) (sink : ByteSink Msg) (arg : CreateHistArgs FeedRef)
    id userLog latest :
  ID arg = Some id ->
  userFeedsGet env (storedFeed id) = Ok userLog ->
  getLatestSeq userLog = Ok latest ->
  1 <= Seq arg <= MaxInt64 ->
  0 <= latest ->
  Live arg = true ->
  Limit arg = 0 ->
  latest < Seq arg - 1 ->
  0 <= Seq arg - 2 - latest
  /\ CreateStreamHistory env m sink arg
     = addLiveFeed m sink (Ref id) latest (Seq arg - 2 - latest).
Proof.
  intros Hid Hlog Hlatest Hseq Hpos Hlive Hlimit Hpast. split; [lia|].
  unfold CreateStreamHistory. rewrite Hid, Hlog, Hlatest.
  destruct (Z.eqb_spec (Seq arg) 0) as [|_]; [lia|]. simpl.
  rewrite wrap64_small by (unfold in_int64, MinInt64, MaxInt64 in *; lia).
  destruct (Z.ltb_spec latest (Seq arg - 1)) as [_|]; [|lia].
  rewrite Hlive. f_equal. unfold liveLimit. simpl. rewrite Hlimit.
  change (0 =? -1) with false. cbv iota.
  rewrite Z.add_0_r, wrap64_sub_l, wrap64_sub_l.
  unfold MaxInt64 in *.
  rewrite (wrap64_small (Seq arg - 1 - 1))
    by (unfold in_int64, MinInt64, MaxInt64; lia).
  destruct (Z.ltb_spec (Seq arg - 1 - 1) latest); [lia|].
  rewrite (wrap64_small (latest + 1))
    by (unfold in_int64, MinInt64, MaxInt64; lia).
  rewrite wrap64_add_l, wrap64_small; [lia|].
  unfold in_int64, MinInt64, MaxInt64; lia.
Qed.
End gossip_properties.

(** ** Message verification *)

Section verify_properties.
Context {FeedRef : Type} `{!VerifyDeps FeedRef}.

(** C6, as the code has it.  For a raw message that decodes, has the hash
    [sha256] and a content that is a JSON object with the type field
    [type]: [Verify] fails when the length of [type] (in bytes) is below 3
    or above 53, and the check of the content passes for every length from
    3 to 53. *)
Theorem Verify_type_length (raw : bytes) (hmacSecret : option bytes) enc
    (dmsg : DeserializedMessage FeedRef) (type : string) :
  EncodePreserveOrder raw = Ok enc ->
  unmarshalMessage raw = Ok dmsg ->
  Hash dmsg = "sha256"%string ->
  head (Content dmsg) = Some "{"%byte ->
  unmarshalTyped (Content dmsg) = Ok type ->
  ((String.length type < 3 \/ 53 < String.length type)%nat ->
   Verify raw hmacSecret
   = Fail (ErrMsg "ssb Verify: scuttlebutt v1 requires a type field"))
  /\ ((3 <= String.length type <= 53)%nat ->
      checkContent (Content dmsg) = None).
Proof.
  intros Henc Hmsg Hhash Hobject Htype.
  assert (checkContent (Content dmsg)
          = if ((String.length type <? 3) || (53 <? String.length type))%nat
            then Some (ErrMsg "ssb Verify: scuttlebutt v1 requires a type field")
            else None) as Hcheck.
  { unfold checkContent. rewrite Htype.
    destruct (Content dmsg) as [|c content]; [done|].
    injection Hobject as ->. by rewrite bool_decide_eq_true_2. }
  split.
  - intros Hlen. unfold Verify. rewrite Henc, Hmsg, Hhash, Hcheck.
    rewrite bool_decide_eq_true_2 by done. simpl.
    destruct (Content dmsg) as [|c content]; [done|]. simpl.
    destruct (Nat.ltb_spec (String.length type) 3),
             (Nat.ltb_spec 53 (String.length type)); simpl; try done; lia.
  - intros Hlen. rewrite Hcheck.
    destruct (Nat.ltb_spec (String.length type) 3),
             (Nat.ltb_spec 53 (String.length type)); simpl; try done; lia.
Qed.
End verify_properties.

(** ** History streams and verification on the network of three feeds *)

(** Two messages, a request without [live] that starts at sequence 10. *)
Lemma CreateStreamHistory_past_end_witness :
  CreateStreamHistory (feedEnv ["m1"; "m2"]%string) idleManager openSink
    (request 10 (-1) false)
  = (None, idleManager, {| frames := []; closed := true |}).
Proof.
  apply (CreateStreamHistory_past_end (feedEnv ["m1"; "m2"]%string)
           idleManager openSink (request 10 (-1) false) Net3.Alice
           (listLog ["m1"; "m2"]%string) 1).
  - reflexivity.
  - reflexivity.
  - reflexivity.
  - simpl. unfold MaxInt64. lia.
  - reflexivity.
  - simpl. lia.
Defined.



(** Two messages (latest sequence 1) and the live request (seq=10,
    limit=0): the registration is served up to sequence 8. *)
Lemma CreateStreamHistory_live_limit0_past_end_witness :
  let out := CreateStreamHistory (feedEnv ["m1"; "m2"]%string) idleManager
               openSink (request 10 0 true) in
  out = addLiveFeed idleManager openSink "@alice.ed25519" 1 7
  /\ liveFeeds out.1.2 !! "@alice.ed25519"%string
     = Some {| broadcastSeq := 1; consumers := [8] |}.
Proof.
  split; [|by vm_compute].
  refine (proj2 (CreateStreamHistory_live_limit0_past_end
                   (feedEnv ["m1"; "m2"]%string) idleManager openSink
                   (request 10 0 true) Net3.Alice
                   (listLog ["m1"; "m2"]%string) 1 _ _ _ _ _ _ _ _));
    try reflexivity; simpl; unfold MaxInt64; lia.
Defined.

(** The same request from sequence 1 on goes through the historical phase
    and is registered without bound. *)
Lemma CreateStreamHistory_live_limit0_run :
  liveFeeds (CreateStreamHistory (feedEnv ["m1"; "m2"]%string) idleManager
               openSink (request 1 0 true)).1.2 !! "@alice.ed25519"%string
  = Some {| broadcastSeq := 1; consumers := [MaxInt64] |}.
Proof. by vm_compute. Qed.

Lemma Verify_type_length_witness :
  Verify (FeedRef:=Net3.peer) (typedMessage "ab") None
  = Fail (ErrMsg "ssb Verify: scuttlebutt v1 requires a type field")
  /\ checkContent (FeedRef:=Net3.peer) (typedMessage "post") = None.
Proof.
  split.
  - apply (Verify_type_length (typedMessage "ab") None (typedMessage "ab")
             (mkDeserialized Net3.Alice 1 "sha256" (typedMessage "ab")) "ab");
      try reflexivity. left. simpl. lia.
  - apply (Verify_type_length (typedMessage "post") None (typedMessage "post")
             (mkDeserialized Net3.Alice 1 "sha256" (typedMessage "post"))
             "post"); try reflexivity. simpl. lia.
Defined.

(** Against C6 as stated: a type of 53 bytes is outside 3..52, and [Verify]
    does not fail on it. *)
Lemma Verify_accepts_type_of_53_bytes :
  unmarshalTyped (FeedRef:=Net3.peer) (typedMessage type53) = Ok type53
  /\ String.length type53 = 53%nat
  /\ Verify (typedMessage type53) None
     = Ok ({| RefHash := typedMessage type53; RefAlgoName := "sha256" |},
           mkDeserialized Net3.Alice 1 "sha256" (typedMessage type53)).
Proof. by vm_compute. Qed.

(** * Further properties *)

(** ** The items of a store *)

Lemma NoDup_items_keys (kv : store) : NoDup (items kv).*1.
Proof.
  unfold items. rewrite merge_sort_Permutation. apply NoDup_fst_map_to_list.
Qed.

Lemma NoDup_items (kv : store) : NoDup (items kv).
Proof.
  unfold items. rewrite merge_sort_Permutation. apply NoDup_map_to_list.
Qed.

Lemma StronglySorted_filter {A} (R : relation A) (P : A -> Prop)
    `{forall x, Decision (P x)} l :
  StronglySorted R l -> StronglySorted R (filter P l).
Proof.
  induction 1 as [|x l Hl IH Hx]; [constructor|].
  rewrite filter_cons. case_decide; [|done].
  constructor; [done|].
  apply Forall_forall. intros y Hy. apply list_elem_of_filter in Hy as [_ Hy].
  by eapply Forall_forall in Hx.
Qed.

(** A store that holds the part of [kv] whose keys meet [P] is iterated
    like [kv], with the other items left out. *)
Lemma items_restrict (P : bytes -> Prop) `{forall k, Decision (P k)}
    (kv kv' : store) :
  (forall k v, kv' !! k = Some v <-> kv !! k = Some v /\ P k) ->
  items kv' = filter (fun it => P it.1) (items kv).
Proof.
  intros Hkv'. apply (StronglySorted_unique_strong item_le).
  - intros [k1 v1] [k2 v2] H1 H2 Hle1 Hle2.
    apply elem_of_items, Hkv' in H1 as [H1 _].
    apply list_elem_of_filter in H2 as [_ H2]. apply elem_of_items in H2.
    unfold item_le in *. simpl in *.
    assert (k1 = k2) as -> by by apply bytes_leb_antisym.
    congruence.
  - apply items_sorted.
  - apply StronglySorted_filter, items_sorted.
  - apply NoDup_Permutation; [apply NoDup_items|apply NoDup_filter, NoDup_items|].
    intros [k v]. rewrite list_elem_of_filter, !elem_of_items, Hkv'. simpl.
    tauto.
Qed.

(** ** The scan of Build *)

Lemma forItems_steps {S} (P : list (bytes * bytes) -> S -> Prop)
    (body : S -> bytes * bytes -> S * option error) done rest s :
  P done s ->
  (forall d it r s,
      done ++ rest = d ++ it :: r -> P d s -> (body s it).2 = None ->
      P (d ++ [it]) (body s it).1) ->
  (forItems body rest s).2 = None ->
  P (done ++ rest) (forItems body rest s).1.
Proof.
  revert done s. induction rest as [|it rest IH]; intros done s Hs Hstep Hok.
  { by rewrite app_nil_r. }
  simpl in *. pose proof (Hstep done it rest s eq_refl Hs) as Hit.
  destruct (body s it) as [s' [err|]]; simpl in *; [done|].
  rewrite (cons_middle it done rest), (assoc_L (++)).
  apply IH; [by apply Hit| |done].
  intros d it' r s0 Heq. apply (Hstep d it' r).
  by rewrite <- Heq, <- (assoc_L (++)).
Qed.

Section scan_properties.
Context {FeedRef : Type} `{!RefCodec FeedRef}.
Implicit Types (dg : Graph (FeedRef:=FeedRef)).
Implicit Types (e : contactEdge (FeedRef:=FeedRef)).
Implicit Types (n : contactNode (FeedRef:=FeedRef)).

Lemma nodesInv_NewGraph : nodesInv (NewGraph (FeedRef:=FeedRef)).
Proof.
  split; [|split]; simpl.
  - intros id. rewrite lookup_empty, map_size_empty. split; [by intros []|lia].
  - intros raw n. by rewrite lookup_empty.
  - intros r1 r2 n1 n2. by rewrite lookup_empty.
Qed.

Lemma lookupOrAdd_nodesInv raw ref dg :
  tfkUnmarshalBinary raw = Ok ref ->
  nodesInv dg ->
  nodesInv (lookupOrAdd raw ref dg).1
  /\ lookup (lookupOrAdd raw ref dg).1 !! raw = Some (lookupOrAdd raw ref dg).2
  /\ edges (lookupOrAdd raw ref dg).1 = edges dg
  /\ (forall r m, lookup dg !! r = Some m ->
                  lookup (lookupOrAdd raw ref dg).1 !! r = Some m).
Proof.
  intros Hraw (Hids & Hnodes & Hinj). unfold lookupOrAdd.
  destruct (lookup dg !! raw) as [n|] eqn:Hn; simpl; [done|].
  assert (nodes dg !! NewNode dg = None) as Hfresh.
  { apply eq_None_not_Some. rewrite Hids. unfold NewNode. lia. }
  split; [|split; [|split]]; simpl;
    [|apply lookup_insert_eq|done|].
  - unfold nodesInv. simpl. split; [|split].
    + intros id. rewrite (map_size_insert_None _ _ _ Hfresh).
      rewrite lookup_insert. unfold NewNode in *.
      case_decide; [split; [lia|by eexists]|].
      rewrite Hids. lia.
    + intros r m. rewrite lookup_insert. case_decide as Hr.
      * intros [= <-]. simpl. split; [apply lookup_insert_eq|by subst].
      * intros Hm. destruct (Hnodes r m Hm) as [Hnode Hdec]. split; [|done].
        rewrite lookup_insert_ne; [done|]. intros Heq.
        rewrite <- Heq in Hnode. congruence.
    + assert (forall r m, lookup dg !! r = Some m ->
                          nodeID m <> NewNode dg) as Hold.
      { intros r m Hm Heq. destruct (Hnodes r m Hm) as [Hnode _].
        rewrite Heq in Hnode. congruence. }
      intros r1 r2 n1 n2. rewrite !lookup_insert.
      repeat case_decide; subst; try done.
      * intros [= <-] Hm Heq. simpl in Heq. symmetry in Heq.
        by apply Hold in Hm.
      * intros Hm [= <-] Heq. simpl in Heq. by apply Hold in Hm.
      * apply Hinj.
  - intros r m Hm. rewrite lookup_insert_ne; [done|]. congruence.
Qed.

Lemma edgeFor_mono dg dg' k v e :
  (forall r m, lookup dg !! r = Some m -> lookup dg' !! r = Some m) ->
  edgeFor dg k v e -> edgeFor dg' k v e.
Proof.
  intros Hmono (Hlen & Hne & Hfrom & Hto & Hrest).
  repeat split; try tauto; by apply Hmono.
Qed.

Lemma SetWeightedEdge_nodes dg e :
  nodes dg !! nodeID (F e) = Some (F e) ->
  nodes dg !! nodeID (T e) = Some (T e) ->
  nodes (SetWeightedEdge e dg) = nodes dg.
Proof.
  intros HF HT. simpl. rewrite (insert_id _ _ _ HF). by apply insert_id.
Qed.

(** What one round of the scan does to the graph, by the item it reads. *)
Lemma buildItem_spec dg k v :
  nodesInv dg ->
  let out := buildItem dg (k, v) in
  (forall r m, lookup dg !! r = Some m -> lookup out.1 !! r = Some m)
  /\ nodesInv out.1
  /\ (edges out.1 = edges dg
       /\ (out.2 = None ->
            length k <> 68%nat \/ take 34 k = drop 34 k
            \/ valueWeight v = Ok NegInf)
      \/ exists e,
           out.2 = None
           /\ edges out.1 = <[(nodeID (F e), nodeID (T e)) := e]> (edges dg)
           /\ edgeFor out.1 k v e).
Proof.
  intros Hinv. unfold buildItem. simpl.
  destruct (Nat.eqb_spec (length k) 68) as [Hlen|Hlen]; simpl;
    [|split; [done|split; [done|left; split; [done|by left]]]].
  case_bool_decide as Hself;
    [split; [done|split; [done|left; split; [done|by right; left]]]|].
  destruct (tfkUnmarshalBinary (take 34 k)) as [from|] eqn:Hfrom;
    [|split; [done|split; [done|by left]]].
  destruct (tfkUnmarshalBinary (drop 34 k)) as [to|] eqn:Hto;
    [|split; [done|split; [done|by left]]].
  destruct (lookupOrAdd_nodesInv _ _ dg Hfrom Hinv)
    as (Hinv1 & Hn1 & He1 & Hmono1).
  destruct (lookupOrAdd (take 34 k) from dg) as [dg1 nFrom]; simpl in *.
  destruct (lookupOrAdd_nodesInv _ _ dg1 Hto Hinv1)
    as (Hinv2 & Hn2 & He2 & Hmono2).
  destruct (lookupOrAdd (drop 34 k) to dg1) as [dg2 nTo]; simpl in *.
  assert (forall r m, lookup dg !! r = Some m -> lookup dg2 !! r = Some m)
    as Hmono by auto.
  apply Hmono2 in Hn1.
  destruct (Z.eqb_spec (nodeID nFrom) (nodeID nTo)) as [Hids|Hids].
  { destruct Hinv2 as (_ & _ & Hinj). destruct Hself. by eapply Hinj. }
  destruct (valueWeight v) as [w|err] eqn:Hw;
    [|split; [done|split; [done|left; split; [simpl; congruence|done]]]].
  case_bool_decide as Hneg; simpl.
  { split; [done|split; [done|left; split; [simpl; congruence|]]].
    intros _. right; right. by subst. }
  destruct Hinv2 as (Hdom & Hnodes & Hinj).
  set (e := {| F := nFrom; T := nTo; W := w;
               isBlock := bool_decide (w = PosInf) |}).
  assert (nodes (SetWeightedEdge e dg2) = nodes dg2) as Hsame.
  { apply SetWeightedEdge_nodes; [by apply (Hnodes _ _ Hn1)|by apply (Hnodes _ _ Hn2)]. }
  split; [done|]. split.
  { unfold nodesInv. rewrite Hsame. done. }
  right. exists e. split; [done|]. split; [simpl; congruence|].
  unfold edgeFor. simpl. done.
Qed.

Lemma soundInv_NewGraph db : soundInv db NewGraph.
Proof. split; [apply nodesInv_NewGraph|]. intros ids e. simpl. by rewrite lookup_empty. Qed.

Lemma buildItem_soundInv db dg k v :
  db !! k = Some v -> soundInv db dg -> soundInv db (buildItem dg (k, v)).1.
Proof.
  intros Hkv [Hnodes Hedges].
  destruct (buildItem_spec dg k v Hnodes) as (Hmono & Hnodes' & Hcase).
  split; [done|]. intros ids e' He'.
  destruct Hcase as [[Hsame _]|(e & _ & Hins & Hfor)].
  - rewrite Hsame in He'. destruct (Hedges ids e' He') as (-> & k0 & v0 & ? & ?).
    split; [done|]. exists k0, v0. split; [done|]. by eapply edgeFor_mono.
  - rewrite Hins, lookup_insert in He'. case_decide as Hids.
    + injection He' as <-. split; [done|]. by exists k, v.
    + destruct (Hedges ids e' He') as (-> & k0 & v0 & ? & ?).
      split; [done|]. exists k0, v0. split; [done|]. by eapply edgeFor_mono.
Qed.

Lemma scanGraph_sound db : soundInv db (scanGraph db).
Proof.
  apply (forItems_invariant (soundInv db)); [apply soundInv_NewGraph|].
  intros dg [k v] Hin Hdg. apply buildItem_soundInv; [|done].
  by apply elem_of_items.
Qed.

Lemma halves_eq (k k' : bytes) :
  take 34 k = take 34 k' -> drop 34 k = drop 34 k' -> k = k'.
Proof.
  intros Htake Hdrop.
  by rewrite <- (take_drop 34 k), <- (take_drop 34 k'), Htake, Hdrop.
Qed.

Lemma buildItem_completeInv db done dg k v :
  soundInv db dg -> completeInv done dg -> k ∉ done.*1 ->
  (buildItem dg (k, v)).2 = None ->
  completeInv (done ++ [(k, v)]) (buildItem dg (k, v)).1.
Proof.
  intros [Hnodes Hedges] Hdone Hfresh Hok.
  destruct (buildItem_spec dg k v Hnodes) as (Hmono & Hnodes' & Hcase).
  intros k0 v0 w Hin Hlen Hne Hw Hneg.
  apply elem_of_app in Hin as [Hin|Hin].
  - destruct (Hdone k0 v0 w Hin Hlen Hne Hw Hneg) as (e0 & He0 & Hfor0).
    pose proof (edgeFor_mono _ _ _ _ _ Hmono Hfor0) as Hfor0'.
    exists e0. split; [|done].
    destruct Hcase as [[-> _]|(e & _ & -> & Hfor)]; [done|].
    rewrite lookup_insert_ne; [done|]. intros [= HF HT].
    destruct Hnodes' as (_ & _ & Hinj).
    destruct Hfor as (_ & _ & HeF & HeT & _).
    destruct Hfor0' as (_ & _ & He0F & He0T & _).
    apply Hfresh, list_elem_of_fmap. exists (k0, v0). split; [|done].
    simpl. apply halves_eq; by eapply Hinj.
  - apply list_elem_of_singleton in Hin as [= -> ->].
    destruct Hcase as [[_ Hskip]|(e & _ & -> & Hfor)].
    + destruct (Hskip Hok) as [?|[?|?]]; [done|done|congruence].
    + exists e. split; [apply lookup_insert_eq|done].
Qed.

Lemma scanGraph_complete db :
  scanError db = None -> completeInv (items db) (scanGraph db).
Proof.
  intros Hok.
  apply (forItems_steps
           (fun done dg => soundInv db dg /\ completeInv done dg)
           buildItem [] (items db) NewGraph); [| |done].
  - split; [apply soundInv_NewGraph|]. intros k v w Hin.
    by apply elem_of_nil in Hin.
  - intros d [k v] r dg Hitems [Hsound Hdone] Hstep. simpl in Hitems.
    assert (db !! k = Some v) as Hkv.
    { apply elem_of_items. rewrite Hitems. set_solver. }
    split; [by apply buildItem_soundInv|].
    apply (buildItem_completeInv db); [done|done| |done].
    pose proof (NoDup_items_keys db) as Hnodup.
    rewrite Hitems, fmap_app, fmap_cons in Hnodup.
    apply NoDup_app in Hnodup as (_ & Hdisj & _).
    intros Hin. apply (Hdisj k Hin). by left.
Qed.
End scan_properties.

(** ** The graph of Build and the store *)

Lemma valueWeight_Ok (v : bytes) w :
  valueWeight v = Ok w ->
  w <> NegInf ->
  (w = One /\ head v = Some "1"%byte) \/ (w = PosInf /\ head v = Some "2"%byte).
Proof.
  destruct v as [|c v]; simpl; [by intros [= <-]|].
  repeat case_bool_decide; intros [= <-]; subst; auto; done.
Qed.

Lemma valueWeight_head (v : bytes) :
  (head v = Some "1"%byte -> valueWeight v = Ok One)
  /\ (head v = Some "2"%byte -> valueWeight v = Ok PosInf).
Proof. destruct v as [|c v]; simpl; split; intros [= ->]; done. Qed.

Lemma forItems_no_error {S} (body : S -> bytes * bytes -> S * option error)
    its s :
  (forall s it, it ∈ its -> (body s it).2 = None) ->
  (forItems body its s).2 = None.
Proof.
  revert s. induction its as [|it its IH]; intros s Hbody; [done|].
  simpl. pose proof (Hbody s it) as Hit.
  destruct (body s it) as [s' [err|]]; simpl in *.
  - apply Hit. left.
  - apply IH. intros s0 it0 Hin. apply Hbody. by right.
Qed.

Section build_properties.
Context {FeedRef : Type} `{!RefCodec FeedRef}.

(** The stored form of a feed reference takes 34 bytes. *)
Hypothesis storedFeed_length :
  forall r : FeedRef, length (storedFeed r) = 34%nat.

(** The stored form of a feed reference decodes to it. *)
Hypothesis tfk_roundtrip :
  forall r : FeedRef, tfkUnmarshalBinary (storedFeed r) = Ok r.

(** A stored reference of 34 bytes that decodes to [r] is the stored form
    of [r]. *)
Hypothesis tfk_canonical :
  forall raw (r : FeedRef),
    length raw = 34%nat -> tfkUnmarshalBinary raw = Ok r -> storedFeed r = raw.

Set Default Proof Using "Type".

(** X1.  Every edge of the graph [Build] returns comes from an item of the
    store: a 68-byte key whose two halves differ and decode to the feeds at
    its ends, with a value that starts with ['1'] for an edge of weight 1
    and block flag unset, or with ['2'] for an edge of weight +Inf and
    block flag set.  The edge is filed under the IDs of its ends. *)
Theorem Build_edge_sound (b : builder) ids (e : contactEdge) :
  cacheValid b ->
  edges (Build b).1.1 !! ids = Some e ->
  ids = (nodeID (F e), nodeID (T e))
  /\ exists k v,
      kv b !! k = Some v
      /\ length k = 68%nat
      /\ take 34 k <> drop 34 k
      /\ tfkUnmarshalBinary (take 34 k) = Ok (feed (F e))
      /\ tfkUnmarshalBinary (drop 34 k) = Ok (feed (T e))
      /\ ((W e = One /\ isBlock e = false /\ head v = Some "1"%byte)
          \/ (W e = PosInf /\ isBlock e = true /\ head v = Some "2"%byte)).
Proof.
  intros Hb He. rewrite Build_uncached in He by done.
  destruct (scanGraph_sound (kv b)) as [(_ & Hnodes & _) Hedges].
  destruct (Hedges ids e He)
    as (Hids & k & v & Hkv & Hlen & Hne & HF & HT & Hw & Hneg & Hblk).
  split; [done|]. exists k, v. repeat split; try done.
  - by apply (Hnodes _ _ HF).
  - by apply (Hnodes _ _ HT).
  - destruct (valueWeight_Ok v (W e) Hw Hneg) as [[HW ?]|[HW ?]];
      rewrite HW in Hblk; [left|right]; by rewrite Hblk.
Qed.

(** X2.  When the scan of the store ends without error, every 68-byte key
    whose two halves differ and whose value starts with ['1'] or ['2'] has
    its edge in the graph [Build] returns: between the feeds its halves
    decode to, of weight 1 for ['1'] and +Inf with the block flag for
    ['2']. *)
Theorem Build_edge_complete (b : builder) (k v : bytes) :
  cacheValid b ->
  scanError (kv b) = None ->
  kv b !! k = Some v ->
  length k = 68%nat ->
  take 34 k <> drop 34 k ->
  head v = Some "1"%byte \/ head v = Some "2"%byte ->
  exists e,
    edges (Build b).1.1 !! (nodeID (F e), nodeID (T e)) = Some e
    /\ tfkUnmarshalBinary (take 34 k) = Ok (feed (F e))
    /\ tfkUnmarshalBinary (drop 34 k) = Ok (feed (T e))
    /\ W e = (if bool_decide (head v = Some "1"%byte) then One else PosInf)
    /\ isBlock e = bool_decide (head v = Some "2"%byte).
Proof.
  intros Hb Hok Hkv Hlen Hne Hv. rewrite Build_uncached by done.
  destruct (scanGraph_sound (kv b)) as [(_ & Hnodes & _) _].
  pose proof (scanGraph_complete (kv b) Hok) as Hcomplete.
  apply elem_of_items in Hkv.
  destruct (valueWeight_head v) as [Hone Hinf].
  assert (exists w, valueWeight v = Ok w /\ w <> NegInf
                    /\ w = (if bool_decide (head v = Some "1"%byte)
                            then One else PosInf)
                    /\ bool_decide (w = PosInf)
                       = bool_decide (head v = Some "2"%byte))
    as (w & Hw & Hneg & Hweight & Hblock).
  { destruct Hv as [Hv|Hv]; rewrite Hv.
    - exists One. by rewrite Hone.
    - exists PosInf. by rewrite Hinf. }
  destruct (Hcomplete k v w Hkv Hlen Hne Hw Hneg)
    as (e & He & _ & _ & HF & HT & Hw' & _ & Hblk).
  exists e. split; [done|].
  assert (W e = w) as HW by congruence.
  split; [by apply (Hnodes _ _ HF)|]. split; [by apply (Hnodes _ _ HT)|].
  split; [congruence|]. by rewrite Hblk, HW.
Qed.

(** X3.  The graph [Build] returns has at most one edge from one feed to
    another. *)
Theorem Build_one_edge_per_pair (b : builder) ids1 ids2
    (e1 e2 : contactEdge) :
  cacheValid b ->
  edges (Build b).1.1 !! ids1 = Some e1 ->
  edges (Build b).1.1 !! ids2 = Some e2 ->
  feed (F e1) = feed (F e2) ->
  feed (T e1) = feed (T e2) ->
  ids1 = ids2 /\ e1 = e2.
Proof using tfk_canonical.
  clear storedFeed_length tfk_roundtrip.
  intros Hb He1 He2 HF HT. rewrite Build_uncached in He1, He2 by done.
  destruct (scanGraph_sound (kv b)) as [(_ & Hnodes & _) Hedges].
  destruct (Hedges ids1 e1 He1)
    as (Hids1 & k1 & v1 & _ & Hlen1 & _ & HF1 & HT1 & _).
  destruct (Hedges ids2 e2 He2)
    as (Hids2 & k2 & v2 & _ & Hlen2 & _ & HF2 & HT2 & _).
  assert (take 34 k1 = take 34 k2) as Htake.
  { rewrite <- (tfk_canonical _ (feed (F e1)) (proj1 (halves_length k1 Hlen1)))
      by by apply (Hnodes _ _ HF1).
    rewrite HF. apply tfk_canonical; [by apply halves_length|].
    by apply (Hnodes _ _ HF2). }
  assert (drop 34 k1 = drop 34 k2) as Hdrop.
  { rewrite <- (tfk_canonical _ (feed (T e1)) (proj2 (halves_length k1 Hlen1)))
      by by apply (Hnodes _ _ HT1).
    rewrite HT. apply tfk_canonical; [by apply halves_length|].
    by apply (Hnodes _ _ HT2). }
  assert (ids1 = ids2) as <-.
  { rewrite Hids1, Hids2. rewrite Htake in HF1. rewrite Hdrop in HT1.
    congruence. }
  split; [done|]. congruence.
Qed.
End build_properties.

(** ** Follows and the store *)

Section follows_properties.
Context {FeedRef : Type} `{Countable FeedRef} `{!RefCodec FeedRef}.

Lemma forItems_followsItem (its : list (bytes * bytes)) (fs : gset FeedRef) :
  let out := forItems followsItem its fs in
  (forall g, g ∈ fs -> g ∈ out.1)
  /\ (forall g,
         g ∈ out.1 ->
         g ∈ fs
         \/ exists k v,
             (k, v) ∈ its /\ head v = Some "1"%byte
             /\ tfkUnmarshalBinary (drop 34 k) = Ok g)
  /\ (out.2 = None ->
      forall k v g,
        (k, v) ∈ its -> head v = Some "1"%byte ->
        tfkUnmarshalBinary (drop 34 k) = Ok g -> g ∈ out.1).
Proof.
  revert fs. induction its as [|[k v] its IH]; intros fs; simpl.
  { split; [done|]. split; [by left|]. intros _ k v g Hin.
    by apply elem_of_nil in Hin. }
  assert (forall fs' : gset FeedRef,
    (forall g, g ∈ fs' <-> g ∈ fs
       \/ (head v = Some "1"%byte /\ tfkUnmarshalBinary (drop 34 k) = Ok g)) ->
    let out := forItems followsItem its fs' in
    (forall g, g ∈ fs -> g ∈ out.1)
    /\ (forall g,
           g ∈ out.1 ->
           g ∈ fs
           \/ exists k0 v0,
               (k0, v0) ∈ (k, v) :: its /\ head v0 = Some "1"%byte
               /\ tfkUnmarshalBinary (drop 34 k0) = Ok g)
    /\ (out.2 = None ->
        forall k0 v0 g,
          (k0, v0) ∈ (k, v) :: its -> head v0 = Some "1"%byte ->
          tfkUnmarshalBinary (drop 34 k0) = Ok g -> g ∈ out.1)) as Hnext.
  { intros fs' Hfs'. destruct (IH fs') as (Hmono & Hsound & Hcomplete).
    split; [|split].
    - intros g Hg. apply Hmono, Hfs'. by left.
    - intros g Hg. destruct (Hsound g Hg) as [Hg'|(k0 & v0 & Hin & ?)].
      + apply Hfs' in Hg' as [?|[? ?]]; [by left|].
        right. exists k, v. split; [left|done].
      + right. exists k0, v0. split; [by right|done].
    - intros Hok k0 v0 g Hin Hv0 Hg.
      apply elem_of_cons in Hin as [[= -> ->]|Hin].
      + apply Hmono, Hfs'. by right.
      + by eapply Hcomplete. }
  unfold followsItem, AddRef. simpl.
  destruct v as [|c v]; simpl.
  { apply Hnext. intros g. split; [by left|]. by intros [?|[[=] _]]. }
  case_bool_decide as Hc; simpl.
  - subst c. destruct (tfkUnmarshalBinary (drop 34 k)) as [sr|err] eqn:Hsr;
      simpl.
    + apply Hnext. intros g. rewrite elem_of_union, elem_of_singleton.
      split; [intros [->|?]; [by right|by left]|].
      intros [?|[_ [= ->]]]; [by right|by left].
    + split; [done|]. split; [by left|done].
  - apply Hnext. intros g. split; [by left|].
    intros [?|[[= ->] _]]; [done|]. by destruct Hc.
Qed.

(** X4.  [Follows(from)] only lists feeds that an item of the store names:
    a key that starts with the stored form of [from], with a value that
    starts with ['1'], whose bytes from 34 on decode to the feed.  When it
    returns no error, it lists every such feed. *)
Theorem Follows_spec (b : builder) (from g : FeedRef) :
  let named :=
    exists k v,
      kv b !! k = Some v /\ storedFeed from `prefix_of` k
      /\ head v = Some "1"%byte /\ tfkUnmarshalBinary (drop 34 k) = Ok g in
  (g ∈ (Follows b from).1 -> named)
  /\ ((Follows b from).2 = None -> named -> g ∈ (Follows b from).1).
Proof.
  unfold Follows, NewFeedSet.
  destruct (forItems_followsItem (prefixItems (storedFeed from) (kv b)) ∅)
    as (_ & Hsound & Hcomplete).
  split.
  - intros Hg. destruct (Hsound g Hg) as [Hg'|(k & v & Hin & Hv & Hdec)].
    { by apply not_elem_of_empty in Hg'. }
    apply elem_of_prefixItems in Hin as [Hpre Hkv]. by exists k, v.
  - intros Hok (k & v & Hkv & Hpre & Hv & Hdec).
    apply (Hcomplete Hok k v g); [|done|done].
    by apply elem_of_prefixItems.
Qed.
End follows_properties.

(** ** Stores written by the contact index *)

Section indexed_properties.
Context {FeedRef : Type} `{Countable FeedRef}.
Context `{!RefCodec FeedRef} `{!ContactCodec FeedRef}.

(** The stored form of a feed reference takes 34 bytes. *)
Hypothesis storedFeed_length :
  forall r : FeedRef, length (storedFeed r) = 34%nat.

(** The stored form of a feed reference decodes to it. *)
Hypothesis tfk_roundtrip :
  forall r : FeedRef, tfkUnmarshalBinary (storedFeed r) = Ok r.

(** Listing a feed set yields its members, whatever the order. *)
Hypothesis listOrder_perm :
  forall l : list FeedRef, listOrder l ≡ₚ l.

Set Default Proof Using "Type".

Lemma storedFeed_inj (a b : FeedRef) : storedFeed a = storedFeed b -> a = b.
Proof using tfk_roundtrip.
  intros Hab. pose proof (tfk_roundtrip a) as Ha.
  rewrite Hab, tfk_roundtrip in Ha. congruence.
Qed.

Lemma relationKey_halves (a b : FeedRef) :
  length (storedFeed a ++ storedFeed b) = 68%nat
  /\ take 34 (storedFeed a ++ storedFeed b) = storedFeed a
  /\ drop 34 (storedFeed a ++ storedFeed b) = storedFeed b.
Proof using storedFeed_length.
  rewrite length_app, !storedFeed_length.
  rewrite take_app_length', drop_app_length' by done. done.
Qed.


Lemma relationKey_prefix (from a b : FeedRef) :
  storedFeed from `prefix_of` storedFeed a ++ storedFeed b <-> from = a.
Proof using storedFeed_length tfk_roundtrip.
  split; [|intros ->; by apply prefix_app_r].
  intros [rest Hrest]. apply storedFeed_inj. symmetry.
  by apply app_inj_1 in Hrest as [? _]; [|by rewrite !storedFeed_length].
Qed.

Lemma indexed_store_update (b : builder) (val : logValue FeedRef) :
  indexed (kv b) -> indexed (kv (indexUpdateFunc b val badgerIndex).2).
Proof.
  intros Hb. unfold indexUpdateFunc.
  destruct val as [e|abs|]; [by destruct (IsErrNulled e)| |done].
  destruct (unmarshalContact (ContentBytes abs)) as [c|]; [|done].
  assert (forall v,
             v = ["0"%byte] \/ v = ["1"%byte] \/ v = ["2"%byte] ->
             indexed (<[storedFeed (Author abs) ++ storedFeed (contact c)
                        := v]> (kv b))) as Hset.
  { intros v Hv k v'. rewrite lookup_insert. case_decide as Hk.
    - intros [= <-]. by exists (Author abs), (contact c).
    - apply Hb. }
  destruct (Following c); simpl;
    [apply Hset; right; left; reflexivity|].
  destruct (Blocking c); simpl;
    [apply Hset; right; right; reflexivity|apply Hset; left; reflexivity].
Qed.

(** X5.  The empty store is as the contact index leaves it, and so is the
    store after [indexUpdateFunc] on the index of the store and after
    [DeleteAuthor]: keys of two stored references, values ['0'], ['1'] or
    ['2']. *)
Theorem indexed_invariant (txn : Txn) (b : builder) (val : logValue FeedRef)
    (who : FeedRef) :
  indexed (FeedRef:=FeedRef) ∅
  /\ (indexed (kv b) -> indexed (kv (indexUpdateFunc b val badgerIndex).2))
  /\ (indexed (kv b) -> indexed (kv (DeleteAuthor txn b who).2)).
Proof.
  split; [|split].
  - intros k v. by rewrite lookup_empty.
  - apply indexed_store_update.
  - intros Hb k v. destruct (DeleteAuthor txn b who).1 as [err|] eqn:Herr.
    + rewrite DeleteAuthor_fails by (by rewrite Herr). apply Hb.
    + rewrite DeleteAuthor_lookup by done. case_decide; [done|apply Hb].
Qed.

(** The graph of a store as the contact index leaves it. *)
Lemma scanGraph_indexed (db : store) (a t : FeedRef) w blk :
  indexed db ->
  scanError db = None
  /\ (hasEdge (scanGraph db) a t w blk
      <-> a <> t
          /\ ((w = One /\ blk = false
               /\ db !! (storedFeed a ++ storedFeed t) = Some ["1"%byte])
              \/ (w = PosInf /\ blk = true
                  /\ db !! (storedFeed a ++ storedFeed t)
                     = Some ["2"%byte]))).
Proof using storedFeed_length tfk_roundtrip.
  clear listOrder_perm.
  intros Hindexed.
  assert (scanError db = None) as Hok.
  { apply forItems_no_error. intros dg [k v] Hin.
    apply elem_of_items, Hindexed in Hin as (a' & t' & -> & Hv).
    destruct (relationKey_halves a' t') as (Hlen & Htake & Hdrop).
    unfold buildItem. simpl. rewrite Hlen, Htake, Hdrop, !tfk_roundtrip.
    simpl. case_bool_decide; [done|].
    destruct (lookupOrAdd (storedFeed a') a' dg) as [dg1 nFrom].
    destruct (lookupOrAdd (storedFeed t') t' dg1) as [dg2 nTo].
    destruct (nodeID nFrom =? nodeID nTo); [done|].
    by destruct Hv as [->|[->| ->]]. }
  split; [done|].
  destruct (scanGraph_sound db) as [(_ & Hnodes & _) Hedges].
  split.
  - intros (ids & e & He & <- & <- & <- & <-).
    destruct (Hedges ids e He)
      as (_ & k & v & Hkv & _ & Hne & HF & HT & Hw & Hneg & Hblk).
    destruct (Hindexed k v Hkv) as (a' & t' & -> & Hv).
    destruct (relationKey_halves a' t') as (_ & Htake & Hdrop).
    rewrite Htake in HF, Hne. rewrite Hdrop in HT, Hne.
    apply Hnodes in HF as [_ HF]. apply Hnodes in HT as [_ HT].
    rewrite tfk_roundtrip in HF, HT.
    injection HF as ->. injection HT as ->.
    split; [congruence|].
    destruct (valueWeight_Ok v (W e) Hw Hneg) as [[HW Hhead]|[HW Hhead]];
      rewrite HW in Hblk; rewrite HW, Hblk; [left|right];
      (split; [done|split; [done|]]);
      by destruct Hv as [->|[->| ->]].
  - intros [Hne Hcase].
    pose proof (scanGraph_complete db Hok) as Hcomplete.
    destruct (relationKey_halves a t) as (Hlen & Htake & Hdrop).
    assert (exists v, db !! (storedFeed a ++ storedFeed t) = Some v
                      /\ valueWeight v = Ok w /\ w <> NegInf
                      /\ blk = bool_decide (w = PosInf))
      as (v & Hkv & Hw & Hneg & Hblk).
    { destruct Hcase as [(-> & -> & Hkv)|(-> & -> & Hkv)]; by eexists. }
    apply elem_of_items in Hkv.
    destruct (Hcomplete _ v w Hkv Hlen) as (e & He & _ & _ & HF & HT & Hw' & _ & Hblk');
      [rewrite Htake, Hdrop; by intros ?%storedFeed_inj|done|done|].
    rewrite Htake in HF. rewrite Hdrop in HT.
    apply Hnodes in HF as [_ HF]. apply Hnodes in HT as [_ HT].
    rewrite tfk_roundtrip in HF, HT.
    exists (nodeID (F e), nodeID (T e)), e.
    assert (W e = w) as HW by congruence.
    repeat split; [done|congruence|congruence|done|by rewrite Hblk', HW].
Qed.

(** X6.  On a store as the contact index leaves it, the scan of [Build]
    ends without error, and the graph has an edge from the feed [a] to the
    feed [t] exactly when the two differ and the store holds ['1'] (weight
    1, no block) or ['2'] (weight +Inf, block) under the key of [a] and
    [t]. *)
Theorem Build_indexed (b : builder) (a t : FeedRef) w blk :
  cacheValid b ->
  indexed (kv b) ->
  scanError (kv b) = None
  /\ (hasEdge (Build b).1.1 a t w blk
      <-> a <> t
          /\ ((w = One /\ blk = false
               /\ kv b !! (storedFeed a ++ storedFeed t) = Some ["1"%byte])
              \/ (w = PosInf /\ blk = true
                  /\ kv b !! (storedFeed a ++ storedFeed t)
                     = Some ["2"%byte]))).
Proof using storedFeed_length tfk_roundtrip.
  clear listOrder_perm.
  intros Hb Hindexed. rewrite Build_uncached by done.
  by apply scanGraph_indexed.
Qed.

Lemma Follows_store (b : builder) (from g : FeedRef) :
  indexed (kv b) ->
  (Follows b from).2 = None
  /\ (g ∈ (Follows b from).1
      <-> kv b !! (storedFeed from ++ storedFeed g) = Some ["1"%byte]).
Proof using storedFeed_length tfk_roundtrip.
  clear listOrder_perm.
  intros Hindexed.
  assert ((Follows b from).2 = None) as Hok.
  { apply forItems_no_error. intros fs [k v] Hin.
    apply elem_of_prefixItems in Hin as [_ Hkv].
    apply Hindexed in Hkv as (a & t & -> & Hv).
    destruct (relationKey_halves a t) as (_ & _ & Hdrop).
    unfold followsItem. simpl. rewrite Hdrop, tfk_roundtrip.
    by destruct Hv as [->|[->| ->]]. }
  split; [done|].
  destruct (forItems_followsItem (prefixItems (storedFeed from) (kv b)) ∅)
    as (_ & Hsound & Hcomplete).
  unfold Follows, NewFeedSet in *. split.
  - intros Hg. destruct (Hsound g Hg) as [Hg'|(k & v & Hin & Hv & Hdec)].
    { by apply not_elem_of_empty in Hg'. }
    apply elem_of_prefixItems in Hin as [Hpre Hkv].
    destruct (Hindexed k v Hkv) as (a & t & -> & Hv').
    destruct (relationKey_halves a t) as (_ & _ & Hdrop).
    rewrite Hdrop, tfk_roundtrip in Hdec. injection Hdec as ->.
    apply relationKey_prefix in Hpre as ->.
    by destruct Hv' as [->|[->| ->]].
  - intros Hkv.
    apply (Hcomplete Hok (storedFeed from ++ storedFeed g) ["1"%byte] g);
      [|done|].
    + apply elem_of_prefixItems. split; [by apply prefix_app_r|done].
    + destruct (relationKey_halves from g) as (_ & _ & ->).
      apply tfk_roundtrip.
Qed.

(** X7.  On a store as the contact index leaves it, [Follows(from)]
    returns no error, and lists a feed exactly when the store holds ['1']
    under the key of [from] and that feed. *)
Theorem Follows_indexed (b : builder) (from g : FeedRef) :
  indexed (kv b) ->
  (Follows b from).2 = None
  /\ (g ∈ (Follows b from).1
      <-> kv b !! (storedFeed from ++ storedFeed g) = Some ["1"%byte]).
Proof using storedFeed_length tfk_roundtrip. apply Follows_store. Qed.

End indexed_properties.

(** ** DeleteAuthor and Follows *)

Lemma prefix_same_length {A} (p1 p2 k : list A) :
  p1 `prefix_of` k -> p2 `prefix_of` k -> length p1 = length p2 -> p1 = p2.
Proof.
  intros [r1 ->] [r2 Heq] Hlen. by apply app_inj_1 in Heq as [? _].
Qed.

Section delete_properties.
Context {FeedRef : Type} `{Countable FeedRef} `{!RefCodec FeedRef}.

(** The stored form of a feed reference takes 34 bytes. *)
Hypothesis storedFeed_length :
  forall r : FeedRef, length (storedFeed r) = 34%nat.

(** The stored form of a feed reference decodes to it. *)
Hypothesis tfk_roundtrip :
  forall r : FeedRef, tfkUnmarshalBinary (storedFeed r) = Ok r.

(** A stored reference that decodes is in the canonical form. *)
Hypothesis tfk_canonical :
  forall (raw : bytes) (r : FeedRef),
    length raw = 34%nat -> tfkUnmarshalBinary raw = Ok r -> storedFeed r = raw.

Set Default Proof Using "Type".

Lemma prefixItems_DeleteAuthor (txn : Txn) (b : builder) (who : FeedRef)
    (p : bytes) :
  (DeleteAuthor txn b who).1 = None ->
  prefixItems p (kv (DeleteAuthor txn b who).2)
  = filter (fun it => p `prefix_of` it.1 /\ ~ storedFeed who `prefix_of` it.1)
           (items (kv b)).
Proof.
  intros Hok. rewrite prefixItems_filter.
  rewrite (items_restrict (fun k => ~ storedFeed who `prefix_of` k)
             (kv b) (kv (DeleteAuthor txn b who).2)).
  - apply list_filter_filter.
  - intros k v. rewrite DeleteAuthor_lookup by done.
    destruct (decide (storedFeed who `prefix_of` k));
      [split; [done|tauto]|tauto].
Qed.

(** X9.  After a [DeleteAuthor(who)] that returns no error, [Follows(who)]
    is empty and without error, and [Follows] of every other feed returns
    what it returned before, error included.  After a [DeleteAuthor(who)]
    that returns an error, [Follows] of every feed, [who] too, returns what
    it returned before. *)
Theorem DeleteAuthor_Follows (txn : Txn) (b : builder) (who from : FeedRef) :
  let out := DeleteAuthor txn b who in
  (out.1 = None ->
   Follows out.2 who = (∅, None)
   /\ (from <> who -> Follows out.2 from = Follows b from))
  /\ (out.1 <> None -> Follows out.2 from = Follows b from).
Proof using storedFeed_length tfk_roundtrip.
  clear tfk_canonical. cbv zeta. unfold Follows. split.
  - intros Hok. split.
    + rewrite prefixItems_DeleteAuthor, filter_Forall_not; [done| |done].
      apply Forall_forall. tauto.
    + intros Hne. rewrite prefixItems_DeleteAuthor, prefixItems_filter by done.
      f_equal. apply list_filter_iff. intros [k v]. simpl.
      split; [tauto|]. intros Hfrom. split; [done|]. intros Hwho.
      apply Hne. pose proof (tfk_roundtrip from) as Hdec.
      rewrite (prefix_same_length _ _ _ Hfrom Hwho), tfk_roundtrip in Hdec
        by by rewrite !storedFeed_length.
      congruence.
  - intros Herr. by rewrite DeleteAuthor_fails.
Qed.

(** C2, as the code has it.  After a [DeleteAuthor(who)] that returns no
    error, the graph that [Build] returns has no edge out of [who]; the
    edges into [who] stay: on a store as the contact index leaves it, the
    graph has an edge from [a] to [t] exactly when [a] is not [who] and
    the graph had it before.  After a [DeleteAuthor(who)] that returns an
    error the store is as it was, and [Build] returns its graph. *)
Theorem DeleteAuthor_Build_no_out_edges (txn : Txn) (b : builder)
    (who : FeedRef) :
  let out := DeleteAuthor txn b who in
  (out.1 = None ->
   (forall ids e,
       edges (Build out.2).1.1 !! ids = Some e -> feed (F e) <> who)
   /\ (cacheValid b ->
       indexed (kv b) ->
       forall a t w blk,
         hasEdge (Build out.2).1.1 a t w blk
         <-> a <> who /\ hasEdge (Build b).1.1 a t w blk))
  /\ (out.1 <> None ->
      kv out.2 = kv b /\ (Build out.2).1.1 = scanGraph (kv b)).
Proof using storedFeed_length tfk_roundtrip tfk_canonical.
  cbv zeta.
  pose proof (Build_uncached _ (cacheValid_DeleteAuthor txn b who)) as Hbuild.
  split.
  - intros Hok. split.
    { intros ids e. by apply (DeleteAuthor_no_out_edges tfk_canonical). }
    intros Hb Hindexed a t w blk.
    assert (indexed (kv (DeleteAuthor txn b who).2)) as Hindexed'.
    { intros k v. rewrite DeleteAuthor_lookup by done.
      case_decide; [done|apply Hindexed]. }
    rewrite Hbuild, (Build_uncached _ Hb).
    etrans; [exact (proj2 (scanGraph_indexed storedFeed_length tfk_roundtrip
                             _ a t w blk Hindexed'))|].
    etrans; [|symmetry;
              exact (and_iff_compat_l _
                       (proj2 (scanGraph_indexed storedFeed_length
                                 tfk_roundtrip _ a t w blk Hindexed)))].
    rewrite DeleteAuthor_lookup by done.
    pose proof (relationKey_prefix storedFeed_length tfk_roundtrip who a t)
      as Hprefix.
    case_decide as Hwho.
    + apply Hprefix in Hwho as ->. split; [|tauto].
      intros (_ & [(_ & _ & ?)|(_ & _ & ?)]); done.
    + assert (a <> who) by (intros ->; by apply Hwho, Hprefix). tauto.
  - intros Herr. split; [by apply DeleteAuthor_fails|].
    by rewrite Hbuild, DeleteAuthor_fails.
Qed.
End delete_properties.

(** ** Hops *)

Lemma forEach_invariant {A S} (P : S -> Prop)
    (body : A -> S -> fueled (result S)) lst s s' :
  P s ->
  (forall x s s', x ∈ lst -> P s -> body x s = Returns (Ok s') -> P s') ->
  forEach body lst s = Returns (Ok s') ->
  P s'.
Proof.
  revert s. induction lst as [|x lst IH]; intros s Hs Hbody; simpl.
  { by intros [= <-]. }
  destruct (body x s) as [[s1|err]|] eqn:Hx; simpl; [|done|done].
  apply IH.
  - apply (Hbody x s s1); [left|done|done].
  - intros y t t' Hin. apply Hbody. by right.
Qed.

Lemma forEach_ext {A S} (body body' : A -> S -> fueled (result S)) lst s r :
  (forall x s r, body x s = Returns r -> body' x s = Returns r) ->
  forEach body lst s = Returns r ->
  forEach body' lst s = Returns r.
Proof.
  intros Hbody. revert s. induction lst as [|x lst IH]; intros s; [done|].
  simpl. destruct (body x s) as [[s1|err]|] eqn:Hx; simpl; [| |done].
  - rewrite (Hbody x s _ Hx). simpl. apply IH.
  - rewrite (Hbody x s _ Hx). done.
Qed.

Lemma forEach_no_fail {A S} (body : A -> S -> fueled (result S)) lst s err :
  (forall x s err, body x s <> Returns (Fail err)) ->
  forEach body lst s <> Returns (Fail err).
Proof.
  intros Hbody. revert s. induction lst as [|x lst IH]; intros s; [done|].
  simpl. pose proof (Hbody x s) as Hx.
  destruct (body x s) as [[s1|err1]|]; simpl; [apply IH| |done].
  by destruct (Hx err1).
Qed.

Section hops_properties.
Context {FeedRef : Type} `{Countable FeedRef} `{!RefCodec FeedRef}.

(** The stored form of a feed reference takes 34 bytes. *)
Hypothesis storedFeed_length :
  forall r : FeedRef, length (storedFeed r) = 34%nat.

(** The stored form of a feed reference decodes to it. *)
Hypothesis tfk_roundtrip :
  forall r : FeedRef, tfkUnmarshalBinary (storedFeed r) = Ok r.

(** Listing a feed set yields its members, whatever the order. *)
Hypothesis listOrder_perm :
  forall l : list FeedRef, listOrder l ≡ₚ l.

Set Default Proof Using "Type".

(** More fuel does not change what a run returns. *)
Lemma recurseHops_fuel fuel fuel' (b : builder) from depth st r :
  (fuel <= fuel')%nat ->
  recurseHops fuel b from depth st = Returns r ->
  recurseHops fuel' b from depth st = Returns r.
Proof.
  revert fuel' from depth st r.
  induction fuel as [|fuel IH]; intros fuel' from depth [walked vis] r Hle;
    [done|].
  destruct fuel' as [|fuel']; [lia|].
  rewrite !recurseHops_unfold.
  destruct (depth =? 0); [done|]. case_bool_decide; [done|].
  destruct (Follows b from) as [fs [err|]]; [done|].
  assert (forall x s r0,
             hopsRound
               (fun friend => recurseHops fuel b friend (wrap64 (depth - 1)))
               b from x s = Returns r0 ->
             hopsRound
               (fun friend => recurseHops fuel' b friend (wrap64 (depth - 1)))
               b from x s = Returns r0) as Hbody.
  { intros x [w v] r0. unfold hopsRound, AddRef.
    destruct (Follows b x) as [dst [err'|]]; [done|].
    destruct (Has dst from); [|done]. apply IH. lia. }
  match goal with |- andThen ?loop _ = _ -> _ =>
    destruct loop as [[st1|err]|] eqn:Hloop; [| |done]
  end; by rewrite (forEach_ext _ _ _ _ _ Hbody Hloop).
Qed.

(** What a run of [recurseHops] adds to [walked] lies within [depth] hops
    of [from], and it takes nothing away. *)
Lemma recurseHops_walked fuel (b : builder) from depth walked vis walked' vis' :
  0 <= depth <= MaxInt64 ->
  recurseHops fuel b from depth (walked, vis) = Returns (Ok (walked', vis')) ->
  walked ⊆ walked'
  /\ forall g, g ∈ walked' -> g ∈ walked \/ within b (Z.to_nat depth) from g.
Proof using listOrder_perm.
  clear storedFeed_length tfk_roundtrip.
  revert from depth walked vis walked' vis'.
  induction fuel as [|fuel IH]; intros from depth walked vis walked' vis' Hdepth;
    [done|].
  rewrite recurseHops_unfold.
  destruct (Z.eqb_spec depth 0) as [->|Hnz]; [intros [= <- <-]; auto|].
  case_bool_decide; [intros [= <- <-]; auto|].
  destruct (Follows b from) as [fs [err|]] eqn:Hfs; [done|].
  match goal with |- andThen ?loop _ = _ -> _ =>
    destruct loop as [[[w1 v1]|err]|] eqn:Hloop; [|done|done]
  end.
  simpl. intros [= <- <-].
  assert (exists d, Z.to_nat depth = S d /\ Z.to_nat (depth - 1) = d)
    as (d & Hd & Hd').
  { exists (Z.to_nat (depth - 1)). split; [lia|done]. }
  rewrite Hd.
  refine (forEach_invariant
            (fun st => walked ⊆ st.1
                       /\ forall g, g ∈ st.1 ->
                                    g ∈ walked \/ within b (S d) from g)
            _ _ _ _ _ _ Hloop); [simpl; auto|].
  intros x [w v] [w' v'] Hx [Hsub Hsound]. simpl in Hsub, Hsound.
  rewrite listOrder_perm, elem_of_elements in Hx.
  assert (x ∈ (Follows b from).1) as Hfollows by by rewrite Hfs.
  unfold hopsRound, AddRef.
  destruct (Follows b x) as [dst [err'|]] eqn:Hdst; [done|].
  unfold Has. case_bool_decide as Hback.
  - rewrite wrap64_small by (unfold in_int64, MinInt64, MaxInt64 in *; lia).
    intros Hrec. apply IH in Hrec as [Hsub' Hsound'];
      [|unfold MaxInt64 in *; lia].
    simpl. split.
    { etrans; [exact Hsub|]. etrans; [|exact Hsub']. apply union_subseteq_r. }
    intros g Hg. destruct (Hsound' g Hg) as [Hg'|Hg'].
    + apply elem_of_union in Hg' as [->%elem_of_singleton|Hg'];
        [right; by constructor|by apply Hsound].
    + right. rewrite Hd' in Hg'.
      apply (within_friend b d from x g); [done| |done]. by rewrite Hdst.
  - intros [= <- <-]. simpl.
    split; [etrans; [exact Hsub|apply union_subseteq_r]|]. intros g Hg.
    apply elem_of_union in Hg as [->%elem_of_singleton|Hg];
      [right; by constructor|by apply Hsound].
Qed.

Lemma recurseHops_mono fuel (b : builder) from depth walked vis walked' vis' :
  recurseHops fuel b from depth (walked, vis) = Returns (Ok (walked', vis')) ->
  walked ⊆ walked'.
Proof.
  revert from depth walked vis walked' vis'.
  induction fuel as [|fuel IH]; intros from depth walked vis walked' vis';
    [done|].
  rewrite recurseHops_unfold.
  destruct (depth =? 0); [by intros [= <- <-]|].
  case_bool_decide; [by intros [= <- <-]|].
  destruct (Follows b from) as [fs [err|]]; [done|].
  match goal with |- andThen ?loop _ = _ -> _ =>
    destruct loop as [[[w1 v1]|err]|] eqn:Hloop; [|done|done]
  end.
  simpl. intros [= <- <-].
  refine (forEach_invariant (fun st => walked ⊆ st.1) _ _ _ _ _ _ Hloop);
    [done|].
  intros x [w v] [w' v'] _ Hsub. simpl in Hsub. unfold hopsRound, AddRef.
  destruct (Follows b x) as [dst [err'|]]; [done|].
  destruct (Has dst from).
  - intros Hrec%IH. simpl.
    etrans; [exact Hsub|]. etrans; [|exact Hrec]. apply union_subseteq_r.
  - intros [= <- <-]. simpl. etrans; [exact Hsub|apply union_subseteq_r].
Qed.

Lemma forEach_hopsRound_adds recur (b : builder) from lst st st' :
  (forall x w v w' v', recur x (w, v) = Returns (Ok (w', v')) -> w ⊆ w') ->
  forEach (hopsRound recur b from) lst st = Returns (Ok st') ->
  st.1 ⊆ st'.1 /\ forall x, x ∈ lst -> x ∈ st'.1.
Proof.
  intros Hrecur. revert st.
  induction lst as [|x lst IH]; intros [w v]; cbn [forEach].
  { intros [= <-]. split; [done|]. intros x Hx. by apply elem_of_nil in Hx. }
  destruct (hopsRound recur b from x (w, v)) as [[[w1 v1]|err]|] eqn:Hx;
    cbn [andThen]; [|done|done].
  intros Hrest. apply IH in Hrest as [Hsub Hall]. simpl in Hsub.
  assert ({[x]} ∪ w ⊆ w1) as Hx1.
  { revert Hx. unfold hopsRound, AddRef.
    destruct (Follows b x) as [dst [err'|]]; [done|].
    destruct (Has dst from); [apply Hrecur|by intros [= <- <-]]. }
  split.
  - etrans; [|exact Hsub]. etrans; [|exact Hx1]. apply union_subseteq_r.
  - intros y [->|Hy]%elem_of_cons; [|by apply Hall].
    apply Hsub, Hx1, elem_of_union_l. by apply elem_of_singleton.
Qed.

(** X10.  Every feed [Hops(from, max)] returns lies within [max + 1] hops
    of [from]: [from] follows it, or a chain of at most [max] friends (feeds
    that follow each other) leads from [from] to a feed that follows it.
    [from] itself is never returned. *)
Theorem Hops_sound fuel (b : builder) (from g : FeedRef) max s :
  0 <= max < MaxInt64 ->
  Hops fuel b from max = Returns (Some s) ->
  g ∈ s ->
  g <> from /\ within b (Z.to_nat (max + 1)) from g.
Proof using listOrder_perm.
  clear storedFeed_length tfk_roundtrip.
  intros Hmax. unfold Hops, NewFeedSet, Delete.
  rewrite wrap64_small by (unfold in_int64, MinInt64, MaxInt64 in *; lia).
  destruct (recurseHops fuel b from (max + 1) (∅, ∅))
    as [[[walked vis]|err]|] eqn:Hrec; [|done|done].
  intros [= <-] [Hg Hne]%elem_of_difference.
  split; [intros ->; apply Hne; by apply elem_of_singleton|].
  apply recurseHops_walked in Hrec as [_ Hsound]; [|unfold MaxInt64 in *; lia].
  destruct (Hsound g Hg) as [Hempty|?]; [|done].
  by apply not_elem_of_empty in Hempty.
Qed.

(** X11.  For a bound other than [-1], what [Hops(from, max)] returns holds
    every feed [from] follows, apart from [from] itself. *)
Theorem Hops_lists_follows fuel (b : builder) (from g : FeedRef) max s :
  wrap64 (max + 1) <> 0 ->
  Hops fuel b from max = Returns (Some s) ->
  g ∈ (Follows b from).1 ->
  g <> from ->
  g ∈ s.
Proof using listOrder_perm.
  clear storedFeed_length tfk_roundtrip.
  intros Hdepth. unfold Hops, NewFeedSet, Delete.
  destruct fuel as [|fuel]; [done|]. rewrite recurseHops_unfold.
  destruct (Z.eqb_spec (wrap64 (max + 1)) 0) as [|_]; [done|].
  rewrite bool_decide_eq_false_2 by apply not_elem_of_empty.
  destruct (Follows b from) as [fs [err|]]; [done|].
  match goal with |- match andThen ?loop _ with _ => _ end = _ -> _ =>
    destruct loop as [[[w1 v1]|err]|] eqn:Hloop; [|done|done]
  end.
  simpl. intros [= <-] Hg Hne.
  apply forEach_hopsRound_adds in Hloop as [_ Hall].
  - apply elem_of_difference. split; [|by intros ->%elem_of_singleton].
    apply Hall. by rewrite listOrder_perm, elem_of_elements.
  - intros x w v w' v'. apply recurseHops_mono.
Qed.

(** X12.  For a bound from [0] up, [Hops] returns: the recursion ends
    within [max + 1] nested calls, and what it returns does not depend on
    the fuel the run is given beyond that. *)
Theorem Hops_returns (b : builder) (from : FeedRef) max :
  0 <= max < MaxInt64 ->
  exists r,
    forall fuel,
      (Z.to_nat (max + 1) < fuel)%nat -> Hops fuel b from max = Returns r.
Proof.
  intros Hmax.
  pose proof (recurseHops_returns (S (Z.to_nat (max + 1))) b from (max + 1)
                (NewFeedSet, ∅)) as Hreturns.
  destruct (recurseHops (S (Z.to_nat (max + 1))) b from (max + 1)
              (NewFeedSet, ∅)) as [r0|] eqn:Hrec;
    [|destruct Hreturns; [unfold MaxInt64 in *; lia|lia|done]].
  exists (match r0 with
          | Ok (walked, _) => Some (Delete from walked)
          | Fail _ => None
          end).
  intros fuel Hfuel. unfold Hops.
  rewrite wrap64_small by (unfold in_int64, MinInt64, MaxInt64 in *; lia).
  assert (S (Z.to_nat (max + 1)) <= fuel)%nat as Hle by lia.
  rewrite (recurseHops_fuel _ _ _ _ _ _ _ Hle Hrec).
  by destruct r0 as [[walked vis]|err].
Qed.

(** X13.  On a store as the contact index leaves it, [Hops] never returns
    nil. *)
Theorem Hops_indexed_not_nil fuel (b : builder) (from : FeedRef) max :
  indexed (kv b) -> Hops fuel b from max <> Returns None.
Proof using storedFeed_length tfk_roundtrip.
  clear listOrder_perm.
  intros Hindexed.
  assert (forall fuel from depth st err,
             recurseHops fuel b from depth st <> Returns (Fail err)) as Hrec.
  { clear fuel from. intros fuel.
    induction fuel as [|fuel IH]; intros from depth [walked vis] err; [done|].
    rewrite recurseHops_unfold.
    destruct (depth =? 0); [done|]. case_bool_decide; [done|].
    pose proof (proj1 (Follows_store storedFeed_length tfk_roundtrip b from
                         from Hindexed)) as Hok.
    destruct (Follows b from) as [fs [err'|]]; [done|].
    match goal with |- andThen ?loop _ <> _ =>
      assert (loop <> Returns (Fail err)) as Hloop;
        [|by destruct loop as [[[??]|?]|]; [| intros [= ->] |]]
    end.
    apply forEach_no_fail. intros x [w v] err0. unfold hopsRound, AddRef.
    pose proof (proj1 (Follows_store storedFeed_length tfk_roundtrip b x
                         x Hindexed)) as Hokx.
    destruct (Follows b x) as [dst [err'|]]; [done|].
    destruct (Has dst from); [apply IH|done]. }
  unfold Hops.
  pose proof (Hrec fuel from (wrap64 (max + 1)) (NewFeedSet, ∅)) as Hrun.
  destruct (recurseHops fuel b from (wrap64 (max + 1)) (NewFeedSet, ∅))
    as [[[walked vis]|err]|]; [done| |done].
  by destruct (Hrun err).
Qed.
End hops_properties.

(** ** The contact index and the cache *)

Section index_properties.
Context {FeedRef : Type} `{!RefCodec FeedRef} `{!ContactCodec FeedRef}.

(** X14.  [indexUpdateFunc] leaves the builder as it was whenever it
    returns an error; when it changes the builder at all, the value was a
    message whose content decodes as a contact, no error is returned and
    the cache is empty afterwards. *)
Theorem indexUpdateFunc_effect (b : builder) (val : logValue FeedRef)
    (idx : SetterIndex) :
  let out := indexUpdateFunc b val idx in
  (out.1 <> None -> out.2 = b)
  /\ (out.2 <> b ->
      out.1 = None
      /\ cachedGraph out.2 = None
      /\ exists abs c,
          val = ValMessage abs /\ unmarshalContact (ContentBytes abs) = Ok c).
Proof.
  assert (forall err : option error,
             (err <> None -> b = b)
             /\ (b <> b ->
                 err = None /\ cachedGraph b = None
                 /\ exists abs c,
                     val = ValMessage abs
                     /\ unmarshalContact (ContentBytes abs) = Ok c))
    as Hsame by (intros err; split; [done|intros Hne; by destruct Hne]).
  cbv zeta. unfold indexUpdateFunc.
  destruct val as [e|abs|];
    [destruct (IsErrNulled e); simpl; apply Hsame| |simpl; apply Hsame].
  destruct (unmarshalContact (ContentBytes abs)) as [c|] eqn:Hc;
    [|simpl; apply Hsame].
  match goal with |- context [?set (kv b)] => destruct (set (kv b)) end;
    simpl; [|apply Hsame].
  split; [done|]. intros _. split; [done|]. split; [done|]. by exists abs, c.
Qed.


(** X16.  The cache never goes stale: a cache that is empty or holds the
    graph of the store stays so under [indexUpdateFunc], [DeleteAuthor] and
    [Build]; [Build] then returns the graph of the store as it is, and a
    second [Build] returns the same graph, with no error. *)
Theorem Build_cache_coherent (txn : Txn) (b : builder)
    (val : logValue FeedRef) (idx : SetterIndex) (who : FeedRef) :
  cacheValid b ->
  cacheValid (indexUpdateFunc b val idx).2
  /\ cacheValid (DeleteAuthor txn b who).2
  /\ cacheValid (Build b).2
  /\ (Build b).1.1 = scanGraph (kv b)
  /\ kv (Build b).2 = kv b
  /\ (Build (Build b).2).1 = ((Build b).1.1, None).
Proof.
  intros Hb.
  split; [by apply cacheValid_indexUpdateFunc|].
  split; [apply cacheValid_DeleteAuthor|].
  split; [by apply cacheValid_Build|].
  split; [by apply Build_uncached|].
  unfold Build. destruct (cachedGraph b) as [g|] eqn:Hcache; simpl.
  - by rewrite Hcache.
  - by destruct (forItems buildItem (items (kv b)) NewGraph).
Qed.
End index_properties.

(** ** The limits and effects of a history stream *)

Section stream_properties.
Context {FeedRef Msg : Type} `{!RefCodec FeedRef} `{!FeedFormat FeedRef}.
Implicit Types (arg : CreateHistArgs FeedRef) (m : FeedManager)
  (sink : ByteSink Msg) (env : Env Msg).

(** X17.  For a limit that is not negative, the limit of the historical
    phase and the limit of the live phase add up to the limit of the
    request, and the live limit reaches from the latest sequence to the
    last sequence asked for, [arg.Seq + arg.Limit - 1]; as long as the sums
    stay within [int64]. *)
Theorem limits_add_up arg (cur : Z) :
  0 <= Limit arg ->
  in_int64 (Limit arg) ->
  in_int64 (Seq arg + Limit arg - 1) ->
  in_int64 (cur - Seq arg + 1) ->
  0 <= cur < MaxInt64 ->
  nonliveLimit arg cur + liveLimit arg cur = Limit arg
  /\ liveLimit arg cur = Z.max 0 (Seq arg + Limit arg - 1 - cur).
Proof.
  intros Hpos Hlimit Hlast Hrest Hcur.
  rewrite nonliveLimit_min by done. unfold liveLimit.
  destruct (Z.eqb_spec (Limit arg) (-1)) as [|_]; [lia|].
  rewrite wrap64_sub_l, (wrap64_small (Seq arg + Limit arg - 1)) by done.
  rewrite (wrap64_small (cur + 1))
    by (unfold in_int64, MinInt64, MaxInt64 in *; lia).
  destruct (Z.ltb_spec (Seq arg + Limit arg - 1) cur); [lia|].
  rewrite wrap64_add_l, wrap64_small;
    unfold in_int64, MinInt64, MaxInt64 in *; lia.
Qed.

Lemma Register_frames (ms : MultiSink) sink (until : Z) :
  frames (Register ms sink until).2 = frames sink.
Proof. unfold Register. by case_match. Qed.

(** X18.  [addLiveFeed] returns no error, files the sink under [ssbID] and
    leaves the live feeds of other references and the counter as they
    were; a gauge that is there is set to the number of live feeds. *)
Theorem addLiveFeed_effect m sink (ssbID other : string) (seq limit : Z) :
  let out := addLiveFeed m sink ssbID seq limit in
  out.1.1 = None
  /\ is_Some (liveFeeds out.1.2 !! ssbID)
  /\ (other <> ssbID -> liveFeeds out.1.2 !! other = liveFeeds m !! other)
  /\ sysGauge out.1.2
     = (fun _ => Z.of_nat (size (liveFeeds out.1.2))) <$> sysGauge m
  /\ sysCtr out.1.2 = sysCtr m.
Proof.
  cbv zeta. unfold addLiveFeed.
  destruct (liveFeeds m !! ssbID) as [ms|] eqn:Hms;
    destruct (Register _ sink _) as [liveFeed sink'] eqn:Hreg; simpl.
  - split; [done|]. split; [by rewrite lookup_insert_eq|].
    split; [intros Hne; by rewrite lookup_insert_ne|].
    split; [|done].
    destruct (sysGauge m); [|done]. simpl.
    rewrite map_size_insert_Some; [done|by eexists].
  - split; [done|]. split; [by rewrite lookup_insert_eq|].
    split; [intros Hne; by rewrite !lookup_insert_ne|].
    split; [|done].
    destruct (sysGauge m); [|done]. simpl.
    rewrite (map_size_insert_Some _ _ (<[ssbID:=NewMultiSink seq]> _));
      [done|].
    rewrite lookup_insert_eq. by eexists.
Qed.

Lemma addLiveFeed_error m sink (ssbID : string) (seq limit : Z) :
  (addLiveFeed m sink ssbID seq limit).1.1 = None.
Proof.
  unfold addLiveFeed.
  by destruct (liveFeeds m !! ssbID); destruct (Register _ sink _).
Qed.

Lemma addLiveFeed_lookup m sink (ssbID : string) (seq limit : Z) :
  is_Some (liveFeeds (addLiveFeed m sink ssbID seq limit).1.2 !! ssbID).
Proof.
  unfold addLiveFeed.
  destruct (liveFeeds m !! ssbID); destruct (Register _ sink _); simpl;
    by rewrite lookup_insert_eq.
Qed.

Lemma addLiveFeed_frames m sink (ssbID : string) (seq limit : Z) :
  frames (addLiveFeed m sink ssbID seq limit).2 = frames sink.
Proof.
  unfold addLiveFeed.
  destruct (liveFeeds m !! ssbID);
    destruct (Register _ sink _) as [liveFeed sink'] eqn:Hreg; simpl;
    match goal with
    | Hr : Register ?ms ?s ?u = _ |- _ =>
        pose proof (Register_frames ms s u) as Hframes;
        rewrite Hr in Hframes; exact Hframes
    end.
Qed.

Lemma addLiveFeed_sysCtr m sink (ssbID : string) (seq limit : Z) :
  sysCtr (addLiveFeed m sink ssbID seq limit).1.2 = sysCtr m.
Proof.
  unfold addLiveFeed.
  by destruct (liveFeeds m !! ssbID); destruct (Register _ sink _).
Qed.

(** What the pump does to the sink. *)
Lemma Pump_frames env (w : sinkWrapper) (src : list Msg) sink :
  exists ms, ms `prefix_of` src
    /\ (Pump env w src sink).1.1 = length ms
    /\ frames (Pump env w src sink).2 = frames sink ++ map (wrapFrame w) ms
    /\ closed (Pump env w src sink).2 = closed sink
    /\ ((Pump env w src sink).1.2 = None -> ms = src).
Proof.
  unfold Pump. destruct (pumpFault env) as [[n err]|].
  - destruct (Nat.ltb_spec n (length src)).
    + exists (take n src). simpl. split; [apply prefix_take|].
      split; [rewrite length_take; lia|]. done.
    + by exists src.
  - by exists src.
Qed.

(** X19.  [CreateStreamHistory] only appends to the sink, and what it
    appends are messages in the framing of the feed's format: the JSON
    envelope with [arg.Keys] for a feed of the classic format and for a
    feed of the other known format asked for as JSON, the binary framing
    otherwise, and nothing for a feed of another format; a counter that is
    there grows by the number of frames written, on every path. *)
Theorem CreateStreamHistory_appends env m sink arg (id : FeedRef) :
  ID arg = Some id ->
  let out := CreateStreamHistory env m sink arg in
  let w :=
    match Algo id with
    | RefAlgoFeedGabby =>
        if AsJSON arg then KeyValueWrapper (Keys arg) else GabbyStreamSink
    | _ => KeyValueWrapper (Keys arg)
    end in
  exists ms : list Msg,
    frames out.2 = frames sink ++ map (wrapFrame w) ms
    /\ sysCtr out.1.2 = (fun n => n + Z.of_nat (length ms)) <$> sysCtr m
    /\ ((exists algo, Algo id = RefAlgoOther algo) -> ms = []).
Proof.
  intros Hid. cbv zeta. unfold CreateStreamHistory. rewrite Hid.
  assert (forall n : option Z, n = (fun n => n + Z.of_nat 0) <$> n) as Hsame.
  { intros [n|]; simpl; [f_equal; lia|done]. }
  assert (forall w (other : Prop)
                 (out : option error * FeedManager * ByteSink Msg),
    frames out.2 = frames sink -> sysCtr out.1.2 = sysCtr m ->
    exists ms : list Msg,
      frames out.2 = frames sink ++ map (wrapFrame w) ms
      /\ sysCtr out.1.2 = (fun n => n + Z.of_nat (length ms)) <$> sysCtr m
      /\ (other -> ms = []))
    as Hnone.
  { intros w other out Hframes Hctr. exists []. simpl.
    by rewrite app_nil_r, Hframes, Hctr. }
  destruct (userFeedsGet env _) as [userLog|err]; [|by apply Hnone].
  destruct (getLatestSeq userLog) as [latest|err]; [|by apply Hnone].
  match goal with |- context [if ?c then _ else _] => destruct c end.
  { destruct (Live _).
    - apply Hnone; [apply addLiveFeed_frames|apply addLiveFeed_sysCtr].
    - by apply Hnone. }
  match goal with
  | |- context [logQuery userLog ?q] => destruct (logQuery userLog q) as [src|err]
  end; [|by apply Hnone].
  assert (forall arg' : CreateHistArgs FeedRef,
    Keys ((if Live arg' && (Limit arg' =? 0) then setLimit (-1) arg' else arg'))
    = Keys arg'
    /\ AsJSON ((if Live arg' && (Limit arg' =? 0) then setLimit (-1) arg'
                else arg')) = AsJSON arg'
    /\ Live ((if Live arg' && (Limit arg' =? 0) then setLimit (-1) arg'
              else arg')) = Live arg') as Hlimit.
  { intros arg'. by destruct (Live arg' && _). }
  assert (forall arg' : CreateHistArgs FeedRef,
    arg' = (if negb (Seq arg =? 0) then setSeq (wrap64 (Seq arg - 1)) arg
            else arg) ->
    Keys arg' = Keys arg /\ AsJSON arg' = AsJSON arg) as Hseq.
  { intros arg' ->. by destruct (negb _). }
  set (arg1 := if negb (Seq arg =? 0) then _ else arg) in *.
  destruct (Hseq arg1 eq_refl) as [Hkeys Hjson].
  destruct (Hlimit arg1) as (Hkeys' & Hjson' & Hlive').
  set (arg2 := if Live arg1 && _ then _ else arg1) in *.
  rewrite <- Hkeys, <- Hjson, <- Hkeys', <- Hjson'.
  assert (forall w,
    exists ms : list Msg,
      frames
        (let '(sent, err, sink0) := Pump env w src sink in
         let m0 :=
           match sysCtr m with
           | Some n => {| liveFeeds := liveFeeds m; sysGauge := sysGauge m;
                          sysCtr := Some (n + Z.of_nat sent) |}
           | None => m
           end in
         match err with
         | Some err =>
             if IsCanceled err || IsSinkClosed err
             then let '(_, sink1) := Close env sink0 in (None, m0, sink1)
             else (Some (ErrWrap "failed to pump messages to peer" err),
                   m0, sink0)
         | None =>
             if Live arg2
             then addLiveFeed m0 sink0 (Ref id) latest (liveLimit arg2 latest)
             else let '(err, sink1) := Close env sink0 in (err, m0, sink1)
         end).2 = frames sink ++ map (wrapFrame w) ms
      /\ sysCtr
        (let '(sent, err, sink0) := Pump env w src sink in
         let m0 :=
           match sysCtr m with
           | Some n => {| liveFeeds := liveFeeds m; sysGauge := sysGauge m;
                          sysCtr := Some (n + Z.of_nat sent) |}
           | None => m
           end in
         match err with
         | Some err =>
             if IsCanceled err || IsSinkClosed err
             then let '(_, sink1) := Close env sink0 in (None, m0, sink1)
             else (Some (ErrWrap "failed to pump messages to peer" err),
                   m0, sink0)
         | None =>
             if Live arg2
             then addLiveFeed m0 sink0 (Ref id) latest (liveLimit arg2 latest)
             else let '(err, sink1) := Close env sink0 in (err, m0, sink1)
         end).1.2 = (fun n => n + Z.of_nat (length ms)) <$> sysCtr m) as Hpump.
  { intros w. destruct (Pump_frames env w src sink)
      as (ms & _ & Hsent & Hframes & _ & _).
    exists ms. destruct (Pump env w src sink) as [[sent err] sink0].
    simpl in Hsent, Hframes. subst sent.
    assert (sysCtr match sysCtr m with
                   | Some n => {| liveFeeds := liveFeeds m;
                                  sysGauge := sysGauge m;
                                  sysCtr := Some (n + Z.of_nat (length ms)) |}
                   | None => m
                   end
            = (fun n => n + Z.of_nat (length ms)) <$> sysCtr m) as Hctr.
    { by destruct (sysCtr m) eqn:Hm. }
    destruct err as [err|].
    - by destruct (IsCanceled err || IsSinkClosed err).
    - destruct (Live arg2).
      + by rewrite addLiveFeed_frames, addLiveFeed_sysCtr.
      + done. }
  destruct (Algo id) as [| |algo].
  - destruct (Hpump (KeyValueWrapper (Keys arg2))) as (ms & Hframes & Hctr).
    exists ms. split; [exact Hframes|]. split; [exact Hctr|].
    by intros [algo [=]].
  - destruct (AsJSON arg2).
    + destruct (Hpump (KeyValueWrapper (Keys arg2))) as (ms & Hframes & Hctr).
      exists ms. split; [exact Hframes|]. split; [exact Hctr|].
      by intros [algo [=]].
    + destruct (Hpump GabbyStreamSink) as (ms & Hframes & Hctr).
      exists ms. split; [exact Hframes|]. split; [exact Hctr|].
      by intros [algo [=]].
  - by apply Hnone.
Qed.

(** X20.  Only a live request that returns no error changes the live
    feeds: a request without [live], and every call that returns an error,
    leaves the live feeds and the gauge as they were. *)
Theorem CreateStreamHistory_keeps_liveFeeds env m sink arg :
  let out := CreateStreamHistory env m sink arg in
  Live arg = false \/ out.1.1 <> None ->
  liveFeeds out.1.2 = liveFeeds m /\ sysGauge out.1.2 = sysGauge m.
Proof.
  cbv zeta. unfold CreateStreamHistory.
  destruct (ID arg) as [id|]; [|done].
  destruct (userFeedsGet env _) as [userLog|err]; [|done].
  destruct (getLatestSeq userLog) as [latest|err]; [|done].
  assert (Live (if negb (Seq arg =? 0) then setSeq (wrap64 (Seq arg - 1)) arg
                else arg) = Live arg) as Hlive by (by destruct (negb _)).
  set (arg1 := if negb (Seq arg =? 0) then _ else arg) in *.
  assert (Live (if Live arg1 && (Limit arg1 =? 0) then setLimit (-1) arg1
                else arg1) = Live arg) as Hlive'.
  { rewrite <- Hlive. by destruct (Live arg1 && _). }
  set (arg2 := if Live arg1 && _ then _ else arg1) in *.
  assert (forall m' sink' ssbID seq limit,
    (addLiveFeed m' sink' ssbID seq limit).1.1 = None) as Hadd.
  { apply addLiveFeed_error. }
  match goal with |- context [if ?c then _ else _] => destruct c end.
  { rewrite Hlive. destruct (Live arg) eqn:Harg; [|done].
    rewrite Hadd. by intros [|]. }
  match goal with
  | |- context [logQuery userLog ?q] => destruct (logQuery userLog q) as [src|err]
  end; [|done].
  destruct (match Algo id with
            | RefAlgoFeedSSB1 => _ | RefAlgoFeedGabby => _
            | RefAlgoOther _ => _ end) as [w|err]; [|done].
  destruct (Pump env w src sink) as [[sent err] sink0].
  assert (forall m0, m0 = match sysCtr m with
                     | Some n => {| liveFeeds := liveFeeds m;
                                    sysGauge := sysGauge m;
                                    sysCtr := Some (n + Z.of_nat sent) |}
                     | None => m
                     end ->
          liveFeeds m0 = liveFeeds m /\ sysGauge m0 = sysGauge m) as Hm0.
  { intros m0 ->. by destruct (sysCtr m). }
  specialize (Hm0 _ eq_refl).
  destruct err as [err|].
  - by destruct (IsCanceled err || IsSinkClosed err).
  - rewrite Hlive'. destruct (Live arg) eqn:Harg; [|done].
    rewrite Hadd. by intros [|].
Qed.

(** X21.  A call that returns no error and leaves the sink open is a live
    request whose sink is now filed under the [Ref] of the feed; so a
    request without [live] that returns no error has closed the sink. *)
Theorem CreateStreamHistory_open_sink_is_live env m sink arg :
  let out := CreateStreamHistory env m sink arg in
  out.1.1 = None ->
  closed out.2 = false ->
  exists id, ID arg = Some id /\ Live arg = true
    /\ is_Some (liveFeeds out.1.2 !! Ref id).
Proof.
  cbv zeta. unfold CreateStreamHistory.
  destruct (ID arg) as [id|]; [|done].
  destruct (userFeedsGet env _) as [userLog|err]; [|done].
  destruct (getLatestSeq userLog) as [latest|err]; [|done].
  assert (Live (if negb (Seq arg =? 0) then setSeq (wrap64 (Seq arg - 1)) arg
                else arg) = Live arg) as Hlive by (by destruct (negb _)).
  set (arg1 := if negb (Seq arg =? 0) then _ else arg) in *.
  assert (Live (if Live arg1 && (Limit arg1 =? 0) then setLimit (-1) arg1
                else arg1) = Live arg) as Hlive'.
  { rewrite <- Hlive. by destruct (Live arg1 && _). }
  set (arg2 := if Live arg1 && _ then _ else arg1) in *.
  assert (forall m' sink' seq limit,
    is_Some (liveFeeds (addLiveFeed m' sink' (Ref id) seq limit).1.2
             !! Ref id)) as Hadd.
  { intros. apply addLiveFeed_lookup. }
  match goal with |- context [if ?c then _ else _] => destruct c end.
  { rewrite Hlive. destruct (Live arg) eqn:Harg; [|by destruct (closeErr env)].
    intros _ _. exists id. eauto. }
  match goal with
  | |- context [logQuery userLog ?q] => destruct (logQuery userLog q) as [src|err]
  end; [|done].
  destruct (match Algo id with
            | RefAlgoFeedSSB1 => _ | RefAlgoFeedGabby => _
            | RefAlgoOther _ => _ end) as [w|err]; [|done].
  destruct (Pump env w src sink) as [[sent err] sink0].
  destruct err as [err|].
  - by destruct (IsCanceled err || IsSinkClosed err).
  - rewrite Hlive'. destruct (Live arg) eqn:Harg; [|done].
    intros _ _. exists id. eauto.
Qed.

(** X22.  The sequences 0 and 1 both ask for a feed from its start: when
    the latest sequence of the feed is not negative, a request with
    [arg.Seq = 1] is served as the same request with [arg.Seq = 0]. *)
Theorem CreateStreamHistory_seq_one env m sink arg (id : FeedRef)
    (userLog : Log Msg) (latest : Z) :
  ID arg = Some id ->
  userFeedsGet env (storedFeed id) = Ok userLog ->
  getLatestSeq userLog = Ok latest ->
  0 <= latest ->
  Seq arg = 1 ->
  CreateStreamHistory env m sink arg
  = CreateStreamHistory env m sink (setSeq 0 arg).
Proof.
  intros Hid Hget Hlatest Hpos Hseq. unfold CreateStreamHistory.
  simpl. rewrite Hid, Hget, Hlatest, Hseq. simpl.
  change (wrap64 (1 - 1)) with 0.
  destruct (Z.ltb_spec latest 0) as [|_]; [lia|]. done.
Qed.
End stream_properties.

(** ** What a verified message went through *)

Section verify_checks.
Context {FeedRef : Type} `{!VerifyDeps FeedRef}.

(** The checks of [Verify] in the order they are made. *)
Lemma Verify_Ok_inv (raw : bytes) (hmacSecret : option bytes)
    (mr : MessageRef) (dmsg : DeserializedMessage FeedRef) :
  Verify raw hmacSecret = Ok (mr, dmsg) ->
  exists enc woSig sig v8warp,
    EncodePreserveOrder raw = Ok enc
    /\ unmarshalMessage raw = Ok dmsg
    /\ Hash dmsg = "sha256"%string
    /\ checkContent (Content dmsg) = None
    /\ Content dmsg <> []
    /\ ExtractSignature enc = Ok (woSig, sig)
    /\ signatureVerify sig
         (match hmacSecret with
          | Some key => authSum woSig key
          | None => woSig
          end) (MsgAuthor dmsg) = None
    /\ InternalV8Binary enc = Ok v8warp
    /\ mr = {| RefHash := sha256Sum v8warp; RefAlgoName := RefAlgoMessageSSB1 |}.
Proof.
  unfold Verify. intros Hverify.
  destruct (EncodePreserveOrder raw) as [enc|]; [|done].
  destruct (unmarshalMessage raw) as [dmsg'|]; [|done].
  destruct (bool_decide (Hash dmsg' = "sha256"%string)) eqn:Hhash; [|done].
  apply bool_decide_eq_true_1 in Hhash. simpl in Hverify.
  destruct (Nat.ltb_spec (length (Content dmsg')) 1) as [|Hlen]; [done|].
  destruct (checkContent (Content dmsg')) eqn:Hcheck; [done|].
  destruct (ExtractSignature enc) as [[woSig sig]|] eqn:Hsig; [|done].
  destruct (signatureVerify sig _ (MsgAuthor dmsg')) eqn:Hsigned; [done|].
  destruct (InternalV8Binary enc) as [v8warp|] eqn:Hv8; [|done].
  injection Hverify as <- <-. exists enc, woSig, sig, v8warp.
  repeat split; try done.
  intros Hnil. rewrite Hnil in Hlen. simpl in Hlen. lia.
Qed.

(** X23.  [Verify] returns a message only when its signature holds for
    its author: the signature found in the encoded message verifies, for
    the author the message names, over the encoded message with the
    signature taken out, or, with an HMAC key, over the authenticator of
    that under the key. *)
Theorem Verify_signed (raw : bytes) (hmacSecret : option bytes)
    (mr : MessageRef) (dmsg : DeserializedMessage FeedRef) :
  Verify raw hmacSecret = Ok (mr, dmsg) ->
  exists enc sig,
    EncodePreserveOrder raw = Ok enc
    /\ signatureFindSubmatch enc !! 1%nat = Some sig
    /\ length (signatureFindSubmatch enc) = 2%nat
    /\ signatureVerify sig
         (match hmacSecret with
          | Some key => authSum (signatureStrip enc) key
          | None => signatureStrip enc
          end) (MsgAuthor dmsg) = None.
Proof.
  intros Hverify.
  destruct (Verify_Ok_inv _ _ _ _ Hverify)
    as (enc & woSig & sig & v8warp & Henc & _ & _ & _ & _ & Hsig & Hsigned & _).
  exists enc, sig. split; [done|].
  unfold ExtractSignature in Hsig.
  destruct (Nat.eqb_spec (length (signatureFindSubmatch enc)) 2)
    as [Hlen|]; [|done].
  simpl in Hsig. injection Hsig as <- <-.
  destruct (signatureFindSubmatch enc) as [|whole [|sig [|]]]; try done.
Qed.

(** X24.  The message [Verify] returns is the decoded input, it names the
    hash [sha256], and its content is either an object whose type field is
    3 to 53 bytes long, or a string that ends in [.box] or [.box2]. *)
Theorem Verify_content (raw : bytes) (hmacSecret : option bytes)
    (mr : MessageRef) (dmsg : DeserializedMessage FeedRef) :
  Verify raw hmacSecret = Ok (mr, dmsg) ->
  unmarshalMessage raw = Ok dmsg
  /\ Hash dmsg = "sha256"%string
  /\ ((head (Content dmsg) = Some "{"%byte
       /\ exists type, unmarshalTyped (Content dmsg) = Ok type
            /\ (3 <= String.length type <= 53)%nat)
      \/ (head (Content dmsg) = Some x22
          /\ exists justString, unmarshalString (Content dmsg) = Ok justString
               /\ (HasSuffix justString ".box" = true
                   \/ HasSuffix justString ".box2" = true))).
Proof.
  intros Hverify.
  destruct (Verify_Ok_inv _ _ _ _ Hverify)
    as (enc & woSig & sig & v8warp & _ & Hmsg & Hhash & Hcheck & _).
  split; [done|]. split; [done|].
  unfold checkContent in Hcheck.
  destruct (Content dmsg) as [|c content] eqn:Hcontent.
  { destruct (Verify_Ok_inv _ _ _ _ Hverify)
      as (_ & _ & _ & _ & _ & _ & _ & _ & Hne & _). done. }
  rewrite <- Hcontent in *.
  destruct (bool_decide (c = "{"%byte)) eqn:Hobject.
  - apply bool_decide_eq_true_1 in Hobject as ->. left.
    split; [by rewrite Hcontent|].
    destruct (unmarshalTyped (Content dmsg)) as [type|]; [|done].
    exists type. split; [done|].
    destruct (Nat.ltb_spec (String.length type) 3),
             (Nat.ltb_spec 53 (String.length type)); simpl in Hcheck;
      try done; lia.
  - destruct (bool_decide (c = x22)) eqn:Hstring; [|done].
    apply bool_decide_eq_true_1 in Hstring as ->. right.
    split; [by rewrite Hcontent|].
    destruct (unmarshalString (Content dmsg)) as [justString|]; [|done].
    exists justString. split; [done|].
    destruct (HasSuffix justString ".box"); [by left|].
    destruct (HasSuffix justString ".box2"); [by right|done].
Qed.

(** X25.  The reference and the message [Verify] returns do not depend on
    the HMAC key: the reference is the hash of the encoded input, whatever
    was signed. *)
Theorem Verify_key_independent (raw : bytes) (key1 key2 : option bytes)
    (mr1 mr2 : MessageRef) (dmsg1 dmsg2 : DeserializedMessage FeedRef) :
  Verify raw key1 = Ok (mr1, dmsg1) ->
  Verify raw key2 = Ok (mr2, dmsg2) ->
  mr1 = mr2 /\ dmsg1 = dmsg2
  /\ exists enc v8warp, EncodePreserveOrder raw = Ok enc
       /\ InternalV8Binary enc = Ok v8warp
       /\ RefHash mr1 = sha256Sum v8warp.
Proof.
  intros Hverify1 Hverify2.
  destruct (Verify_Ok_inv _ _ _ _ Hverify1)
    as (enc & _ & _ & v8warp & Henc & Hmsg & _ & _ & _ & _ & _ & Hv8 & ->).
  destruct (Verify_Ok_inv _ _ _ _ Hverify2)
    as (enc' & _ & _ & v8warp' & Henc' & Hmsg' & _ & _ & _ & _ & _ & Hv8' & ->).
  rewrite Henc in Henc'. injection Henc' as <-.
  rewrite Hv8 in Hv8'. injection Hv8' as <-.
  rewrite Hmsg in Hmsg'. injection Hmsg' as <-.
  split; [done|]. split; [done|]. by exists enc, v8warp.
Qed.
End verify_checks.

(** ** Hops below its range *)

Section hops_negative.
Context {FeedRef : Type} `{Countable FeedRef} `{!RefCodec FeedRef}.
Implicit Types (b : builder (FeedRef:=FeedRef)) (from g : FeedRef).

Hypothesis listOrder_perm :
  forall l : list FeedRef, listOrder l ≡ₚ l.

Set Default Proof Using "Type".

(** The loop of [recurseHops] on a feed with a friend, when the call on
    each friend does not return. *)
Lemma forEach_hopsRound_friend b from recur (l : list FeedRef) walked :
  (forall f, (Follows b f).2 = None) ->
  (forall f w, from ∈ (Follows b f).1 -> f ∈ l -> recur f (w, ∅) = OutOfFuel) ->
  (exists g, g ∈ l /\ from ∈ (Follows b g).1) ->
  forEach (hopsRound recur b from) l (walked, ∅) = OutOfFuel.
Proof.
  intros Hfollows. revert walked.
  induction l as [|x l IH]; intros walked Hrecur (g & Hg & Hfriend).
  { by apply elem_of_nil in Hg. }
  cbn [forEach]. unfold hopsRound at 1. simpl.
  pose proof (Hfollows x) as Hx.
  destruct (Follows b x) as [dst err] eqn:Hdst. simpl in Hx. subst err.
  unfold Has. case_bool_decide as Hback.
  - rewrite Hrecur; [done| |by left]. by rewrite Hdst.
  - simpl. apply IH.
    + intros f w Hf Hin. apply Hrecur; [done|by right].
    + exists g. split; [|done].
      apply elem_of_cons in Hg as [->|Hg]; [|done].
      rewrite Hdst in Hfriend. done.
Qed.

Lemma recurseHops_descends fuel b from depth walked :
  (forall f, (Follows b f).2 = None) ->
  (exists g, g ∈ (Follows b from).1 /\ from ∈ (Follows b g).1) ->
  depth < 0 ->
  MinInt64 + Z.of_nat fuel <= depth ->
  recurseHops fuel b from depth (walked, ∅) = OutOfFuel.
Proof using listOrder_perm.
  intros Hfollows. revert from depth walked.
  induction fuel as [|fuel IH]; intros from depth walked Hfriend Hneg Hfuel;
    [done|].
  cbn [recurseHops].
  destruct (Z.eqb_spec depth 0) as [|_]; [lia|].
  rewrite bool_decide_eq_false_2 by apply not_elem_of_empty.
  pose proof (Hfollows from) as Hfrom.
  destruct (Follows b from) as [fromFollows err] eqn:Hlist.
  simpl in Hfrom. subst err. simpl.
  rewrite (forEach_hopsRound_friend b from _ _ walked Hfollows); [done| |].
  - intros f w Hback Hin. apply IH.
    + exists from. split; [done|].
      rewrite listOrder_perm in Hin. apply elem_of_elements in Hin.
      by rewrite Hlist.
    + rewrite wrap64_small; unfold in_int64, MinInt64, MaxInt64 in *; lia.
    + rewrite wrap64_small; unfold in_int64, MinInt64, MaxInt64 in *; lia.
  - destruct Hfriend as (g & Hg & Hback). exists g. split; [|done].
    rewrite listOrder_perm. by apply elem_of_elements.
Qed.

(** X26.  Below its range [Hops] does not come back: for a bound under
    [-1] the depth starts negative and is only counted down, so on a feed
    that has a friend (the two follow each other), in a store whose follow
    listings do not fail, the recursion goes on from friend to friend and
    has not returned after as many nested calls as lie between the depth
    and the least [int]. *)
Theorem Hops_negative_does_not_return fuel b from g max :
  (forall f, (Follows b f).2 = None) ->
  g ∈ (Follows b from).1 ->
  from ∈ (Follows b g).1 ->
  max < -1 ->
  MinInt64 + Z.of_nat fuel <= max + 1 ->
  Hops fuel b from max = OutOfFuel.
Proof using listOrder_perm.
  intros Hfollows Hg Hback Hmax Hfuel. unfold Hops.
  rewrite wrap64_small by (unfold in_int64, MinInt64, MaxInt64 in *; lia).
  rewrite recurseHops_descends; [done|done| |lia|done].
  by exists g.
Qed.
End hops_negative.

(** ** The properties on the network of three feeds *)

Lemma Net3_tfk_roundtrip (r : Net3.peer) :
  tfkUnmarshalBinary (storedFeed r) = Ok r.
Proof. by destruct r. Qed.

Lemma scenario4_cacheValid : cacheValid scenario4.
Proof. intros g Hg. vm_compute in Hg. discriminate Hg. Qed.

Lemma scenario4_indexed : indexed (kv scenario4).
Proof.
  unfold scenario4. cbv zeta. repeat apply indexed_store_update.
  intros k v Hk. simpl in Hk. by rewrite lookup_empty in Hk.
Qed.

(** The edge from Alice to Bob comes from the item under their key. *)
Lemma Build_edge_sound_witness :
  let b := NewBuilder (FeedRef:=Net3.peer) mutualStore in
  edges (Build b).1.1 !! (0, 1) = Some edgeAliceBob
  /\ (0, 1) = (nodeID (F edgeAliceBob), nodeID (T edgeAliceBob))
  /\ exists k v,
      kv b !! k = Some v
      /\ length k = 68%nat
      /\ take 34 k <> drop 34 k
      /\ tfkUnmarshalBinary (take 34 k) = Ok (feed (F edgeAliceBob))
      /\ tfkUnmarshalBinary (drop 34 k) = Ok (feed (T edgeAliceBob))
      /\ ((W edgeAliceBob = One /\ isBlock edgeAliceBob = false
           /\ head v = Some "1"%byte)
          \/ (W edgeAliceBob = PosInf /\ isBlock edgeAliceBob = true
              /\ head v = Some "2"%byte)).
Proof.
  intros b.
  assert (edges (Build b).1.1 !! (0, 1) = Some edgeAliceBob) as Hedge
    by (vm_compute; reflexivity).
  split; [exact Hedge|].
  exact (Build_edge_sound b (0, 1) edgeAliceBob (cacheValid_NewBuilder _)
           Hedge).
Defined.

(** Bob blocks Carol: the item has its edge, of weight +Inf. *)
Lemma Build_edge_complete_witness :
  let b := NewBuilder (FeedRef:=Net3.peer) mutualStore in
  let k := Net3.peerStored Net3.Bob ++ Net3.peerStored Net3.Carol in
  kv b !! k = Some ["2"%byte]
  /\ exists e,
      edges (Build b).1.1 !! (nodeID (F e), nodeID (T e)) = Some e
      /\ tfkUnmarshalBinary (take 34 k) = Ok (feed (F e))
      /\ tfkUnmarshalBinary (drop 34 k) = Ok (feed (T e))
      /\ W e = (if bool_decide (head ["2"%byte] = Some "1"%byte)
                then One else PosInf)
      /\ isBlock e = bool_decide (head ["2"%byte] = Some "2"%byte).
Proof.
  intros b k.
  assert (kv b !! k = Some ["2"%byte]) as Hitem by (vm_compute; reflexivity).
  split; [exact Hitem|].
  apply (Build_edge_complete b k ["2"%byte] (cacheValid_NewBuilder _)).
  - vm_compute. reflexivity.
  - exact Hitem.
  - reflexivity.
  - vm_compute. discriminate.
  - right. reflexivity.
Defined.

(** Two ways to name the edge from Alice to Bob name the same edge. *)
Lemma Build_one_edge_per_pair_witness :
  let b := NewBuilder (FeedRef:=Net3.peer) mutualStore in
  let e :=
    {| F := mkNode 0 Net3.Alice ""; T := mkNode 1 Net3.Bob "";
       W := One; isBlock := negb true |} in
  edges (Build b).1.1 !! (0, 1) = Some edgeAliceBob
  /\ (0, 1) = (0 + 0, 0 + 1) /\ edgeAliceBob = e.
Proof.
  intros b e.
  assert (edges (Build b).1.1 !! (0, 1) = Some edgeAliceBob) as Hedge
    by (vm_compute; reflexivity).
  split; [exact Hedge|].
  exact (Build_one_edge_per_pair Net3_tfk_canonical b (0, 1) (0 + 0, 0 + 1)
           edgeAliceBob e (cacheValid_NewBuilder _) Hedge Hedge
           eq_refl eq_refl).
Defined.

(** Scenario 4: Alice follows Carol, and no longer Bob. *)
Lemma Build_indexed_witness :
  scanError (kv scenario4) = None
  /\ (hasEdge (Build scenario4).1.1 Net3.Alice Net3.Carol One false
      <-> Net3.Alice <> Net3.Carol
          /\ ((One = One /\ false = false
               /\ kv scenario4 !! (storedFeed Net3.Alice ++ storedFeed Net3.Carol)
                  = Some ["1"%byte])
              \/ (One = PosInf /\ false = true
                  /\ kv scenario4
                     !! (storedFeed Net3.Alice ++ storedFeed Net3.Carol)
                     = Some ["2"%byte]))).
Proof.
  exact (Build_indexed Net3_storedFeed_length Net3_tfk_roundtrip scenario4
           Net3.Alice Net3.Carol One false scenario4_cacheValid
           scenario4_indexed).
Defined.

Lemma Follows_indexed_witness :
  (Follows scenario4 Net3.Alice).2 = None
  /\ (Net3.Bob ∈ (Follows scenario4 Net3.Alice).1
      <-> kv scenario4 !! (storedFeed Net3.Alice ++ storedFeed Net3.Bob)
          = Some ["1"%byte]).
Proof.
  exact (Follows_indexed Net3_storedFeed_length Net3_tfk_roundtrip scenario4
           Net3.Alice Net3.Bob scenario4_indexed).
Defined.


Lemma mutualStore_indexed : indexed (FeedRef:=Net3.peer) mutualStore.
Proof.
  intros k v Hk. apply elem_of_list_to_map_2 in Hk.
  repeat (apply elem_of_cons in Hk as [[= -> ->]|Hk]);
    [| | |by apply elem_of_nil in Hk].
  - exists Net3.Alice, Net3.Bob. split; [reflexivity|]. right. by left.
  - exists Net3.Bob, Net3.Alice. split; [reflexivity|]. right. by left.
  - exists Net3.Bob, Net3.Carol. split; [reflexivity|]. right. by right.
Qed.

(** Bob is deleted, by a transaction that goes through and by one that
    cannot delete his key about Carol. *)
Lemma DeleteAuthor_Follows_witness :
  let b := NewBuilder (FeedRef:=Net3.peer) mutualStore in
  (DeleteAuthor noFault b Net3.Bob).1 = None
  /\ Follows (DeleteAuthor noFault b Net3.Bob).2 Net3.Bob = (∅, None)
  /\ Follows (DeleteAuthor noFault b Net3.Bob).2 Net3.Alice
     = Follows b Net3.Alice
  /\ (DeleteAuthor deleteFails b Net3.Bob).1 <> None
  /\ Follows (DeleteAuthor deleteFails b Net3.Bob).2 Net3.Bob
     = Follows b Net3.Bob.
Proof.
  intros b.
  assert ((DeleteAuthor noFault b Net3.Bob).1 = None) as Hok
    by (vm_compute; reflexivity).
  assert ((DeleteAuthor deleteFails b Net3.Bob).1 <> None) as Herr
    by (vm_compute; discriminate).
  pose proof (DeleteAuthor_Follows Net3_storedFeed_length Net3_tfk_roundtrip
                noFault b Net3.Bob Net3.Alice) as Hthm.
  cbv zeta in Hthm. destruct Hthm as [Hsuccess _].
  destruct (Hsuccess Hok) as [Hbob Halice].
  split; [exact Hok|]. split; [exact Hbob|].
  split; [apply Halice; discriminate|]. split; [exact Herr|].
  exact (proj2 (DeleteAuthor_Follows Net3_storedFeed_length
                  Net3_tfk_roundtrip deleteFails b Net3.Bob Net3.Bob) Herr).
Defined.

(** Alice is deleted: the edge from Bob into her stays, under new IDs. *)
Lemma DeleteAuthor_Build_no_out_edges_witness :
  let b := NewBuilder (FeedRef:=Net3.peer) mutualStore in
  let out := DeleteAuthor noFault b Net3.Alice in
  out.1 = None
  /\ size (kv out.2) = 2%nat
  /\ edges (Build out.2).1.1 !! (0, 1) = Some edgeBobAlice
  /\ feed (F edgeBobAlice) <> Net3.Alice
  /\ (hasEdge (Build out.2).1.1 Net3.Bob Net3.Alice One false
      <-> Net3.Bob <> Net3.Alice
          /\ hasEdge (Build b).1.1 Net3.Bob Net3.Alice One false)
  /\ (DeleteAuthor deleteFails b Net3.Bob).1 <> None
  /\ kv (DeleteAuthor deleteFails b Net3.Bob).2 = kv b.
Proof.
  intros b out.
  assert (out.1 = None) as Hok by (vm_compute; reflexivity).
  assert (edges (Build out.2).1.1 !! (0, 1) = Some edgeBobAlice) as Hedge
    by (vm_compute; reflexivity).
  assert ((DeleteAuthor deleteFails b Net3.Bob).1 <> None) as Herr
    by (vm_compute; discriminate).
  pose proof (DeleteAuthor_Build_no_out_edges Net3_storedFeed_length
                Net3_tfk_roundtrip Net3_tfk_canonical noFault b Net3.Alice)
    as Hthm.
  cbv zeta in Hthm. destruct Hthm as [Hsuccess _].
  destruct (Hsuccess Hok) as [Hout Hin].
  split; [exact Hok|]. split; [by vm_compute|]. split; [exact Hedge|].
  split; [exact (Hout _ _ Hedge)|].
  split;
    [exact (Hin (cacheValid_NewBuilder _) mutualStore_indexed
              Net3.Bob Net3.Alice One false)|].
  split; [exact Herr|].
  exact (proj1 (proj2 (DeleteAuthor_Build_no_out_edges Net3_storedFeed_length
                         Net3_tfk_roundtrip Net3_tfk_canonical deleteFails b
                         Net3.Bob) Herr)).
Defined.

(** Against C2 as stated: after a [DeleteAuthor(Alice)] that returns no
    error, the graph that [Build] returns still has the edge from Bob into
    Alice. *)
Lemma DeleteAuthor_keeps_in_edges :
  let out := DeleteAuthor noFault (NewBuilder mutualStore) Net3.Alice in
  out.1 = None
  /\ cachedGraph out.2 = None
  /\ edges (Build out.2).1.1 !! (0, 1) = Some edgeBobAlice
  /\ feed (T edgeBobAlice) = Net3.Alice.
Proof.
  split; [vm_compute; reflexivity|]. split; [vm_compute; reflexivity|].
  split; [vm_compute; reflexivity|done].
Qed.

(** Carol is two hops from Alice: Bob, a friend of Alice, follows her. *)
Lemma Hops_sound_witness :
  let b := NewBuilder (FeedRef:=Net3.peer) chainStore in
  Hops 3 b Net3.Alice 1 = Returns (Some {[Net3.Bob; Net3.Carol]})
  /\ Net3.Carol <> Net3.Alice
  /\ within b (Z.to_nat (1 + 1)) Net3.Alice Net3.Carol.
Proof.
  intros b.
  assert (Hops 3 b Net3.Alice 1 = Returns (Some {[Net3.Bob; Net3.Carol]}))
    as Hhops by (vm_compute; reflexivity).
  split; [exact Hhops|].
  apply (Hops_sound Net3_listOrder_perm 3 b Net3.Alice Net3.Carol 1
           {[Net3.Bob; Net3.Carol]}).
  - unfold MaxInt64. lia.
  - exact Hhops.
  - apply elem_of_union_r, elem_of_singleton. reflexivity.
Defined.

Lemma Hops_lists_follows_witness :
  let b := NewBuilder (FeedRef:=Net3.peer) chainStore in
  Hops 2 b Net3.Bob 0 = Returns (Some {[Net3.Alice; Net3.Carol]})
  /\ Net3.Carol ∈ ({[Net3.Alice; Net3.Carol]} : gset Net3.peer).
Proof.
  intros b.
  assert (Hops 2 b Net3.Bob 0 = Returns (Some {[Net3.Alice; Net3.Carol]}))
    as Hhops by (vm_compute; reflexivity).
  split; [exact Hhops|].
  apply (Hops_lists_follows Net3_listOrder_perm 2 b Net3.Bob Net3.Carol 0
           {[Net3.Alice; Net3.Carol]}).
  - vm_compute. discriminate.
  - exact Hhops.
  - vm_compute. reflexivity.
  - discriminate.
Defined.

Lemma Hops_returns_witness :
  0 <= 1 < MaxInt64
  /\ exists r,
      forall fuel,
        (Z.to_nat (1 + 1) < fuel)%nat ->
        Hops fuel (NewBuilder chainStore) Net3.Alice 1 = Returns r.
Proof.
  assert (0 <= 1 < MaxInt64) as Hmax by (unfold MaxInt64; lia).
  split; [exact Hmax|].
  exact (Hops_returns (NewBuilder chainStore) Net3.Alice 1 Hmax).
Defined.

Lemma Hops_indexed_not_nil_witness :
  indexed (kv scenario4)
  /\ Hops 3 scenario4 Net3.Alice 1 <> Returns None.
Proof.
  split; [exact scenario4_indexed|].
  exact (Hops_indexed_not_nil Net3_storedFeed_length Net3_tfk_roundtrip 3
           scenario4 Net3.Alice 1 scenario4_indexed).
Defined.


Lemma Build_cache_coherent_witness :
  let b := (Build (NewBuilder (FeedRef:=Net3.peer) mutualStore)).2 in
  let val := ValMessage aliceUnfollowsBob in
  is_Some (cachedGraph b)
  /\ cacheValid (indexUpdateFunc b val badgerIndex).2
  /\ cacheValid (DeleteAuthor noFault b Net3.Carol).2
  /\ cacheValid (Build b).2
  /\ (Build b).1.1 = scanGraph (kv b)
  /\ kv (Build b).2 = kv b
  /\ (Build (Build b).2).1 = ((Build b).1.1, None).
Proof.
  intros b val. split; [vm_compute; eexists; reflexivity|].
  apply (Build_cache_coherent noFault b val badgerIndex Net3.Carol).
  apply cacheValid_Build, cacheValid_NewBuilder.
Defined.

(** Five messages (latest sequence 4) and a request for ten from offset
    3 on: two from the log, eight live. *)
Lemma limits_add_up_witness :
  nonliveLimit (request 3 10 true) 4 = 2
  /\ nonliveLimit (request 3 10 true) 4 + liveLimit (request 3 10 true) 4
     = Limit (request 3 10 true)
  /\ liveLimit (request 3 10 true) 4
     = Z.max 0 (Seq (request 3 10 true) + Limit (request 3 10 true) - 1 - 4).
Proof.
  split; [reflexivity|].
  apply (limits_add_up (request 3 10 true) 4);
    unfold in_int64, MinInt64, MaxInt64; simpl; lia.
Defined.

(** Three messages of Alice, whose feed is of the classic format, and the
    same request for the feed of Carol, whose format is not served. *)
Lemma CreateStreamHistory_appends_witness :
  let out := CreateStreamHistory (feedEnv ["m1"; "m2"; "m3"]%string)
               idleManager openSink (request 2 (-1) false) in
  let w :=
    match Algo Net3.Alice with
    | RefAlgoFeedGabby =>
        if AsJSON (request 2 (-1) false)
        then KeyValueWrapper (Keys (request 2 (-1) false))
        else GabbyStreamSink
    | _ => KeyValueWrapper (Keys (request 2 (-1) false))
    end in
  let other := CreateStreamHistory (feedEnv ["m1"; "m2"; "m3"]%string)
                 idleManager openSink (requestOf Net3.Carol 2 (-1) false) in
  frames out.2 = [KeyValueFrame false "m2"; KeyValueFrame false "m3"]%string
  /\ (exists ms : list string,
        frames out.2 = frames openSink ++ map (wrapFrame w) ms
        /\ sysCtr out.1.2
           = (fun n => n + Z.of_nat (length ms)) <$> sysCtr idleManager
        /\ ((exists algo, Algo Net3.Alice = RefAlgoOther algo) -> ms = []))
  /\ other.1.1 = Some (ErrMsg "unsupported feed format")
  /\ exists ms : list string,
      frames other.2
      = frames openSink ++ map (wrapFrame (KeyValueWrapper false)) ms
      /\ sysCtr other.1.2
         = (fun n => n + Z.of_nat (length ms)) <$> sysCtr idleManager
      /\ ((exists algo, Algo Net3.Carol = RefAlgoOther algo) -> ms = []).
Proof.
  intros out w other. split; [by vm_compute|]. split.
  { exact (CreateStreamHistory_appends (feedEnv ["m1"; "m2"; "m3"]%string)
             idleManager openSink (request 2 (-1) false) Net3.Alice
             eq_refl). }
  split; [by vm_compute|].
  exact (CreateStreamHistory_appends (feedEnv ["m1"; "m2"; "m3"]%string)
           idleManager openSink (requestOf Net3.Carol 2 (-1) false)
           Net3.Carol eq_refl).
Defined.

Lemma CreateStreamHistory_keeps_liveFeeds_witness :
  let out := CreateStreamHistory (feedEnv ["m1"; "m2"; "m3"]%string)
               idleManager openSink (request 2 (-1) false) in
  liveFeeds out.1.2 = liveFeeds idleManager
  /\ sysGauge out.1.2 = sysGauge idleManager.
Proof.
  apply (CreateStreamHistory_keeps_liveFeeds
           (feedEnv ["m1"; "m2"; "m3"]%string) idleManager openSink
           (request 2 (-1) false)).
  left. reflexivity.
Defined.

Lemma CreateStreamHistory_open_sink_is_live_witness :
  let out := CreateStreamHistory (feedEnv ["m1"; "m2"; "m3"]%string)
               idleManager openSink (request 2 (-1) true) in
  closed out.2 = false
  /\ exists id,
      ID (request 2 (-1) true) = Some id
      /\ Live (request 2 (-1) true) = true
      /\ is_Some (liveFeeds out.1.2 !! Ref id).
Proof.
  intros out.
  assert (closed out.2 = false) as Hopen by (vm_compute; reflexivity).
  split; [exact Hopen|].
  apply (CreateStreamHistory_open_sink_is_live
           (feedEnv ["m1"; "m2"; "m3"]%string) idleManager openSink
           (request 2 (-1) true)).
  - vm_compute. reflexivity.
  - exact Hopen.
Defined.

Lemma CreateStreamHistory_seq_one_witness :
  CreateStreamHistory (feedEnv ["m1"; "m2"]%string) idleManager openSink
    (request 1 (-1) false)
  = CreateStreamHistory (feedEnv ["m1"; "m2"]%string) idleManager openSink
      (setSeq 0 (request 1 (-1) false)).
Proof.
  apply (CreateStreamHistory_seq_one (feedEnv ["m1"; "m2"]%string)
           idleManager openSink (request 1 (-1) false) Net3.Alice
           (listLog ["m1"; "m2"]%string) 1); try reflexivity.
  lia.
Defined.

Lemma Verify_signed_witness :
  let raw := typedMessage "post" in
  Verify (FeedRef:=Net3.peer) raw (Some [x00])
  = Ok ({| RefHash := raw; RefAlgoName := "sha256" |},
        mkDeserialized Net3.Alice 1 "sha256" raw)
  /\ exists enc sig,
      EncodePreserveOrder (FeedRef:=Net3.peer) raw = Ok enc
      /\ signatureFindSubmatch (FeedRef:=Net3.peer) enc !! 1%nat = Some sig
      /\ length (signatureFindSubmatch (FeedRef:=Net3.peer) enc) = 2%nat
      /\ signatureVerify sig (authSum (signatureStrip enc) [x00]) Net3.Alice
         = None.
Proof.
  intros raw.
  assert (Verify (FeedRef:=Net3.peer) raw (Some [x00])
          = Ok ({| RefHash := raw; RefAlgoName := "sha256" |},
                mkDeserialized Net3.Alice 1 "sha256" raw)) as Hverify
    by (vm_compute; reflexivity).
  split; [exact Hverify|].
  exact (Verify_signed raw (Some [x00]) _ _ Hverify).
Defined.

Lemma Verify_content_witness :
  let raw := typedMessage "post" in
  let dmsg := mkDeserialized Net3.Alice 1 "sha256" raw in
  unmarshalMessage raw = Ok dmsg
  /\ Hash dmsg = "sha256"%string
  /\ ((head (Content dmsg) = Some "{"%byte
       /\ exists type, unmarshalTyped (FeedRef:=Net3.peer) (Content dmsg)
                       = Ok type
            /\ (3 <= String.length type <= 53)%nat)
      \/ (head (Content dmsg) = Some x22
          /\ exists justString,
               unmarshalString (FeedRef:=Net3.peer) (Content dmsg)
               = Ok justString
               /\ (HasSuffix justString ".box" = true
                   \/ HasSuffix justString ".box2" = true))).
Proof.
  intros raw dmsg.
  apply (Verify_content raw None
           {| RefHash := raw; RefAlgoName := "sha256" |} dmsg).
  vm_compute. reflexivity.
Defined.

Lemma Verify_key_independent_witness :
  let raw := typedMessage "post" in
  let mr := {| RefHash := raw; RefAlgoName := "sha256" |} in
  let dmsg := mkDeserialized Net3.Alice 1 "sha256" raw in
  mr = mr /\ dmsg = dmsg
  /\ exists enc v8warp,
      EncodePreserveOrder (FeedRef:=Net3.peer) raw = Ok enc
      /\ InternalV8Binary (FeedRef:=Net3.peer) enc = Ok v8warp
      /\ RefHash mr = sha256Sum (FeedRef:=Net3.peer) v8warp.
Proof.
  intros raw mr dmsg.
  apply (Verify_key_independent raw None (Some [x00]) mr mr dmsg dmsg);
    vm_compute; reflexivity.
Defined.

(** Alice and Bob follow each other: a thousand nested calls are not
    enough for [Hops(Alice, -2)]. *)
Lemma Hops_negative_does_not_return_witness :
  Net3.Bob ∈ (Follows (NewBuilder mutualStore) Net3.Alice).1
  /\ Net3.Alice ∈ (Follows (NewBuilder mutualStore) Net3.Bob).1
  /\ Hops 1000 (NewBuilder mutualStore) Net3.Alice (-2) = OutOfFuel.
Proof.
  assert (Net3.Bob ∈ (Follows (NewBuilder mutualStore) Net3.Alice).1)
    as Hbob by (vm_compute; reflexivity).
  assert (Net3.Alice ∈ (Follows (NewBuilder mutualStore) Net3.Bob).1)
    as Halice by (vm_compute; reflexivity).
  split; [exact Hbob|]. split; [exact Halice|].
  apply (Hops_negative_does_not_return Net3_listOrder_perm 1000
           (NewBuilder mutualStore) Net3.Alice Net3.Bob (-2)).
  - intros []; vm_compute; reflexivity.
  - exact Hbob.
  - exact Halice.
  - lia.
  - unfold MinInt64. lia.
Defined.
